(** * ReconnectingWebsocket: a model of [src/index.ts]

    The wrapper is a closure over six mutable variables ([ws],
    [connectingTimeout], [reconnectDelay], [retriesCount], [shouldRetry],
    [listeners]) that are shared by every callback it creates.  The model
    keeps those variables in a record, together with the part of the
    environment the callbacks act upon: the sockets created so far, the
    pending timers, and a trace of the observable calls.

    Numbers are modelled as exact rationals ([Q]); [NaN] and infinite
    delays are outside the model, and [maxRetries] alone may be [Infinity],
    as in the default table.  The code computes in doubles, which round
    every sum and product; what is stated about the delays is stated so
    as to hold under that rounding too (see [initReconnectionDelay_rounded]
    and [initReconnectionDelay_binary64]). *)

From Stdlib Require Import QArith Qminmax Qround Lqa Lia List Bool Ascii String
  Arith Floats.
Import ListNotations.
Open Scope string_scope.
Open Scope list_scope.
Open Scope Q_scope.

(** ** Configuration *)

(** A socket factory ([WebSocket] or a user supplied constructor) is known
    by a reference only: it is an opaque capability.  A factory is taken
    to be a function that [new] can call and that returns a socket; one
    that throws, or that is a function without being a constructor, is
    outside the model. *)
Definition Factory := nat.

(** A retry budget: a number or [Infinity]. *)
Inductive Limit : Type :=
| Finite (n : Q)
| Infinity.

(** The table [DEFAULT_OPTIONS], which is also the object every instance
    uses as its [config].  [constructor] is [Some f] when the value stored
    under that key is a function and [None] otherwise ([null], or anything
    whose [typeof] is not ['function']). *)
Record Config : Type := mkConfig {
  constructor : option Factory;
  maxReconnectionDelay : Q;
  minReconnectionDelay : Q;
  reconnectionDelayGrowFactor : Q;
  connectionTimeout : Q;
  maxRetries : Limit;
  debug : bool
}.

(** The caller's [options] object: a key is [Some v] exactly when
    [options.hasOwnProperty(key)]. *)
Record Options : Type := mkOptions {
  opt_constructor : option (option Factory);
  opt_maxReconnectionDelay : option Q;
  opt_minReconnectionDelay : option Q;
  opt_reconnectionDelayGrowFactor : option Q;
  opt_connectionTimeout : option Q;
  opt_maxRetries : option Limit;
  opt_debug : option bool
}.

Definition empty_options : Options :=
  mkOptions None None None None None None None.

(** [DEFAULT_OPTIONS] as the module initialises it; [global_WebSocket] is
    [Some f] when [typeof WebSocket === 'function']. *)
Definition DEFAULT_OPTIONS (global_WebSocket : option Factory) : Config :=
  {| constructor := global_WebSocket;
     maxReconnectionDelay := 10000;
     minReconnectionDelay := 1500;
     reconnectionDelayGrowFactor := 13 # 10;
     connectionTimeout := 4000;
     maxRetries := Infinity;
     debug := false |}.

(** [config[key] = options[key]] for a key the options own. *)
Definition assign {A : Type} (current : A) (own : option A) : A :=
  match own with
  | Some v => v
  | None => current
  end.

(** Lines 56-59: [config] IS the table it is given (no copy is made), and
    every key of it that [options] owns is overwritten in place.  The
    result is the table after the loop. *)
Definition set_config (config : Config) (options : Options) : Config :=
  {| constructor := assign (constructor config) (opt_constructor options);
     maxReconnectionDelay :=
       assign (maxReconnectionDelay config) (opt_maxReconnectionDelay options);
     minReconnectionDelay :=
       assign (minReconnectionDelay config) (opt_minReconnectionDelay options);
     reconnectionDelayGrowFactor :=
       assign (reconnectionDelayGrowFactor config)
              (opt_reconnectionDelayGrowFactor options);
     connectionTimeout :=
       assign (connectionTimeout config) (opt_connectionTimeout options);
     maxRetries := assign (maxRetries config) (opt_maxRetries options);
     debug := assign (debug config) (opt_debug options) |}.

(** ** Backoff arithmetic *)

(** [a > b] on numbers. *)
Definition Qgtb (a b : Q) : bool := negb (Qle_bool a b).

(** Lines 20-21; [random] is the value [Math.random()] returns. *)
Definition initReconnectionDelay (config : Config) (random : Q) : Q :=
  minReconnectionDelay config + random * minReconnectionDelay config.

(** Lines 20-21 in an arithmetic that rounds the product and the sum, as
    the doubles of the platform do; [round] is the rounding. *)
Definition initReconnectionDelay_rounded (round : Q -> Q) (config : Config)
  (random : Q) : Q :=
  round (minReconnectionDelay config
         + round (random * minReconnectionDelay config)).

(** Lines 20-21 on the platform's doubles. *)
Definition initReconnectionDelay_binary64 (min random : float) : float :=
  (min + random * min)%float.

(** A rounding to exercise the statements with: to the nearest integer,
    halves upwards. *)
Definition to_nearest_integer (x : Q) : Q := inject_Z (Qfloor (x + (1 # 2))).

(** Lines 23-28. *)
Definition updateReconnectionDelay (config : Config) (previousDelay : Q) : Q :=
  let newDelay := previousDelay * reconnectionDelayGrowFactor config in
  if Qgtb newDelay (maxReconnectionDelay config)
  then maxReconnectionDelay config
  else newDelay.

(** [retriesCount > config.maxRetries]. *)
Definition exceeds (retriesCount : nat) (limit : Limit) : bool :=
  match limit with
  | Finite n => Qgtb (inject_Z (Z.of_nat retriesCount)) n
  | Infinity => false
  end.

(** [!reconnectDelay]: the delay is the sentinel [0]. *)
Definition is_unset (reconnectDelay : Q) : bool := Qeq_bool reconnectDelay 0.

(** ** Sockets, timers and observations *)

Definition SocketId := nat.
Definition TimerId := nat.

(** A listener is a function; [===] compares references. *)
Definition ListenerRef := nat.
Definition EventType := string.

(** The third argument of [addEventListener]: absent, or a capture flag.
    The socket tells two registrations of one function apart by it. *)
Inductive ListenerOptions : Type :=
| NoOptions
| Capture (flag : bool).

Definition capture_of (options : ListenerOptions) : bool :=
  match options with
  | NoOptions => false
  | Capture flag => flag
  end.

Inductive ErrCode : Type := ETIMEDOUT | EHOSTDOWN.

(** What a socket can have attached: the two closures [connect] creates
    (lines 101 and 109) or a function of the caller. *)
Inductive Callback : Type :=
| OpenHandler
| CloseHandler
| UserListener (listener : ListenerRef).

Inductive ReadyState : Type := CONNECTING | OPEN | CLOSING | CLOSED.

(** The underlying socket is not part of the repository.  It is taken as
    the platform defines a [WebSocket]: an event target whose listener list
    holds one entry per (type, callback, capture), with a ready state that
    moves from CONNECTING to OPEN at most once and reaches CLOSED exactly
    when its single ['close'] event fires.  [close_calls] counts the calls
    of [close()] it received. *)
Record Socket : Type := mkSocket {
  made_by : Factory;
  sock_url : string;
  sock_protocols : list string;
  readyState : ReadyState;
  attached : list (EventType * Callback * bool);
  onerror : option ListenerRef;
  close_calls : nat
}.

(** The three kinds of callback the wrapper hands to [setTimeout]. *)
Inductive Task : Type :=
| ConnectTask                   (* line 125: [connect] *)
| TimeoutTask                   (* lines 87-91 *)
| ErrorTask (code : ErrCode).   (* lines 71-80 *)

Record Timer : Type := mkTimer {
  timer_id : TimerId;
  timer_delay : Q;
  timer_task : Task
}.

(** The arguments of the calls of [log]; they reach the console only when
    [config.debug] is set. *)
Inductive LogLine : Type :=
| LogInit
| LogConnect
| LogTimeout
| LogBypass
| LogOpen
| LogReconnectDelay (delay : Q)
| LogClose
| LogRetriesCount (count : nat).

Inductive Obs : Type :=
| Logged (line : LogLine)
| EmitError (code : ErrCode)
| ErrorListenerCalled (code : ErrCode) (listener : ListenerRef)
| OnerrorCalled (code : ErrCode) (handler : ListenerRef)
| ListenerCalled (socket : SocketId) (type : EventType) (listener : ListenerRef).

(** The closure variables of lines 43-48, then the environment. *)
Record State : Type := mkState {
  ws : option SocketId;
  connectingTimeout : option TimerId;
  reconnectDelay : Q;
  retriesCount : nat;
  shouldRetry : bool;
  listeners : list (EventType * list (ListenerRef * ListenerOptions));
  sockets : list Socket;
  timers : list Timer;
  next_timer : TimerId;
  trace : list Obs
}.

Definition set_ws (v : option SocketId) (s : State) : State :=
  mkState v (connectingTimeout s) (reconnectDelay s) (retriesCount s)
          (shouldRetry s) (listeners s) (sockets s) (timers s) (next_timer s)
          (trace s).

Definition set_connectingTimeout (v : option TimerId) (s : State) : State :=
  mkState (ws s) v (reconnectDelay s) (retriesCount s)
          (shouldRetry s) (listeners s) (sockets s) (timers s) (next_timer s)
          (trace s).

Definition set_reconnectDelay (v : Q) (s : State) : State :=
  mkState (ws s) (connectingTimeout s) v (retriesCount s)
          (shouldRetry s) (listeners s) (sockets s) (timers s) (next_timer s)
          (trace s).

Definition set_retriesCount (v : nat) (s : State) : State :=
  mkState (ws s) (connectingTimeout s) (reconnectDelay s) v
          (shouldRetry s) (listeners s) (sockets s) (timers s) (next_timer s)
          (trace s).

Definition set_shouldRetry (v : bool) (s : State) : State :=
  mkState (ws s) (connectingTimeout s) (reconnectDelay s) (retriesCount s)
          v (listeners s) (sockets s) (timers s) (next_timer s)
          (trace s).

Definition set_listeners
  (v : list (EventType * list (ListenerRef * ListenerOptions))) (s : State)
  : State :=
  mkState (ws s) (connectingTimeout s) (reconnectDelay s) (retriesCount s)
          (shouldRetry s) v (sockets s) (timers s) (next_timer s)
          (trace s).

Definition set_sockets (v : list Socket) (s : State) : State :=
  mkState (ws s) (connectingTimeout s) (reconnectDelay s) (retriesCount s)
          (shouldRetry s) (listeners s) v (timers s) (next_timer s)
          (trace s).

Definition set_timers (v : list Timer) (s : State) : State :=
  mkState (ws s) (connectingTimeout s) (reconnectDelay s) (retriesCount s)
          (shouldRetry s) (listeners s) (sockets s) v (next_timer s)
          (trace s).

Definition set_next_timer (v : TimerId) (s : State) : State :=
  mkState (ws s) (connectingTimeout s) (reconnectDelay s) (retriesCount s)
          (shouldRetry s) (listeners s) (sockets s) (timers s) v
          (trace s).

Definition observe (o : Obs) (s : State) : State :=
  mkState (ws s) (connectingTimeout s) (reconnectDelay s) (retriesCount s)
          (shouldRetry s) (listeners s) (sockets s) (timers s) (next_timer s)
          (trace s ++ [o]).

Definition log (line : LogLine) (s : State) : State := observe (Logged line) s.

(** ** Thrown exceptions *)

Inductive Thrown : Type :=
| TypeError (message : string).

Definition result (A : Type) : Type := (Thrown + A)%type.

Definition bind {A B : Type} (r : result A) (k : A -> result B) : result B :=
  match r with
  | inl e => inl e
  | inr a => k a
  end.

Notation "x <- r ;; k" := (bind r (fun x => k))
  (at level 61, r at next level, right associativity).

(** Reading a property of [ws]: a [TypeError] while [ws] is [undefined]. *)
Definition deref_ws (s : State) : result SocketId :=
  match ws s with
  | Some socket => inr socket
  | None => inl (TypeError "Cannot read properties of undefined")
  end.

(** ** The platform: timers *)

Definition setTimeout (task : Task) (delay : Q) (s : State) : TimerId * State :=
  let id := next_timer s in
  (id, set_next_timer (S id)
         (set_timers (timers s ++ [mkTimer id delay task]) s)).

Definition clearTimeout (handle : option TimerId) (s : State) : State :=
  match handle with
  | Some id =>
      set_timers (filter (fun t => negb (Nat.eqb (timer_id t) id)) (timers s)) s
  | None => s
  end.

(** ** The platform: sockets *)

Definition new_socket (f : Factory) (url : string) (protocols : list string)
  : Socket :=
  mkSocket f url protocols CONNECTING [] None 0.

Definition Callback_eqb (a b : Callback) : bool :=
  match a, b with
  | OpenHandler, OpenHandler => true
  | CloseHandler, CloseHandler => true
  | UserListener x, UserListener y => Nat.eqb x y
  | _, _ => false
  end.

Definition same_registration (type : EventType) (cb : Callback) (capture : bool)
  (entry : EventType * Callback * bool) : bool :=
  let '(t, c, k) := entry in
  String.eqb t type && Callback_eqb c cb && Bool.eqb k capture.

Definition set_attached (v : list (EventType * Callback * bool)) (k : Socket)
  : Socket :=
  mkSocket (made_by k) (sock_url k) (sock_protocols k) (readyState k) v
           (onerror k) (close_calls k).

Definition set_readyState (v : ReadyState) (k : Socket) : Socket :=
  mkSocket (made_by k) (sock_url k) (sock_protocols k) v (attached k)
           (onerror k) (close_calls k).

Definition set_onerror (v : option ListenerRef) (k : Socket) : Socket :=
  mkSocket (made_by k) (sock_url k) (sock_protocols k) (readyState k)
           (attached k) v (close_calls k).

(** [socket.addEventListener]: appended unless the same registration is
    already in the list. *)
Definition socket_addEventListener (type : EventType) (cb : Callback)
  (options : ListenerOptions) (k : Socket) : Socket :=
  let capture := capture_of options in
  if existsb (same_registration type cb capture) (attached k)
  then k
  else set_attached (attached k ++ [(type, cb, capture)]) k.

Definition socket_removeEventListener (type : EventType) (cb : Callback)
  (options : ListenerOptions) (k : Socket) : Socket :=
  let capture := capture_of options in
  set_attached
    (filter (fun e => negb (same_registration type cb capture e)) (attached k))
    k.

(** [socket.close()]: starts the closing handshake unless it is already
    under way or over; the ['close'] event comes later, from the platform. *)
Definition socket_close (k : Socket) : Socket :=
  mkSocket (made_by k) (sock_url k) (sock_protocols k)
           (match readyState k with
            | CONNECTING | OPEN => CLOSING
            | st => st
            end)
           (attached k) (onerror k) (S (close_calls k)).

Fixpoint update_nth {A : Type} (n : nat) (f : A -> A) (l : list A) : list A :=
  match l, n with
  | [], _ => []
  | x :: tl, O => f x :: tl
  | x :: tl, S m => x :: update_nth m f tl
  end.

(** A method call on the socket object [socket]. *)
Definition on_socket (socket : SocketId) (f : Socket -> Socket) (s : State)
  : State :=
  set_sockets (update_nth socket f (sockets s)) s.

(** ** The listener registry

    [listeners] is an object used as a map from event type to an array of
    [[listener, options]] pairs.  [Object.keys] lists its keys in the order
    they were first assigned, provided they are names: a key that is an
    array index is listed before the names, and ["__proto__"] is no key of
    its own at all (assigning to it replaces the prototype).  The
    association list below is the object for the other keys, those
    [plain_key] accepts; what is stated about the place of a key in the
    registry is stated for them. *)

Definition Registry : Type :=
  list (EventType * list (ListenerRef * ListenerOptions)).

(** [listeners[type]], when it is an array. *)
Fixpoint lookup (type : EventType) (registry : Registry)
  : option (list (ListenerRef * ListenerOptions)) :=
  match registry with
  | [] => None
  | (t, entries) :: rest =>
      if String.eqb t type then Some entries else lookup type rest
  end.

(** [listeners[type] = entries]. *)
Fixpoint store (type : EventType)
  (entries : list (ListenerRef * ListenerOptions)) (registry : Registry)
  : Registry :=
  match registry with
  | [] => [(type, entries)]
  | (t, old) :: rest =>
      if String.eqb t type then (t, entries) :: rest
      else (t, old) :: store type entries rest
  end.

Definition is_listener (listener : ListenerRef)
  (entry : ListenerRef * ListenerOptions) : bool :=
  Nat.eqb (fst entry) listener.

(** Lines 141-147. *)
Definition register (type : EventType) (listener : ListenerRef)
  (options : ListenerOptions) (registry : Registry) : Registry :=
  match lookup type registry with
  | Some entries =>
      if negb (existsb (is_listener listener) entries)
      then store type (entries ++ [(listener, options)]) registry
      else registry
  | None => store type [(listener, options)] registry
  end.

(** Lines 152-154. *)
Definition unregister (type : EventType) (listener : ListenerRef)
  (registry : Registry) : Registry :=
  match lookup type registry with
  | Some entries =>
      store type (filter (fun e => negb (is_listener listener e)) entries)
            registry
  | None => registry
  end.

(** Lines 30-36, as the calls [ws.addEventListener] receives, in order. *)
Definition reassigned (registry : Registry)
  : list (EventType * ListenerRef * ListenerOptions) :=
  flat_map (fun '(type, entries) =>
              map (fun '(listener, options) => (type, listener, options))
                  entries)
           registry.

Definition reassignEventListeners (socket : SocketId) (registry : Registry)
  (s : State) : State :=
  fold_left (fun st '(type, listener, options) =>
               on_socket socket
                 (socket_addEventListener type (UserListener listener) options)
                 st)
            (reassigned registry) s.

(** ** What the environment and the caller can do to an instance *)

Inductive Event : Type :=
| SocketOpens (socket : SocketId) (random : Q)
    (* the socket fires 'open'; [random] is what [Math.random()] returns
       in the handler of line 101 *)
| SocketCloses (socket : SocketId) (random : Q)
    (* the socket fires 'close'; [random] as above, for line 118 *)
| SocketEmits (socket : SocketId) (type : EventType)
    (* any other event of the socket: 'message', 'error' *)
| TimerFires (id : TimerId)
| Close
| AddEventListener (type : EventType) (listener : ListenerRef)
    (options : ListenerOptions)
| RemoveEventListener (type : EventType) (listener : ListenerRef)
    (options : ListenerOptions)
| SetOnerror (handler : option ListenerRef).
    (* an assignment to the forwarded property [onerror] *)

Definition initial_state : State :=
  {| ws := None;
     connectingTimeout := None;
     reconnectDelay := 0;
     retriesCount := 0%nat;
     shouldRetry := true;
     listeners := [];
     sockets := [];
     timers := [];
     next_timer := 1%nat;
     trace := [] |}.

Section Instance.

(** [config] is the shared table; it is read anew at every use, and stays
    the same for as long as no other instance is constructed. *)
Variable config : Config.
Variable url : string.
Variable protocols : list string.

(** Lines 71-80, the call: the dispatch is deferred. *)
Definition emitError (code : ErrCode) (s : State) : State :=
  snd (setTimeout (ErrorTask code) 0 (observe (EmitError code) s)).

(** Lines 101-107. *)
Definition open_handler (random : Q) (s : State) : State :=
  let s := clearTimeout (connectingTimeout s) s in
  let s := log LogOpen s in
  let s := set_reconnectDelay (initReconnectionDelay config random) s in
  let s := log (LogReconnectDelay (reconnectDelay s)) s in
  set_retriesCount 0 s.

(** Lines 109-127. *)
Definition close_handler (random : Q) (s : State) : State :=
  let s := log LogClose s in
  let s := set_retriesCount (S (retriesCount s)) s in
  let s := log (LogRetriesCount (retriesCount s)) s in
  if exceeds (retriesCount s) (maxRetries config) then
    emitError EHOSTDOWN s
  else
    let s :=
      if is_unset (reconnectDelay s)
      then set_reconnectDelay (initReconnectionDelay config random) s
      else set_reconnectDelay
             (updateReconnectionDelay config (reconnectDelay s)) s in
    let s := log (LogReconnectDelay (reconnectDelay s)) s in
    if shouldRetry s
    then snd (setTimeout ConnectTask (reconnectDelay s) s)
    else s.

(** Lines 82-130.  The forwarding accessors of lines 94-99 change no
    variable; an access through one of them acts on [ws] (see
    [SetOnerror]). *)
Definition connect (s : State) : result State :=
  let s := log LogConnect s in
  match constructor config with
  | None => inl (TypeError "config.constructor is not a constructor")
  | Some f =>
      let socket := List.length (sockets s) in
      let s := set_sockets (sockets s ++ [new_socket f url protocols]) s in
      let s := set_ws (Some socket) s in
      let (handle, s) := setTimeout TimeoutTask (connectionTimeout config) s in
      let s := set_connectingTimeout (Some handle) s in
      let s := log LogBypass s in
      let s := on_socket socket
                 (socket_addEventListener "open" OpenHandler NoOptions) s in
      let s := on_socket socket
                 (socket_addEventListener "close" CloseHandler NoOptions) s in
      inr (reassignEventListeners socket (listeners s) s)
  end.

(** Lines 87-91, the callback. *)
Definition timeout_task (s : State) : result State :=
  let s := log LogTimeout s in
  socket <- deref_ws s ;;
  let s := on_socket socket socket_close s in
  inr (emitError ETIMEDOUT s).

(** Lines 71-80, the callback. *)
Definition error_task (code : ErrCode) (s : State) : result State :=
  let s :=
    match lookup "error" (listeners s) with
    | Some entries =>
        fold_left (fun st entry =>
                     observe (ErrorListenerCalled code (fst entry)) st)
                  entries s
    | None => s
    end in
  socket <- deref_ws s ;;
  match nth_error (sockets s) socket with
  | Some k =>
      match onerror k with
      | Some handler => inr (observe (OnerrorCalled code handler) s)
      | None => inr s
      end
  | None => inr s
  end.

Definition run_task (task : Task) (s : State) : result State :=
  match task with
  | ConnectTask => connect s
  | TimeoutTask => timeout_task s
  | ErrorTask code => error_task code s
  end.

(** One listener of a socket is called with an event of type [type]. *)
Definition invoke (socket : SocketId) (type : EventType) (random : Q)
  (cb : Callback) (s : State) : State :=
  match cb with
  | OpenHandler => open_handler random s
  | CloseHandler => close_handler random s
  | UserListener listener => observe (ListenerCalled socket type listener) s
  end.

(** The socket calls the listeners attached for [type], in the order of
    their registration. *)
Definition dispatch (socket : SocketId) (type : EventType) (random : Q)
  (s : State) : State :=
  match nth_error (sockets s) socket with
  | Some k =>
      fold_left (fun st '(t, cb, _) =>
                   if String.eqb t type
                   then invoke socket type random cb st
                   else st)
                (attached k) s
  | None => s
  end.

Definition state_of (socket : SocketId) (s : State) : option ReadyState :=
  option_map readyState (nth_error (sockets s) socket).

(** Lines 135-138. *)
Definition close (s : State) : result State :=
  let s := set_shouldRetry false s in
  socket <- deref_ws s ;;
  inr (on_socket socket socket_close s).

(** Lines 140-149. *)
Definition addEventListener (type : EventType) (listener : ListenerRef)
  (options : ListenerOptions) (s : State) : result State :=
  let s := set_listeners (register type listener options (listeners s)) s in
  socket <- deref_ws s ;;
  inr (on_socket socket
         (socket_addEventListener type (UserListener listener) options) s).

(** Lines 151-156. *)
Definition removeEventListener (type : EventType) (listener : ListenerRef)
  (options : ListenerOptions) (s : State) : result State :=
  let s := set_listeners (unregister type listener (listeners s)) s in
  socket <- deref_ws s ;;
  inr (on_socket socket
         (socket_removeEventListener type (UserListener listener) options) s).

Definition take_timer (id : TimerId) (s : State) : option (Timer * State) :=
  match find (fun t => Nat.eqb (timer_id t) id) (timers s) with
  | Some t => Some (t, clearTimeout (Some id) s)
  | None => None
  end.

Definition is_lifecycle (type : EventType) : bool :=
  String.eqb type "open" || String.eqb type "close".

(** One step of the instance.  An event that cannot happen (a socket that
    does not exist or is past the state the event needs, a timer that is
    not pending) leaves the state as it is. *)
Definition step (s : State) (e : Event) : result State :=
  match e with
  | SocketOpens socket random =>
      match state_of socket s with
      | Some CONNECTING =>
          inr (dispatch socket "open" random
                 (on_socket socket (set_readyState OPEN) s))
      | _ => inr s
      end
  | SocketCloses socket random =>
      match state_of socket s with
      | Some CLOSED | None => inr s
      | Some _ =>
          inr (dispatch socket "close" random
                 (on_socket socket (set_readyState CLOSED) s))
      end
  | SocketEmits socket type =>
      match state_of socket s with
      | Some CLOSED | None => inr s
      | Some _ =>
          if is_lifecycle type then inr s
          else inr (dispatch socket type 0 s)
      end
  | TimerFires id =>
      match take_timer id s with
      | Some (t, s) => run_task (timer_task t) s
      | None => inr s
      end
  | Close => close s
  | AddEventListener type listener options =>
      addEventListener type listener options s
  | RemoveEventListener type listener options =>
      removeEventListener type listener options s
  | SetOnerror handler =>
      socket <- deref_ws s ;;
      inr (on_socket socket (set_onerror handler) s)
  end.

Fixpoint run (s : State) (events : list Event) : result State :=
  match events with
  | [] => inr s
  | e :: rest => s' <- step s e ;; run s' rest
  end.

(** Lines 132-133: what the constructor does once [config] is set. *)
Definition start : result State := connect (log LogInit initial_state).

End Instance.

(** Lines 38-63 and 132-133, for an [options] argument that is an
    object with the method [hasOwnProperty] (the other arguments a caller
    can pass are dealt with by [ReconnectingWebsocket_call]).
    [called_with_new] is [this instanceof ReconnectingWebsocket]; [table] is
    the shared default table as the call finds it.  The first component is
    the table as the call leaves it. *)
Definition ReconnectingWebsocket (called_with_new : bool) (table : Config)
  (url : string) (protocols : list string) (options : Options)
  : Config * result State :=
  if negb called_with_new then
    (table,
     inl (TypeError "Failed to construct 'ReconnectingWebSocket': Please use the 'new' operator"))
  else
    let config := set_config table options in
    match constructor config with
    | None =>
        (config,
         inl (TypeError "WebSocket constructor not set. Set `options.constructor`"))
    | Some _ => (config, start config url protocols)
    end.

(** The [options] argument as a caller can pass it. *)
Inductive OptionsArgument : Type :=
| Undefined                 (* left out: the default [{}] of line 41 *)
| Null                      (* [null] *)
| Bare (own : Options)      (* an object without a [hasOwnProperty] method,
                               such as [Object.create(null)] *)
| Ordinary (own : Options). (* an object that inherits
                               [Object.prototype.hasOwnProperty] *)

(** Lines 38-63 and 132-133 for every such argument.  Line 58 calls
    [options.hasOwnProperty] for the first key of the table, before line 59
    has written anything: with [null], and with an object without the
    method, that call throws. *)
Definition ReconnectingWebsocket_call (called_with_new : bool)
  (table : Config) (url : string) (protocols : list string)
  (options : OptionsArgument) : Config * result State :=
  if negb called_with_new then
    (table,
     inl (TypeError "Failed to construct 'ReconnectingWebSocket': Please use the 'new' operator"))
  else
    match options with
    | Undefined =>
        ReconnectingWebsocket true table url protocols empty_options
    | Ordinary own => ReconnectingWebsocket true table url protocols own
    | Null =>
        (table,
         inl (TypeError "Cannot read properties of null (reading 'hasOwnProperty')"))
    | Bare _ =>
        (table, inl (TypeError "options.hasOwnProperty is not a function"))
    end.



(** What happens next to an instance or to the table it shares with the
    others: an event of its own, or another call of the constructor. *)
Inductive Action : Type :=
| Happens (e : Event)
| Constructs (called_with_new : bool) (url : string)
    (protocols : list string) (options : OptionsArgument).

(** A run of one instance while other calls of the constructor go on
    writing the table it reads; the first component is the table at the
    end. *)
Fixpoint run_shared (table : Config) (url : string) (protocols : list string)
  (s : State) (actions : list Action) : Config * result State :=
  match actions with
  | [] => (table, inr s)
  | Happens e :: rest =>
      match step table url protocols s e with
      | inr s' => run_shared table url protocols s' rest
      | inl thrown => (table, inl thrown)
      end
  | Constructs called_with_new url' protocols' options :: rest =>
      run_shared
        (fst (ReconnectingWebsocket_call called_with_new table url'
                protocols' options))
        url protocols s rest
  end.


(** ** Observing a run *)

Definition ErrCode_eqb (a b : ErrCode) : bool :=
  match a, b with
  | ETIMEDOUT, ETIMEDOUT => true
  | EHOSTDOWN, EHOSTDOWN => true
  | _, _ => false
  end.

Definition is_emit (code : ErrCode) (o : Obs) : bool :=
  match o with
  | EmitError c => ErrCode_eqb c code
  | _ => false
  end.

(** How many times [emitError] was called with [code]. *)
Definition emitted (code : ErrCode) (tr : list Obs) : nat :=
  List.length (filter (is_emit code) tr).

Definition is_connect (o : Obs) : bool :=
  match o with
  | Logged LogConnect => true
  | _ => false
  end.

(** How many times [connect] was entered. *)
Definition attempts (tr : list Obs) : nat :=
  List.length (filter is_connect tr).

Definition is_connect_task (t : Timer) : bool :=
  match timer_task t with
  | ConnectTask => true
  | _ => false
  end.

(** How many calls of [connect] are waiting on a timer. *)
Definition scheduled_connects (s : State) : nat :=
  List.length (filter is_connect_task (timers s)).

(** The delays the handlers computed, as lines 105 and 122 log them. *)
Definition delays_logged (tr : list Obs) : list Q :=
  flat_map (fun o => match o with
                     | Logged (LogReconnectDelay d) => [d]
                     | _ => []
                     end) tr.

Definition is_call (socket : SocketId) (type : EventType)
  (listener : ListenerRef) (o : Obs) : bool :=
  match o with
  | ListenerCalled k t l =>
      Nat.eqb k socket && String.eqb t type && Nat.eqb l listener
  | _ => false
  end.

(** How many times a socket called a listener of the caller. *)
Definition deliveries (socket : SocketId) (type : EventType)
  (listener : ListenerRef) (tr : list Obs) : nat :=
  List.length (filter (is_call socket type listener) tr).

(** What was observed between two states of one run. *)
Definition since (s s' : State) : list Obs :=
  skipn (List.length (trace s)) (trace s').

Definition is_closed (k : Socket) : bool :=
  match readyState k with
  | CLOSED => true
  | _ => false
  end.

Definition is_user (entry : EventType * Callback * bool) : bool :=
  match snd (fst entry) with
  | UserListener _ => true
  | _ => false
  end.

(** The two listeners [connect] attaches first. *)
Definition own_handlers : list (EventType * Callback * bool) :=
  [("open", OpenHandler, false); ("close", CloseHandler, false)].

(** A socket as [connect] wires it: its own two handlers, then listeners of
    the caller only. *)
Definition wired (k : Socket) : Prop :=
  exists users,
    attached k = own_handlers ++ users /\ forallb is_user users = true.

(** How many entries the registry holds for a (type, listener) pair. *)
Definition registrations (type : EventType) (listener : ListenerRef)
  (registry : Registry) : nat :=
  match lookup type registry with
  | Some entries => List.length (filter (is_listener listener) entries)
  | None => 0%nat
  end.

Definition registry_ok (registry : Registry) : Prop :=
  NoDup (map fst registry) /\
  Forall (fun e => NoDup (map fst (snd e))) registry.

(** The registration a socket keeps for a call of [addEventListener]. *)
Definition as_attached (call : EventType * ListenerRef * ListenerOptions)
  : EventType * Callback * bool :=
  let '(type, listener, options) := call in
  (type, UserListener listener, capture_of options).

(** No socket is left that could fire, and no [connect] is waiting. *)
Definition stalled (s : State) : Prop :=
  forallb is_closed (sockets s) = true /\ scheduled_connects s = 0%nat.

(** [Math.random()] returns a number in [0, 1). *)
Definition draw_ok (e : Event) : Prop :=
  match e with
  | SocketOpens _ random | SocketCloses _ random => 0 <= random /\ random < 1
  | _ => True
  end.


Definition is_socket_lifecycle (e : Event) : bool :=
  match e with
  | SocketOpens _ _ | SocketCloses _ _ => true
  | _ => false
  end.

(** Each delay after the first is the one before it, grown and capped. *)
Fixpoint grows (config : Config) (delays : list Q) : Prop :=
  match delays with
  | previous :: (next :: _) as rest =>
      next == Qmin (previous * reconnectionDelayGrowFactor config)
                   (maxReconnectionDelay config)
      /\ grows config rest
  | _ => True
  end.

Fixpoint nondecreasing (delays : list Q) : Prop :=
  match delays with
  | previous :: (next :: _) as rest => previous <= next /\ nondecreasing rest
  | _ => True
  end.

(** Several observations at once. *)
Definition observe_all (l : list Obs) (s : State) : State :=
  mkState (ws s) (connectingTimeout s) (reconnectDelay s) (retriesCount s)
          (shouldRetry s) (listeners s) (sockets s) (timers s) (next_timer s)
          (trace s ++ l).

(** The calls a socket makes to the caller's listeners of [type]. *)
Definition user_calls (socket : SocketId) (type : EventType)
  (users : list (EventType * Callback * bool)) : list Obs :=
  flat_map (fun e =>
              if String.eqb (fst (fst e)) type
              then match snd (fst e) with
                   | UserListener listener =>
                       [ListenerCalled socket type listener]
                   | _ => []
                   end
              else [])
           users.

(** The calls of [addEventListener] on one socket, in order. *)
Definition attach_all
  (calls : list (EventType * ListenerRef * ListenerOptions)) (k : Socket)
  : Socket :=
  fold_left (fun k '(type, listener, options) =>
               socket_addEventListener type (UserListener listener) options k)
            calls k.

Definition is_registration (type : EventType) (listener : ListenerRef)
  (call : EventType * ListenerRef * ListenerOptions) : bool :=
  String.eqb (fst (fst call)) type && Nat.eqb (snd (fst call)) listener.


(** The socket [connect] hands over: the two handlers of the wrapper, then
    the registry. *)
Definition connected_socket (f : Factory) (url : string)
  (protocols : list string) (registry : Registry) : Socket :=
  attach_all (reassigned registry)
    (socket_addEventListener "close" CloseHandler NoOptions
       (socket_addEventListener "open" OpenHandler NoOptions
          (new_socket f url protocols))).

(** The calls the deferred dispatch of lines 72-79 makes: the listeners
    registered for 'error', then [ws.onerror] when it is set. *)
Definition error_calls (code : ErrCode) (s : State) : list Obs :=
  match lookup "error" (listeners s) with
  | Some entries => map (fun e => ErrorListenerCalled code (fst e)) entries
  | None => []
  end ++
  match ws s with
  | Some socket =>
      match nth_error (sockets s) socket with
      | Some k =>
          match onerror k with
          | Some handler => [OnerrorCalled code handler]
          | None => []
          end
      | None => []
      end
  | None => []
  end.

(** The delay lines 117-121 compute. *)
Definition next_delay (config : Config) (random : Q) (s : State) : Q :=
  if is_unset (reconnectDelay s)
  then initReconnectionDelay config random
  else updateReconnectionDelay config (reconnectDelay s).



(** The events that leave the timer [id] alone: anything but its own
    firing and the 'open' of a socket. *)
Definition spares (id : TimerId) (e : Event) : bool :=
  match e with
  | SocketOpens _ _ => false
  | TimerFires i => negb (Nat.eqb i id)
  | _ => true
  end.

(** The two events that take the pending timer [id] away: its own
    firing, and an 'open' handled while [connectingTimeout] holds its
    handle (lines 87 and 102). *)
Definition cancels (id : TimerId) (s : State) (e : Event) : bool :=
  match e with
  | TimerFires i => Nat.eqb i id
  | SocketOpens socket _ =>
      match state_of socket s, connectingTimeout s with
      | Some CONNECTING, Some handle => Nat.eqb handle id
      | _, _ => false
      end
  | _ => false
  end.

(** No event of the run takes the timer [id] away. *)
Fixpoint outlives (config : Config) (url : string) (protocols : list string)
  (id : TimerId) (s : State) (events : list Event) : bool :=
  match events with
  | [] => true
  | e :: rest =>
      negb (cancels id s e) &&
      match step config url protocols s e with
      | inr s' => outlives config url protocols id s' rest
      | inl _ => false
      end
  end.

Section Invariant.

Variable config : Config.
Variable url : string.
Variable protocols : list string.

(** The states of an instance whose construction succeeded. *)
Definition reachable (s : State) : Prop :=
  exists s0 events,
    start config url protocols = inr s0 /\
    Forall draw_ok events /\
    run config url protocols s0 events = inr s.

(** What holds of every such state: [ws] is the socket made last and
    every older one is closed; a [connect] waits on a timer only while
    no socket is left to fire; timers have distinct handles;
    [EHOSTDOWN] was emitted at most once, and then the instance is
    stalled. *)
Record Inv (s : State) : Prop := mkInv {
  inv_factory : exists f, constructor config = Some f;
  inv_sockets :
    exists older k,
      sockets s = older ++ [k] /\
      ws s = Some (List.length older) /\
      forallb is_closed older = true /\
      wired k /\
      NoDup (attached k);
  inv_connects :
    scheduled_connects s = 0%nat \/
    (scheduled_connects s = 1%nat /\
     forallb is_closed (sockets s) = true);
  inv_timers :
    NoDup (map timer_id (timers s)) /\
    Forall (fun t => (timer_id t < next_timer s)%nat) (timers s);
  inv_timeouts :
    Forall (fun t => timer_task t = TimeoutTask ->
                     timer_delay t = connectionTimeout config) (timers s);
  inv_once :
    emitted EHOSTDOWN (trace s) = 0%nat \/
    (emitted EHOSTDOWN (trace s) = 1%nat /\ stalled s);
  inv_registry : registry_ok (listeners s)
}.

(** The steps of an instance whose [ws] is the socket made last, each
    with the state it leads to written out. *)
Inductive transition (s : State) : Event -> State -> Prop :=
| t_ignored e :
    transition s e s
| t_opens older k users random :
    sockets s = older ++ [k] ->
    readyState k = CONNECTING ->
    attached k = own_handlers ++ users ->
    transition s (SocketOpens (List.length older) random)
      (observe_all (user_calls (List.length older) "open" users)
         (open_handler config random
            (set_sockets (older ++ [set_readyState OPEN k]) s)))
| t_closes older k users random :
    sockets s = older ++ [k] ->
    readyState k <> CLOSED ->
    attached k = own_handlers ++ users ->
    transition s (SocketCloses (List.length older) random)
      (observe_all (user_calls (List.length older) "close" users)
         (close_handler config random
            (set_sockets (older ++ [set_readyState CLOSED k]) s)))
| t_emits socket type users :
    transition s (SocketEmits socket type)
      (observe_all (user_calls socket type users) s)
| t_connect id t s' :
    In t (timers s) -> timer_id t = id -> timer_task t = ConnectTask ->
    stalled (clearTimeout (Some id) s) ->
    connect config url protocols (clearTimeout (Some id) s) = inr s' ->
    transition s (TimerFires id) s'
| t_timeout id t older k :
    In t (timers s) -> timer_id t = id -> timer_task t = TimeoutTask ->
    sockets s = older ++ [k] ->
    ws s = Some (List.length older) ->
    transition s (TimerFires id)
      (emitError ETIMEDOUT
         (set_sockets (older ++ [socket_close k])
            (log LogTimeout (clearTimeout (Some id) s))))
| t_error id t code :
    In t (timers s) -> timer_id t = id -> timer_task t = ErrorTask code ->
    transition s (TimerFires id)
      (observe_all (error_calls code (clearTimeout (Some id) s))
         (clearTimeout (Some id) s))
| t_close older k :
    sockets s = older ++ [k] ->
    transition s Close
      (set_sockets (older ++ [socket_close k]) (set_shouldRetry false s))
| t_add older k type listener options :
    sockets s = older ++ [k] ->
    transition s (AddEventListener type listener options)
      (set_sockets
         (older ++ [socket_addEventListener type (UserListener listener)
                      options k])
         (set_listeners (register type listener options (listeners s)) s))
| t_remove older k type listener options :
    sockets s = older ++ [k] ->
    transition s (RemoveEventListener type listener options)
      (set_sockets
         (older ++ [socket_removeEventListener type (UserListener listener)
                      options k])
         (set_listeners (unregister type listener (listeners s)) s))
| t_onerror older k handler :
    sockets s = older ++ [k] ->
    transition s (SetOnerror handler)
      (set_sockets (older ++ [set_onerror handler k]) s).

End Invariant.

(** ** Sample instances *)

(** The platform's [WebSocket]. *)
Definition WebSocket : Factory := 0%nat.

(** The table as the module leaves it in a browser. *)
Definition browser_table : Config := DEFAULT_OPTIONS (Some WebSocket).

Definition sample_url : string := "ws://host".

Definition only_min (m : Q) : Options :=
  mkOptions None None (Some m) None None None None.

Definition only_maxRetries (n : Q) : Options :=
  mkOptions None None None None None (Some (Finite n)) None.



(** No growth at all: [{minReconnectionDelay: 100,
    maxReconnectionDelay: 1000, reconnectionDelayGrowFactor: 0}]. *)
Definition flat_options : Options :=
  mkOptions None (Some 1000) (Some 100) (Some 0) None None None.

(** A factor below one: [{minReconnectionDelay: 100,
    maxReconnectionDelay: 1000, reconnectionDelayGrowFactor: 0.5}]. *)
Definition shrinking_options : Options :=
  mkOptions None (Some 1000) (Some 100) (Some (1 # 2)) None None None.

(** The state [new ReconnectingWebsocket(sample_url, [], options)] leaves
    behind, or the initial state when the constructor throws. *)
Definition constructed (table : Config) (options : Options) : State :=
  match snd (ReconnectingWebsocket true table sample_url [] options) with
  | inr s => s
  | inl _ => initial_state
  end.

(** The state a run leaves behind, or the state it started from when it
    throws. *)
Definition after (config : Config) (s : State) (events : list Event) : State :=
  match run config sample_url [] s events with
  | inr s' => s'
  | inl _ => s
  end.

(** Five failures in a row, each followed by the retry it scheduled. *)
Definition five_failures : list Event :=
  [SocketCloses 0%nat (1 # 2); TimerFires 2%nat;
   SocketCloses 1%nat 0; TimerFires 4%nat;
   SocketCloses 2%nat 0; TimerFires 6%nat;
   SocketCloses 3%nat 0; TimerFires 8%nat;
   SocketCloses 4%nat 0].

(** Two failures in a row. *)
Definition two_failures : list Event :=
  [SocketCloses 0%nat (3 # 4); TimerFires 2%nat; SocketCloses 1%nat 0].

(** ** More observations *)

(** The 'close' events handled since the last 'open', as the calls of
    [log] of lines 103 and 110 tell. *)
Definition count_close (n : nat) (o : Obs) : nat :=
  match o with
  | Logged LogOpen => 0%nat
  | Logged LogClose => S n
  | _ => n
  end.

Definition closes_since_open (tr : list Obs) : nat :=
  fold_left count_close tr 0%nat.

Definition is_error_delivery (o : Obs) : bool :=
  match o with
  | ErrorListenerCalled _ _ | OnerrorCalled _ _ => true
  | _ => false
  end.

Definition is_error_call (code : ErrCode) (listener : ListenerRef) (o : Obs)
  : bool :=
  match o with
  | ErrorListenerCalled c l => ErrCode_eqb c code && Nat.eqb l listener
  | _ => false
  end.

(** How many times the deferred dispatch called a listener with an error
    of [code]. *)
Definition error_deliveries (code : ErrCode) (listener : ListenerRef)
  (tr : list Obs) : nat :=
  List.length (filter (is_error_call code listener) tr).

Definition is_onerror_call (o : Obs) : bool :=
  match o with
  | OnerrorCalled _ _ => true
  | _ => false
  end.

Definition is_addition (type : EventType) (listener : ListenerRef) (e : Event)
  : bool :=
  match e with
  | AddEventListener t l _ => String.eqb t type && Nat.eqb l listener
  | _ => false
  end.

Definition is_timer_event (e : Event) : bool :=
  match e with
  | TimerFires _ => true
  | _ => false
  end.

(** A socket as line 85 makes it. *)
Definition made_as (f : Factory) (url : string) (protocols : list string)
  (k : Socket) : Prop :=
  made_by k = f /\ sock_url k = url /\ sock_protocols k = protocols.

(** A task [emitError] set waits for no time at all (line 80). *)
Definition immediate_error (t : Timer) : Prop :=
  match timer_task t with
  | ErrorTask _ => timer_delay t == 0
  | _ => True
  end.

(** ** Several constructions *)

(** The table after the calls of the constructor a program makes one after
    the other; a call is the pair of [called_with_new] and [options]. *)
Definition constructions (table : Config) (url : string)
  (protocols : list string) (calls : list (bool * Options)) : Config :=
  fold_left (fun (t : Config) (call : bool * Options) =>
               fst (ReconnectingWebsocket (fst call) t url protocols
                      (snd call)))
            calls table.

(** The value the last call made with [new] whose options own [key] gave
    it, if any did. *)
Definition latest {A : Type} (key : Options -> option A)
  (calls : list (bool * Options)) : option A :=
  fold_left (fun (found : option A) (call : bool * Options) =>
               if fst call
               then match key (snd call) with
                    | Some v => Some v
                    | None => found
                    end
               else found)
            calls None.

(** ** The forwarded properties

    Lines 94-99 give [this] an accessor pair for every enumerable key of
    the new socket but three; the getter and the setter of the pair act on
    the socket the loop ran for (lines 11-18).  [Forwarders] is the part of
    [this] those lines write: for each name defined, the socket its
    accessors act on.  The keys [for ... in] lists are those of the object
    the factory returns, in its order. *)

Definition Forwarders : Type := list (string * SocketId).

Fixpoint forwarder (name : string) (dst : Forwarders) : option SocketId :=
  match dst with
  | [] => None
  | (n, src) :: rest =>
      if String.eqb n name then Some src else forwarder name rest
  end.

(** Lines 11-18.  The property is configurable, so a later call for the
    same name replaces the pair. *)
Fixpoint bypassProperty (src : SocketId) (dst : Forwarders) (name : string)
  : Forwarders :=
  match dst with
  | [] => [(name, src)]
  | (n, old) :: rest =>
      if String.eqb n name then (n, src) :: rest
      else (n, old) :: bypassProperty src rest name
  end.

(** Line 96: [[...].indexOf(key) < 0]. *)
Definition not_listed (key : string) : bool :=
  negb (existsb (String.eqb key)
          ["addEventListener"; "removeEventListener"; "close"]).

(** Lines 94-99. *)
Definition bypass_properties (keys : list string) (src : SocketId)
  (dst : Forwarders) : Forwarders :=
  fold_left (fun (d : Forwarders) (key : string) =>
               if not_listed key then bypassProperty src d key else d)
            keys dst.

(** The loop run for each socket made, in the order [connect] made them;
    [socket] is the reference of the first of [made]. *)
Fixpoint forwarded_from (keys_of : Factory -> list string) (socket : SocketId)
  (made : list Socket) (dst : Forwarders) : Forwarders :=
  match made with
  | [] => dst
  | k :: rest =>
      forwarded_from keys_of (S socket) rest
        (bypass_properties (keys_of (made_by k)) socket dst)
  end.

Definition forwarded (keys_of : Factory -> list string) (s : State)
  : Forwarders :=
  forwarded_from keys_of 0%nat (sockets s) [].

(** The keys of a browser's socket that matter here. *)
Definition browser_keys (f : Factory) : list string :=
  ["url"; "readyState"; "onopen"; "onerror"; "onclose"; "onmessage";
   "close"; "send"; "addEventListener"; "removeEventListener";
   "dispatchEvent"].

(** ** The deferred dispatch, observed *)

(** An error of [code] is handed to a listener or to [ws.onerror]. *)
Definition is_error_with (code : ErrCode) (o : Obs) : bool :=
  match o with
  | ErrorListenerCalled c _ | OnerrorCalled c _ => ErrCode_eqb c code
  | _ => false
  end.

(** The calls that handed an error of [code] over, in order. *)
Definition dispatched (code : ErrCode) (tr : list Obs) : list Obs :=
  filter (is_error_with code) tr.

Definition is_error_task (code : ErrCode) (t : Timer) : bool :=
  match timer_task t with
  | ErrorTask c => ErrCode_eqb c code
  | _ => false
  end.

(** The dispatches of [code] that [emitError] has deferred and that have
    not run yet. *)
Definition pending_errors (code : ErrCode) (s : State) : list Timer :=
  filter (is_error_task code) (timers s).

(** ** Keys of the registry *)

Definition is_digit (c : ascii) : bool :=
  (48 <=? nat_of_ascii c)%nat && (nat_of_ascii c <=? 57)%nat.

Fixpoint all_digits (name : string) : bool :=
  match name with
  | EmptyString => true
  | String c rest => is_digit c && all_digits rest
  end.

(** A name made of digits: the array indices are among these. *)
Definition index_like (name : string) : bool :=
  match name with
  | EmptyString => false
  | _ => all_digits name
  end.

(** The keys for which [listeners[type] = ...] makes an own property that
    [Object.keys] lists in the order of assignment. *)
Definition plain_key (type : EventType) : bool :=
  negb (String.eqb type "__proto__") && negb (index_like type).





(** * Properties *)

(** The setters nest; evaluating them by value keeps the terms small. *)
Ltac setters :=
  cbv beta iota zeta delta
    [set_ws set_connectingTimeout set_reconnectDelay set_retriesCount
     set_shouldRetry set_listeners set_sockets set_timers set_next_timer
     log observe observe_all setTimeout emitError clearTimeout snd fst
     ws connectingTimeout reconnectDelay retriesCount shouldRetry listeners
     sockets timers next_timer trace].

(** ** Numbers *)

Lemma Qgtb_true (a b : Q) : Qgtb a b = true <-> b < a.
Proof.
  unfold Qgtb. rewrite negb_true_iff.
  split; intro H.
  - apply Qnot_le_lt. intro L. apply Qle_bool_iff in L. congruence.
  - destruct (Qle_bool a b) eqn:E; trivial.
    apply Qle_bool_iff in E. lra.
Qed.

Lemma Qgtb_false (a b : Q) : Qgtb a b = false <-> a <= b.
Proof.
  unfold Qgtb. rewrite negb_false_iff. apply Qle_bool_iff.
Qed.

Lemma is_unset_true (d : Q) : is_unset d = true <-> d == 0.
Proof. apply Qeq_bool_iff. Qed.

Lemma is_unset_false (d : Q) : is_unset d = false <-> ~ d == 0.
Proof.
  unfold is_unset. split; intro H.
  - intro E. apply Qeq_bool_iff in E. congruence.
  - destruct (Qeq_bool d 0) eqn:E; trivial.
    apply Qeq_bool_iff in E. contradiction.
Qed.

Lemma init_within config r :
  0 <= minReconnectionDelay config -> 0 <= r -> r < 1 ->
  minReconnectionDelay config <= initReconnectionDelay config r /\
  initReconnectionDelay config r <= 2 * minReconnectionDelay config.
Proof.
  unfold initReconnectionDelay. intros Hm H0 H1. split; nra.
Qed.

(** Under a rounding that keeps the order and is exact on [0], [m] and
    [2m], the rounded delay stays between [m] and [2m]. *)
Lemma init_rounded_within (round : Q -> Q) config r :
  (forall x y, x <= y -> round x <= round y) ->
  round 0 == 0 ->
  round (minReconnectionDelay config) == minReconnectionDelay config ->
  round (2 * minReconnectionDelay config) == 2 * minReconnectionDelay config ->
  0 <= minReconnectionDelay config -> 0 <= r -> r < 1 ->
  minReconnectionDelay config <= initReconnectionDelay_rounded round config r /\
  initReconnectionDelay_rounded round config r
  <= 2 * minReconnectionDelay config.
Proof.
  intros Hmono Hz Hm H2m Hpos H0 H1. unfold initReconnectionDelay_rounded.
  set (m := minReconnectionDelay config) in *.
  assert (Hlo : 0 <= round (r * m)).
  { rewrite <- Hz. apply Hmono. nra. }
  assert (Hhi : round (r * m) <= m).
  { rewrite <- Hm at 2. apply Hmono. nra. }
  split.
  - rewrite <- Hm at 1. apply Hmono. lra.
  - rewrite <- H2m. apply Hmono. lra.
Qed.

Lemma to_nearest_integer_monotone x y :
  x <= y -> to_nearest_integer x <= to_nearest_integer y.
Proof.
  intro H. unfold to_nearest_integer.
  rewrite <- Zle_Qle. apply Qfloor_resp_le. lra.
Qed.

Lemma update_is_min config d :
  updateReconnectionDelay config d ==
  Qmin (d * reconnectionDelayGrowFactor config) (maxReconnectionDelay config).
Proof.
  unfold updateReconnectionDelay. cbv zeta.
  destruct (Qgtb _ _) eqn:E.
  - apply Qgtb_true in E. rewrite Q.min_r; lra.
  - apply Qgtb_false in E. rewrite Q.min_l; lra.
Qed.

(** ** Lists *)

Lemma update_nth_last {A : Type} (f : A -> A) (l : list A) (x : A) :
  update_nth (List.length l) f (l ++ [x]) = l ++ [f x].
Proof. induction l as [|y l IH]; simpl; [reflexivity | now rewrite IH]. Qed.

Lemma nth_error_last {A : Type} (l : list A) (x : A) :
  nth_error (l ++ [x]) (List.length l) = Some x.
Proof. induction l; simpl; auto. Qed.

Lemma nth_error_older {A : Type} (l : list A) (x : A) (n : nat) :
  (n < List.length l)%nat -> nth_error (l ++ [x]) n = nth_error l n.
Proof. intro H. now apply nth_error_app1. Qed.

Lemma nth_error_beyond {A : Type} (l : list A) (x : A) (n : nat) :
  (List.length l < n)%nat -> nth_error (l ++ [x]) n = None.
Proof.
  intro H. apply nth_error_None. rewrite length_app. simpl. lia.
Qed.

Lemma forallb_nth_error {A : Type} (p : A -> bool) (l : list A) n x :
  forallb p l = true -> nth_error l n = Some x -> p x = true.
Proof.
  intros H E. rewrite forallb_forall in H. apply H.
  eapply nth_error_In; eauto.
Qed.

Lemma skipn_app_length {A : Type} (l l' : list A) :
  skipn (List.length l) (l ++ l') = l'.
Proof. induction l; simpl; auto. Qed.

Lemma filter_length_le {A : Type} (p q : A -> bool) (l : list A) :
  (List.length (filter p (filter q l)) <= List.length (filter p l))%nat.
Proof.
  induction l as [|x l IH]; simpl; auto.
  destruct (q x), (p x) eqn:E; simpl; rewrite ?E; simpl; lia.
Qed.

Lemma NoDup_map_filter (A B : Type) (key : A -> B) (keep : A -> bool) :
  forall l : list A, NoDup (map key l) -> NoDup (map key (filter keep l)).
Proof.
  intros l Hl. induction l as [|x rest IH]; simpl; [constructor|].
  simpl in Hl. apply NoDup_cons_iff in Hl as [Hx Hrest].
  destruct (keep x); simpl; auto.
  constructor; auto.
  intro Hin. apply Hx. apply in_map_iff in Hin as (y & E & Hy).
  apply filter_In in Hy as [Hy _]. apply in_map_iff. eauto.
Qed.

(** ** Observations *)

Lemma emitted_app code l l' :
  emitted code (l ++ l') = (emitted code l + emitted code l')%nat.
Proof. unfold emitted. now rewrite filter_app, length_app. Qed.

Lemma attempts_app l l' :
  attempts (l ++ l') = (attempts l + attempts l')%nat.
Proof. unfold attempts. now rewrite filter_app, length_app. Qed.

Lemma deliveries_app k t f l l' :
  deliveries k t f (l ++ l') = (deliveries k t f l + deliveries k t f l')%nat.
Proof. unfold deliveries. now rewrite filter_app, length_app. Qed.

Lemma delays_logged_app l l' :
  delays_logged (l ++ l') = delays_logged l ++ delays_logged l'.
Proof. unfold delays_logged. apply flat_map_app. Qed.

Lemma since_app s s' l : trace s' = trace s ++ l -> since s s' = l.
Proof. unfold since. intros ->. apply skipn_app_length. Qed.

(** ** The invariant is kept by every primitive *)

Section Preservation.

Variable config : Config.
Variable url : string.
Variable protocols : list string.

Local Abbreviation Inv := (Inv config).

Lemma Inv_set_reconnectDelay v s : Inv s -> Inv (set_reconnectDelay v s).
Proof. intros [? ? ? ? ? ? ?]; constructor; assumption. Qed.

Lemma Inv_set_retriesCount v s : Inv s -> Inv (set_retriesCount v s).
Proof. intros [? ? ? ? ? ? ?]; constructor; assumption. Qed.

Lemma Inv_set_shouldRetry v s : Inv s -> Inv (set_shouldRetry v s).
Proof. intros [? ? ? ? ? ? ?]; constructor; assumption. Qed.

Lemma Inv_observe o s :
  is_emit EHOSTDOWN o = false -> Inv s -> Inv (observe o s).
Proof.
  intros Ho [? ? ? ? ? Honce ?]; constructor; try assumption.
  unfold observe, stalled, scheduled_connects in *; simpl.
  rewrite emitted_app. unfold emitted at 2 4. simpl. rewrite Ho. simpl.
  rewrite !Nat.add_0_r. exact Honce.
Qed.

Lemma Inv_log line s : Inv s -> Inv (log line s).
Proof. apply Inv_observe. reflexivity. Qed.

Lemma Inv_set_listeners v s :
  registry_ok v -> Inv s -> Inv (set_listeners v s).
Proof. intros Hv [? ? ? ? ? ? ?]; constructor; assumption. Qed.

Lemma scheduled_connects_clearTimeout h s :
  (scheduled_connects (clearTimeout h s) <= scheduled_connects s)%nat.
Proof.
  destruct h as [id|]; simpl; auto.
  unfold scheduled_connects; simpl. apply filter_length_le.
Qed.

Lemma Inv_clearTimeout h s : Inv s -> Inv (clearTimeout h s).
Proof.
  intro H. destruct h as [id|]; [|exact H].
  pose proof (scheduled_connects_clearTimeout (Some id) s) as Hle.
  destruct H as [Hf Hs Hc [Hnd Hlt] Hto Honce Hr].
  constructor; try assumption.
  - destruct Hc as [Hc|[Hc Hall]].
    + left. lia.
    + assert (scheduled_connects (clearTimeout (Some id) s) = 0
              \/ scheduled_connects (clearTimeout (Some id) s) = 1)%nat
        as [E|E] by lia; [left | right]; auto.
  - simpl. split.
    + now apply NoDup_map_filter.
    + apply Forall_forall. intros t Ht. apply filter_In in Ht as [Ht _].
      rewrite Forall_forall in Hlt. now apply Hlt.
  - simpl. apply Forall_forall. intros t Ht. apply filter_In in Ht as [Ht _].
    rewrite Forall_forall in Hto. now apply Hto.
  - destruct Honce as [E|[E [Hall Hz]]]; [left | right]; auto.
    split; auto. split; auto. lia.
Qed.

(** A timer for anything but [connect]. *)
Lemma Inv_setTimeout task delay s :
  task <> ConnectTask ->
  (task = TimeoutTask -> delay = connectionTimeout config) ->
  Inv s -> Inv (snd (setTimeout task delay s)).
Proof.
  intros Htask Hdelay [Hf Hs Hc [Hnd Hlt] Hto Honce Hr].
  assert (Hsame : scheduled_connects (snd (setTimeout task delay s))
                  = scheduled_connects s).
  { unfold scheduled_connects; simpl. rewrite filter_app, length_app.
    unfold is_connect_task at 2; simpl.
    destruct task; simpl; try lia. congruence. }
  constructor; try assumption.
  - rewrite Hsame. exact Hc.
  - simpl. split.
    + rewrite map_app. simpl. apply NoDup_app; auto.
      * repeat constructor. intros [].
      * intros x Hx [E|[]]. subst x.
        apply in_map_iff in Hx as (t & E & Ht).
        rewrite Forall_forall in Hlt. apply Hlt in Ht. lia.
    + apply Forall_app. split.
      * eapply Forall_impl; [|exact Hlt]. simpl. intros; lia.
      * repeat constructor.
  - simpl. apply Forall_app. split; auto.
  - unfold stalled in *. rewrite Hsame. exact Honce.
Qed.

Lemma Inv_emitError_timeout s : Inv s -> Inv (emitError ETIMEDOUT s).
Proof.
  intro H. unfold emitError.
  apply Inv_setTimeout; try congruence.
  apply Inv_observe; auto.
Qed.

End Preservation.

(** ** Sockets *)

Lemma Callback_eqb_eq (a b : Callback) : Callback_eqb a b = true <-> a = b.
Proof.
  destruct a, b; simpl; split; intro H; try congruence; try discriminate.
  - apply Nat.eqb_eq in H. congruence.
  - inversion H. apply Nat.eqb_refl.
Qed.

Lemma same_registration_eq type cb capture e :
  same_registration type cb capture e = true <-> e = (type, cb, capture).
Proof.
  destruct e as [[t c] k]. unfold same_registration.
  rewrite !andb_true_iff, String.eqb_eq, Callback_eqb_eq, Bool.eqb_true_iff.
  split.
  - intros [[-> ->] ->]. reflexivity.
  - intro H. inversion H. auto.
Qed.

Lemma not_attached type cb capture l :
  existsb (same_registration type cb capture) l = false ->
  ~ In (type, cb, capture) l.
Proof.
  intros H Hin.
  assert (existsb (same_registration type cb capture) l = true) as E.
  { apply existsb_exists. eexists. split; [exact Hin|].
    now apply same_registration_eq. }
  congruence.
Qed.

Lemma NoDup_snoc {A : Type} (l : list A) (x : A) :
  NoDup l -> ~ In x l -> NoDup (l ++ [x]).
Proof.
  intros Hl Hx. apply NoDup_app; auto.
  - repeat constructor. intros [].
  - intros y Hy [E|[]]. subst. contradiction.
Qed.

Lemma NoDup_attached_add type cb options k :
  NoDup (attached k) ->
  NoDup (attached (socket_addEventListener type cb options k)).
Proof.
  intro H. unfold socket_addEventListener. cbv zeta.
  destruct (existsb _ _) eqn:E; auto.
  simpl. apply NoDup_snoc; auto. now apply not_attached.
Qed.

Lemma wired_add type listener options k :
  wired k ->
  wired (socket_addEventListener type (UserListener listener) options k).
Proof.
  intros (users & E & Hu). unfold socket_addEventListener. cbv zeta.
  destruct (existsb _ _).
  - exists users. auto.
  - exists (users ++ [(type, UserListener listener, capture_of options)]).
    simpl. rewrite E. split; [reflexivity|].
    rewrite forallb_app, Hu. reflexivity.
Qed.

Lemma NoDup_filter {A : Type} (p : A -> bool) (l : list A) :
  NoDup l -> NoDup (filter p l).
Proof.
  induction 1 as [|x l Hx Hl IH]; simpl; [constructor|].
  destruct (p x); auto. constructor; auto.
  intro Hin. apply filter_In in Hin as [? _]. contradiction.
Qed.

Lemma NoDup_attached_remove type cb options k :
  NoDup (attached k) ->
  NoDup (attached (socket_removeEventListener type cb options k)).
Proof. intro H. simpl. now apply NoDup_filter. Qed.

Lemma forallb_filter {A : Type} (p q : A -> bool) (l : list A) :
  forallb p l = true -> forallb p (filter q l) = true.
Proof.
  rewrite !forallb_forall. intros H x Hx.
  apply filter_In in Hx as [Hx _]. auto.
Qed.

Lemma wired_remove type listener options k :
  wired k ->
  wired (socket_removeEventListener type (UserListener listener) options k).
Proof.
  intros (users & E & Hu).
  exists (filter (fun e => negb (same_registration type (UserListener listener)
                                   (capture_of options) e)) users).
  split.
  - simpl. rewrite E. unfold own_handlers. simpl.
    rewrite !andb_false_r. reflexivity.
  - now apply forallb_filter.
Qed.

Lemma is_closed_socket_close k : is_closed (socket_close k) = is_closed k.
Proof. unfold is_closed. simpl. destruct (readyState k); reflexivity. Qed.

Section Current.

Variable config : Config.

Local Abbreviation Inv := (Inv config).

(** The socket [ws] names. *)
Lemma Inv_current s :
  Inv s ->
  exists older k,
    sockets s = older ++ [k] /\ ws s = Some (List.length older) /\
    forallb is_closed older = true /\ wired k /\ NoDup (attached k).
Proof. intro H. exact (inv_sockets _ _ H). Qed.

Lemma forallb_snoc {A : Type} (p : A -> bool) (l : list A) (x : A) :
  forallb p (l ++ [x]) = forallb p l && p x.
Proof. rewrite forallb_app. simpl. now rewrite andb_true_r. Qed.

(** A call on the current socket that does not reopen it. *)
Lemma Inv_on_current s older k f :
  Inv s ->
  sockets s = older ++ [k] ->
  wired (f k) -> NoDup (attached (f k)) ->
  (is_closed k = true -> is_closed (f k) = true) ->
  Inv (on_socket (List.length older) f s).
Proof.
  intros [Hf Hs Hc Ht Hto Honce Hr] E Hw Hnd Hcl.
  destruct Hs as (older' & k' & E' & Hws & Hold & _ & _).
  rewrite E in E'. apply app_inj_tail in E' as [<- <-].
  assert (Hall : forallb is_closed (sockets s) = true ->
                 forallb is_closed (older ++ [f k]) = true).
  { rewrite E, !forallb_snoc, !andb_true_iff. intros [? ?]. auto. }
  constructor; auto.
  - exists older, (f k). unfold on_socket; simpl.
    rewrite E, update_nth_last. auto.
  - unfold on_socket, scheduled_connects in *; simpl.
    rewrite E, update_nth_last. rewrite E in Hc, Hall. 
    destruct Hc as [Hc|[Hc Hc']]; [left | right]; auto.
  - unfold on_socket, stalled, scheduled_connects in *; simpl.
    rewrite E, update_nth_last. rewrite E in Honce, Hall.
    destruct Honce as [Ho|[Ho [Ho' Hz]]]; [left | right]; auto.
Qed.

End Current.

(** ** The registry *)

Lemma lookup_store_same type entries registry :
  lookup type (store type entries registry) = Some entries.
Proof.
  induction registry as [|[t old] rest IH]; simpl.
  - now rewrite String.eqb_refl.
  - destruct (String.eqb t type) eqn:E; simpl; rewrite E; auto.
Qed.

Lemma lookup_store_other type type' entries registry :
  type <> type' ->
  lookup type' (store type entries registry) = lookup type' registry.
Proof.
  intro Hne. induction registry as [|[t old] rest IH]; simpl.
  - destruct (String.eqb type type') eqn:E; auto.
    apply String.eqb_eq in E. contradiction.
  - destruct (String.eqb t type) eqn:E; simpl.
    + apply String.eqb_eq in E. subst t.
      destruct (String.eqb type type') eqn:E'; auto.
      apply String.eqb_eq in E'. contradiction.
    + now rewrite IH.
Qed.

Lemma lookup_None type registry :
  lookup type registry = None <-> ~ In type (map fst registry).
Proof.
  induction registry as [|[t old] rest IH]; simpl.
  - tauto.
  - destruct (String.eqb t type) eqn:E.
    + apply String.eqb_eq in E. split; [discriminate | tauto].
    + apply String.eqb_neq in E. tauto.
Qed.

Lemma lookup_In type entries registry :
  lookup type registry = Some entries -> In (type, entries) registry.
Proof.
  induction registry as [|[t old] rest IH]; simpl; [discriminate|].
  destruct (String.eqb t type) eqn:E.
  - apply String.eqb_eq in E. intro H. inversion H. subst. auto.
  - auto.
Qed.

Lemma store_keys type entries registry :
  map fst (store type entries registry) =
  match lookup type registry with
  | Some _ => map fst registry
  | None => map fst registry ++ [type]
  end.
Proof.
  induction registry as [|[t old] rest IH]; simpl; auto.
  destruct (String.eqb t type) eqn:E; simpl; auto.
  rewrite IH. destruct (lookup type rest); reflexivity.
Qed.

Lemma store_entries type entries registry (P : list (ListenerRef * ListenerOptions) -> Prop) :
  Forall (fun e => P (snd e)) registry -> P entries ->
  Forall (fun e => P (snd e)) (store type entries registry).
Proof.
  induction 1 as [|[t old] rest Hx Hrest IH]; simpl; intro He.
  - repeat constructor. exact He.
  - destruct (String.eqb t type); constructor; auto.
Qed.

Lemma registry_ok_store type entries registry :
  registry_ok registry -> NoDup (map fst entries) ->
  registry_ok (store type entries registry).
Proof.
  intros [Hk He] Hn. split.
  - rewrite store_keys. destruct (lookup type registry) eqn:E; auto.
    apply NoDup_snoc; auto. now apply lookup_None.
  - now apply (store_entries type entries registry (fun l => NoDup (map fst l))).
Qed.

Lemma registry_ok_lookup type entries registry :
  registry_ok registry -> lookup type registry = Some entries ->
  NoDup (map fst entries).
Proof.
  intros [_ He] E. apply lookup_In in E.
  rewrite Forall_forall in He. exact (He _ E).
Qed.

Lemma is_listener_In listener entries :
  existsb (is_listener listener) entries = true <->
  In listener (map fst entries).
Proof.
  rewrite existsb_exists, in_map_iff. unfold is_listener.
  split; intros (e & H1 & H2).
  - apply Nat.eqb_eq in H2. eauto.
  - exists e. split; auto. now apply Nat.eqb_eq.
Qed.

Lemma registry_ok_register type listener options registry :
  registry_ok registry ->
  registry_ok (register type listener options registry).
Proof.
  intro H. unfold register.
  destruct (lookup type registry) as [entries|] eqn:E.
  - destruct (existsb (is_listener listener) entries) eqn:Ex; simpl; auto.
    apply registry_ok_store; auto.
    rewrite map_app. simpl. apply NoDup_snoc.
    + eapply registry_ok_lookup; eauto.
    + intro Hin. apply is_listener_In in Hin. congruence.
  - apply registry_ok_store; auto. simpl. repeat constructor. intros [].
Qed.

Lemma registry_ok_unregister type listener registry :
  registry_ok registry ->
  registry_ok (unregister type listener registry).
Proof.
  intro H. unfold unregister.
  destruct (lookup type registry) as [entries|] eqn:E; auto.
  apply registry_ok_store; auto.
  apply NoDup_map_filter. eapply registry_ok_lookup; eauto.
Qed.




Lemma register_twice type listener options options' registry :
  register type listener options' (register type listener options registry)
  = register type listener options registry.
Proof.
  unfold register at 1.
  assert (exists entries,
            lookup type (register type listener options registry) = Some entries
            /\ existsb (is_listener listener) entries = true)
    as (entries & -> & ->); [|reflexivity].
  unfold register.
  destruct (lookup type registry) as [entries|] eqn:E.
  - destruct (existsb (is_listener listener) entries) eqn:Ex; simpl.
    + eauto.
    + rewrite lookup_store_same. eexists. split; [reflexivity|].
      rewrite existsb_app. simpl. unfold is_listener at 2. simpl.
      rewrite Nat.eqb_refl. apply orb_true_r.
  - rewrite lookup_store_same. eexists. split; [reflexivity|].
    simpl. unfold is_listener. simpl. now rewrite Nat.eqb_refl.
Qed.

(** ** The handlers, written out *)

Lemma observe_all_nil s : observe_all [] s = s.
Proof. destruct s. unfold observe_all. simpl. now rewrite app_nil_r. Qed.

Lemma observe_all_cons o l s :
  observe_all l (observe o s) = observe_all (o :: l) s.
Proof. unfold observe_all, observe. simpl. now rewrite <- app_assoc. Qed.

Lemma on_current s older k f :
  sockets s = older ++ [k] ->
  on_socket (List.length older) f s = set_sockets (older ++ [f k]) s.
Proof. intro E. unfold on_socket. now rewrite E, update_nth_last. Qed.

Lemma attach_all_wired calls k : wired k -> wired (attach_all calls k).
Proof.
  revert k. induction calls as [|[[t l] o] rest IH]; simpl; intros k H; auto.
  apply IH. now apply wired_add.
Qed.

Lemma attach_all_NoDup calls k :
  NoDup (attached k) -> NoDup (attached (attach_all calls k)).
Proof.
  revert k. induction calls as [|[[t l] o] rest IH]; simpl; intros k H; auto.
  apply IH. now apply NoDup_attached_add.
Qed.

Lemma reassign_current calls s older k :
  sockets s = older ++ [k] ->
  fold_left (fun st '(type, listener, options) =>
               on_socket (List.length older)
                 (socket_addEventListener type (UserListener listener) options)
                 st)
            calls s
  = set_sockets (older ++ [attach_all calls k]) s.
Proof.
  revert s k. induction calls as [|[[t l] o] rest IH]; simpl; intros s k E.
  - rewrite <- E. now destruct s.
  - rewrite (on_current s older k _ E).
    rewrite (IH _ (socket_addEventListener t (UserListener l) o k));
      reflexivity.
Qed.

Lemma reassign_registry registry s older k :
  sockets s = older ++ [k] ->
  reassignEventListeners (List.length older) registry s
  = set_sockets (older ++ [attach_all (reassigned registry) k]) s.
Proof. apply reassign_current. Qed.

Section Handlers.

Variable config : Config.
Variable url : string.
Variable protocols : list string.

Local Abbreviation Inv := (Inv config).

Lemma close_handler_eq random s :
  close_handler config random s =
  let n := S (retriesCount s) in
  if exceeds n (maxRetries config) then
    mkState (ws s) (connectingTimeout s) (reconnectDelay s) n (shouldRetry s)
      (listeners s) (sockets s)
      (timers s ++ [mkTimer (next_timer s) 0 (ErrorTask EHOSTDOWN)])
      (S (next_timer s))
      (trace s ++ [Logged LogClose; Logged (LogRetriesCount n);
                   EmitError EHOSTDOWN])
  else
    let d := next_delay config random s in
    mkState (ws s) (connectingTimeout s) d n (shouldRetry s)
      (listeners s) (sockets s)
      (if shouldRetry s
       then timers s ++ [mkTimer (next_timer s) d ConnectTask]
       else timers s)
      (if shouldRetry s then S (next_timer s) else next_timer s)
      (trace s ++ [Logged LogClose; Logged (LogRetriesCount n);
                   Logged (LogReconnectDelay d)]).
Proof.
  destruct s as [w ct rd rc sr ls ss ts nt tr].
  unfold close_handler, next_delay. setters.
  destruct (exceeds _ _).
  - now rewrite <- !app_assoc.
  - destruct (is_unset rd), sr; now rewrite <- !app_assoc.
Qed.

Lemma open_handler_eq random s :
  open_handler config random s =
  let d := initReconnectionDelay config random in
  mkState (ws s) (connectingTimeout s) d 0 (shouldRetry s)
    (listeners s) (sockets s)
    (timers (clearTimeout (connectingTimeout s) s)) (next_timer s)
    (trace s ++ [Logged LogOpen; Logged (LogReconnectDelay d)]).
Proof.
  destruct s as [w ct rd rc sr ls ss ts nt tr].
  unfold open_handler. setters.
  destruct ct; now rewrite <- !app_assoc.
Qed.

Lemma connect_eq f s :
  constructor config = Some f ->
  connect config url protocols s =
  inr (mkState (Some (List.length (sockets s))) (Some (next_timer s))
         (reconnectDelay s) (retriesCount s) (shouldRetry s) (listeners s)
         (sockets s ++ [connected_socket f url protocols (listeners s)])
         (timers s ++ [mkTimer (next_timer s) (connectionTimeout config)
                         TimeoutTask])
         (S (next_timer s))
         (trace s ++ [Logged LogConnect; Logged LogBypass])).
Proof.
  intro Hf. destruct s as [w ct rd rc sr ls ss ts nt tr].
  unfold connect. rewrite Hf.
  cbv beta iota zeta delta
    [set_ws set_connectingTimeout set_sockets set_timers set_next_timer
     log observe setTimeout on_socket snd fst
     ws connectingTimeout reconnectDelay retriesCount shouldRetry listeners
     sockets timers next_timer trace].
  rewrite !update_nth_last.
  erewrite reassign_registry by reflexivity.
  unfold connected_socket. setters. now rewrite <- !app_assoc.
Qed.

End Handlers.

(** ** The invariant is kept by the handlers *)

Lemma user_calls_emitted code socket type users :
  emitted code (user_calls socket type users) = 0%nat.
Proof.
  unfold user_calls. induction users as [|[[t c] b] rest IH]; simpl; auto.
  rewrite emitted_app, IH.
  destruct (String.eqb t type); auto. destruct c; reflexivity.
Qed.

Lemma user_calls_attempts socket type users :
  attempts (user_calls socket type users) = 0%nat.
Proof.
  unfold user_calls. induction users as [|[[t c] b] rest IH]; simpl; auto.
  rewrite attempts_app, IH.
  destruct (String.eqb t type); auto. destruct c; reflexivity.
Qed.

Lemma user_calls_delays socket type users :
  delays_logged (user_calls socket type users) = [].
Proof.
  unfold user_calls. induction users as [|[[t c] b] rest IH]; simpl; auto.
  rewrite delays_logged_app, IH.
  destruct (String.eqb t type); auto. destruct c; reflexivity.
Qed.

Section HandlersKeep.

Variable config : Config.
Variable url : string.
Variable protocols : list string.

Local Abbreviation Inv := (Inv config).

Lemma Inv_observe_all l s :
  emitted EHOSTDOWN l = 0%nat -> Inv s -> Inv (observe_all l s).
Proof.
  intros Hl [? ? ? ? ? Honce ?]; constructor; try assumption.
  unfold observe_all, stalled, scheduled_connects in *; simpl.
  rewrite emitted_app, Hl, Nat.add_0_r. exact Honce.
Qed.

(** What the callers' listeners see changes nothing but the trace. *)
Lemma dispatch_users socket type random users s :
  forallb is_user users = true ->
  fold_left (fun st '(t, cb, _) =>
               if String.eqb t type
               then invoke config socket type random cb st
               else st)
            users s
  = observe_all (user_calls socket type users) s.
Proof.
  revert s. induction users as [|[[t c] b] rest IH]; simpl; intros s H.
  - now rewrite observe_all_nil.
  - apply andb_true_iff in H as [Hc Hrest].
    unfold is_user in Hc; simpl in Hc.
    destruct c as [| |l]; try discriminate.
    rewrite IH by assumption.
    destruct (String.eqb t type); simpl; auto.
    now rewrite observe_all_cons.
Qed.

Lemma dispatch_open s older k users random :
  sockets s = older ++ [k] ->
  attached k = own_handlers ++ users ->
  forallb is_user users = true ->
  dispatch config (List.length older) "open" random s
  = observe_all (user_calls (List.length older) "open" users)
      (open_handler config random s).
Proof.
  intros E Ha Hu. unfold dispatch.
  rewrite E, nth_error_last, Ha, fold_left_app. simpl.
  now apply dispatch_users.
Qed.

Lemma dispatch_close s older k users random :
  sockets s = older ++ [k] ->
  attached k = own_handlers ++ users ->
  forallb is_user users = true ->
  dispatch config (List.length older) "close" random s
  = observe_all (user_calls (List.length older) "close" users)
      (close_handler config random s).
Proof.
  intros E Ha Hu. unfold dispatch.
  rewrite E, nth_error_last, Ha, fold_left_app. simpl.
  now apply dispatch_users.
Qed.

Lemma dispatch_other s older k users type random :
  sockets s = older ++ [k] ->
  attached k = own_handlers ++ users ->
  forallb is_user users = true ->
  is_lifecycle type = false ->
  dispatch config (List.length older) type random s
  = observe_all (user_calls (List.length older) type users) s.
Proof.
  intros E Ha Hu Ht. unfold dispatch.
  rewrite E, nth_error_last, Ha, fold_left_app.
  unfold own_handlers. cbn [fold_left].
  unfold is_lifecycle in Ht. apply orb_false_iff in Ht as [H1 H2].
  rewrite (String.eqb_sym "open"), (String.eqb_sym "close"), H1, H2.
  now apply dispatch_users.
Qed.

Lemma Inv_open_handler random s : Inv s -> Inv (open_handler config random s).
Proof.
  intro H. unfold open_handler. cbv zeta.
  apply Inv_set_retriesCount, Inv_log, Inv_set_reconnectDelay, Inv_log,
    Inv_clearTimeout, H.
Qed.

Lemma Inv_emitError_hostdown s :
  Inv s -> emitted EHOSTDOWN (trace s) = 0%nat -> stalled s ->
  Inv (emitError EHOSTDOWN s).
Proof.
  intros [Hf Hs Hc [Hnd Hlt] Hto Honce Hr] Hz [Hall Hsc].
  assert (Hsame : scheduled_connects (emitError EHOSTDOWN s) = 0%nat).
  { unfold scheduled_connects in *; simpl.
    rewrite filter_app, length_app, Hsc. reflexivity. }
  constructor; try assumption.
  - left. exact Hsame.
  - simpl. split.
    + rewrite map_app. simpl. apply NoDup_snoc; auto.
      intro Hx. apply in_map_iff in Hx as (t & E & Ht).
      rewrite Forall_forall in Hlt. apply Hlt in Ht. lia.
    + apply Forall_app. split.
      * eapply Forall_impl; [|exact Hlt]. simpl. intros; lia.
      * repeat constructor.
  - simpl. apply Forall_app. split; auto.
    repeat constructor. simpl. discriminate.
  - right. split; [|split; assumption].
    simpl. rewrite emitted_app, Hz. reflexivity.
Qed.

Lemma Inv_schedule_connect delay s :
  Inv s -> emitted EHOSTDOWN (trace s) = 0%nat -> stalled s ->
  Inv (snd (setTimeout ConnectTask delay s)).
Proof.
  intros [Hf Hs Hc [Hnd Hlt] Hto Honce Hr] Hz [Hall Hsc].
  constructor; try assumption.
  - right. split; [|exact Hall].
    unfold scheduled_connects in *; simpl.
    rewrite filter_app, length_app, Hsc. reflexivity.
  - simpl. split.
    + rewrite map_app. simpl. apply NoDup_snoc; auto.
      intro Hx. apply in_map_iff in Hx as (t & E & Ht).
      rewrite Forall_forall in Hlt. apply Hlt in Ht. lia.
    + apply Forall_app. split.
      * eapply Forall_impl; [|exact Hlt]. simpl. intros; lia.
      * repeat constructor.
  - simpl. apply Forall_app. split; auto.
    repeat constructor. simpl. discriminate.
  - left. exact Hz.
Qed.

(** The handler of ['close'] runs when the last socket has just closed. *)
Lemma Inv_close_handler random s :
  Inv s -> emitted EHOSTDOWN (trace s) = 0%nat -> stalled s ->
  Inv (close_handler config random s).
Proof.
  intros H Hz Hst. unfold close_handler. cbv zeta.
  set (s3 := log _ (set_retriesCount _ (log LogClose s))).
  assert (H3 : Inv s3)
    by (apply Inv_log, Inv_set_retriesCount, Inv_log, H).
  assert (Hz3 : emitted EHOSTDOWN (trace s3) = 0%nat).
  { unfold s3. simpl. now rewrite !emitted_app, Hz. }
  assert (Hst3 : stalled s3) by exact Hst.
  destruct (exceeds _ _).
  - now apply Inv_emitError_hostdown.
  - set (s5 := log _ _).
    assert (H5 : Inv s5).
    { unfold s5. apply Inv_log. destruct (is_unset _);
        now apply Inv_set_reconnectDelay. }
    assert (Hz5 : emitted EHOSTDOWN (trace s5) = 0%nat).
    { unfold s5. destruct (is_unset _); simpl;
        now rewrite !emitted_app, Hz. }
    assert (Hst5 : stalled s5).
    { unfold s5. destruct (is_unset _); exact Hst. }
    destruct (shouldRetry s5); auto.
    now apply Inv_schedule_connect.
Qed.

Lemma Inv_connect f s :
  constructor config = Some f ->
  Inv s -> emitted EHOSTDOWN (trace s) = 0%nat -> stalled s ->
  exists s', connect config url protocols s = inr s' /\ Inv s'.
Proof.
  intros Hf [_ Hs Hc [Hnd Hlt] Hto Honce Hr] Hz [Hall Hsc].
  rewrite (connect_eq config url protocols f s Hf).
  eexists. split; [reflexivity|].
  constructor; simpl; eauto.
  - exists (sockets s), (connected_socket f url protocols (listeners s)).
    repeat split; auto.
    + apply attach_all_wired. exists []. split; reflexivity.
    + apply attach_all_NoDup. simpl.
      repeat constructor; simpl; intuition discriminate.
  - left. unfold scheduled_connects in *; simpl.
    rewrite filter_app, length_app, Hsc. reflexivity.
  - split.
    + rewrite map_app. simpl. apply NoDup_snoc; auto.
      intro Hx. apply in_map_iff in Hx as (t & E & Ht).
      rewrite Forall_forall in Hlt. apply Hlt in Ht. lia.
    + apply Forall_app. split.
      * eapply Forall_impl; [|exact Hlt]. simpl. intros; lia.
      * repeat constructor.
  - apply Forall_app. split; auto.
  - left. rewrite emitted_app, Hz. reflexivity.
Qed.

End HandlersKeep.

Lemma ReadyState_closed_dec (st : ReadyState) : {st = CLOSED} + {st <> CLOSED}.
Proof. destruct st; [right | right | right | left]; congruence. Qed.

(** ** The invariant is kept by every step, and no step throws *)

Section Steps.

Variable config : Config.
Variable url : string.
Variable protocols : list string.

Local Abbreviation Inv := (Inv config).
Local Abbreviation step := (step config url protocols).
Local Abbreviation run := (run config url protocols).

(** A socket that can still fire is the one [ws] names. *)
Lemma live_current s socket st :
  Inv s -> state_of socket s = Some st -> st <> CLOSED ->
  exists older k users,
    sockets s = older ++ [k] /\ socket = List.length older /\
    readyState k = st /\ ws s = Some socket /\
    attached k = own_handlers ++ users /\ forallb is_user users = true /\
    NoDup (attached k) /\ forallb is_closed older = true.
Proof.
  intros H Hst Hne.
  destruct (Inv_current config s H)
    as (older & k & E & Hws & Hold & (users & Ha & Hu) & Hnd).
  unfold state_of in Hst. rewrite E in Hst.
  destruct (lt_eq_lt_dec socket (List.length older)) as [[Hlt|Heq]|Hgt].
  - rewrite nth_error_older in Hst by assumption.
    destruct (nth_error older socket) as [k'|] eqn:Ek; [|discriminate].
    pose proof (forallb_nth_error _ _ _ _ Hold Ek) as Hc.
    unfold is_closed in Hc. simpl in Hst. inversion Hst; subst.
    destruct (readyState k'); congruence.
  - subst socket. rewrite nth_error_last in Hst. simpl in Hst.
    inversion Hst; subst. exists older, k, users. repeat split; auto.
  - rewrite nth_error_beyond in Hst by assumption. discriminate.
Qed.

(** While a socket can still fire, no [connect] is waiting and
    [EHOSTDOWN] was never emitted. *)
Lemma Inv_live s older k :
  Inv s -> sockets s = older ++ [k] -> is_closed k = false ->
  scheduled_connects s = 0%nat /\ emitted EHOSTDOWN (trace s) = 0%nat.
Proof.
  intros H E Hk.
  assert (Hall : forallb is_closed (sockets s) = false).
  { rewrite E, forallb_app. simpl. rewrite Hk. apply andb_false_r. }
  split.
  - destruct (inv_connects _ _ H) as [?|[_ ?]]; [assumption | congruence].
  - destruct (inv_once _ _ H) as [?|[_ [? _]]]; [assumption | congruence].
Qed.

Lemma Inv_set_current s older k k' :
  Inv s -> sockets s = older ++ [k] ->
  attached k' = attached k ->
  (is_closed k = true -> is_closed k' = true) ->
  Inv (set_sockets (older ++ [k']) s).
Proof.
  intros H E Ha Hc.
  rewrite <- (on_current s older k (fun _ => k') E).
  destruct (Inv_current config s H)
    as (older' & k0 & E' & _ & _ & Hw & Hnd).
  rewrite E in E'. apply app_inj_tail in E' as [<- <-].
  apply Inv_on_current with (k := k); auto.
  - unfold wired in *. now rewrite Ha.
  - now rewrite Ha.
Qed.

Lemma step_opens s socket random :
  Inv s -> state_of socket s = Some CONNECTING ->
  exists older k users,
    sockets s = older ++ [k] /\ socket = List.length older /\
    readyState k = CONNECTING /\
    attached k = own_handlers ++ users /\
    step s (SocketOpens socket random)
    = inr (observe_all (user_calls socket "open" users)
             (open_handler config random
                (set_sockets (older ++ [set_readyState OPEN k]) s))).
Proof.
  intros H Hst.
  destruct (live_current s socket CONNECTING H Hst)
    as (older & k & users & E & -> & Hk & Hws & Ha & Hu & Hnd & Hold);
    [discriminate|].
  exists older, k, users. repeat split; auto.
  simpl. rewrite Hst. rewrite (on_current s older k _ E).
  now erewrite dispatch_open by (try reflexivity; eassumption).
Qed.

Lemma step_closes s socket random st :
  Inv s -> state_of socket s = Some st -> st <> CLOSED ->
  exists older k users,
    sockets s = older ++ [k] /\ socket = List.length older /\
    readyState k = st /\
    attached k = own_handlers ++ users /\
    step s (SocketCloses socket random)
    = inr (observe_all (user_calls socket "close" users)
             (close_handler config random
                (set_sockets (older ++ [set_readyState CLOSED k]) s))).
Proof.
  intros H Hst Hne.
  destruct (live_current s socket st H Hst Hne)
    as (older & k & users & E & -> & Hk & Hws & Ha & Hu & Hnd & Hold).
  exists older, k, users. repeat split; auto.
  simpl. rewrite Hst. rewrite (on_current s older k _ E).
  erewrite dispatch_close by (try reflexivity; eassumption).
  destruct st; congruence.
Qed.

Lemma step_emits s socket type st :
  Inv s -> state_of socket s = Some st -> st <> CLOSED ->
  is_lifecycle type = false ->
  exists users,
    step s (SocketEmits socket type)
    = inr (observe_all (user_calls socket type users) s).
Proof.
  intros H Hst Hne Ht.
  destruct (live_current s socket st H Hst Hne)
    as (older & k & users & E & -> & Hk & Hws & Ha & Hu & Hnd & Hold).
  exists users. simpl. rewrite Hst, Ht.
  erewrite dispatch_other by eassumption.
  destruct st; congruence.
Qed.

Lemma take_timer_Some id s t s1 :
  take_timer id s = Some (t, s1) ->
  In t (timers s) /\ timer_id t = id /\ s1 = clearTimeout (Some id) s.
Proof.
  unfold take_timer. destruct (find _ _) as [t'|] eqn:E; [|discriminate].
  intro H. inversion H; subst. apply find_some in E as [Hin Hid].
  apply Nat.eqb_eq in Hid. auto.
Qed.

(** Taking a waiting [connect] off the timers leaves none. *)
Lemma take_connect id s t s1 :
  Inv s -> take_timer id s = Some (t, s1) -> timer_task t = ConnectTask ->
  Inv s1 /\ stalled s1 /\ emitted EHOSTDOWN (trace s1) = 0%nat.
Proof.
  intros H Htake Htask.
  apply take_timer_Some in Htake as (Hin & Hid & ->).
  assert (Hpos : (1 <= scheduled_connects s)%nat).
  { unfold scheduled_connects.
    assert (In t (filter is_connect_task (timers s))) as Hf.
    { apply filter_In. split; auto. unfold is_connect_task. now rewrite Htask. }
    destruct (filter is_connect_task (timers s)); [destruct Hf | simpl; lia]. }
  destruct (inv_connects _ _ H) as [Hz|[Hone Hall]]; [lia|].
  split; [now apply Inv_clearTimeout|].
  assert (Hgone : scheduled_connects (clearTimeout (Some id) s) = 0%nat).
  { unfold scheduled_connects in *. simpl.
    revert Hone Hin. clear - Hid Htask.
    induction (timers s) as [|x l IH]; simpl; auto.
    intros Hone [->|Hin].
    - rewrite Hid, Nat.eqb_refl. simpl.
      unfold is_connect_task at 1 in Hone. rewrite Htask in Hone.
      simpl in Hone.
      pose proof (filter_length_le is_connect_task
                    (fun t0 => negb (Nat.eqb (timer_id t0) id)) l). lia.
    - destruct (is_connect_task x) eqn:Ex; simpl in Hone.
      + assert (In t (filter is_connect_task l)) as Hf.
        { apply filter_In. split; auto.
          unfold is_connect_task. now rewrite Htask. }
        destruct (filter is_connect_task l); [destruct Hf | simpl in Hone; lia].
      + destruct (negb _); simpl; rewrite ?Ex; auto.
  }
  split; [split; assumption|].
  destruct (inv_once _ _ H) as [?|[_ [_ Hz]]]; [assumption | lia].
Qed.

Lemma error_listeners_eq code entries s :
  fold_left (fun st (entry : ListenerRef * ListenerOptions) =>
               observe (ErrorListenerCalled code (fst entry)) st)
            entries s
  = observe_all (map (fun e => ErrorListenerCalled code (fst e)) entries) s.
Proof.
  revert s. induction entries as [|x rest IH]; simpl; intro s.
  - now rewrite observe_all_nil.
  - now rewrite IH, observe_all_cons.
Qed.

Lemma observe_all_app l l' s :
  observe_all l' (observe_all l s) = observe_all (l ++ l') s.
Proof. unfold observe_all. simpl. now rewrite <- app_assoc. Qed.

Lemma error_task_eq code s socket :
  ws s = Some socket ->
  error_task code s = inr (observe_all (error_calls code s) s).
Proof.
  intro Hws. unfold error_task, error_calls, deref_ws. cbv zeta.
  rewrite Hws.
  destruct (lookup "error" (listeners s)) as [entries|].
  - rewrite error_listeners_eq.
    change (ws (observe_all _ s)) with (ws s).
    change (sockets (observe_all _ s)) with (sockets s).
    rewrite Hws. simpl.
    destruct (nth_error (sockets s) socket) as [k|].
    + destruct (onerror k).
      * now rewrite <- observe_all_app.
      * now rewrite app_nil_r.
    + now rewrite app_nil_r.
  - rewrite Hws. simpl.
    destruct (nth_error (sockets s) socket) as [k|].
    + destruct (onerror k).
      * reflexivity.
      * now rewrite observe_all_nil.
    + now rewrite observe_all_nil.
Qed.

Lemma error_calls_emitted code' code s :
  emitted code' (error_calls code s) = 0%nat.
Proof.
  unfold error_calls. rewrite emitted_app.
  assert (forall entries : list (ListenerRef * ListenerOptions),
             emitted code'
               (map (fun e => ErrorListenerCalled code (fst e)) entries)
             = 0%nat) as Hmap.
  { induction entries; simpl; auto. }
  destruct (lookup _ _); rewrite ?Hmap; simpl;
    destruct (ws s) as [n|]; auto;
    destruct (nth_error _ _) as [k|]; auto;
    destruct (onerror k); auto.
Qed.

Lemma timeout_task_eq s older k :
  sockets s = older ++ [k] -> ws s = Some (List.length older) ->
  timeout_task s
  = inr (emitError ETIMEDOUT
           (set_sockets (older ++ [socket_close k]) (log LogTimeout s))).
Proof.
  intros E Hws. unfold timeout_task, deref_ws. cbv zeta.
  change (ws (log LogTimeout s)) with (ws s). rewrite Hws. simpl.
  now rewrite (on_current (log LogTimeout s) older k socket_close E).
Qed.

Lemma close_eq s older k :
  sockets s = older ++ [k] -> ws s = Some (List.length older) ->
  close s
  = inr (set_sockets (older ++ [socket_close k]) (set_shouldRetry false s)).
Proof.
  intros E Hws. unfold close, deref_ws. cbv zeta.
  change (ws (set_shouldRetry false s)) with (ws s). rewrite Hws. simpl.
  now rewrite (on_current (set_shouldRetry false s) older k socket_close E).
Qed.

Lemma addEventListener_eq type listener options s older k :
  sockets s = older ++ [k] -> ws s = Some (List.length older) ->
  addEventListener type listener options s
  = inr (set_sockets
           (older ++ [socket_addEventListener type (UserListener listener)
                        options k])
           (set_listeners (register type listener options (listeners s)) s)).
Proof.
  intros E Hws. unfold addEventListener, deref_ws. cbv zeta.
  change (ws (set_listeners _ s)) with (ws s). rewrite Hws. simpl.
  now rewrite (on_current (set_listeners _ s) older k _ E).
Qed.

Lemma removeEventListener_eq type listener options s older k :
  sockets s = older ++ [k] -> ws s = Some (List.length older) ->
  removeEventListener type listener options s
  = inr (set_sockets
           (older ++ [socket_removeEventListener type (UserListener listener)
                        options k])
           (set_listeners (unregister type listener (listeners s)) s)).
Proof.
  intros E Hws. unfold removeEventListener, deref_ws. cbv zeta.
  change (ws (set_listeners _ s)) with (ws s). rewrite Hws. simpl.
  now rewrite (on_current (set_listeners _ s) older k _ E).
Qed.

Lemma Inv_on_current' s older k f :
  Inv s -> sockets s = older ++ [k] ->
  wired (f k) -> NoDup (attached (f k)) ->
  (is_closed k = true -> is_closed (f k) = true) ->
  Inv (set_sockets (older ++ [f k]) s).
Proof.
  intros H E Hw Hn Hc. rewrite <- (on_current s older k f E).
  now apply Inv_on_current with (k := k).
Qed.

Lemma step_Inv s e : Inv s -> exists s', step s e = inr s' /\ Inv s'.
Proof.
  intro H.
  destruct (Inv_current config s H)
    as (older & k & E & Hws & Hold & Hw & Hnd).
  destruct e as [socket random|socket random|socket type|id| |type l o|type l o|h].
  - (* open *)
    destruct (state_of socket s) as [[| | |]|] eqn:Hst;
      try (exists s; simpl; rewrite Hst; auto; fail).
    destruct (step_opens s socket random H Hst)
      as (older' & k' & users & E' & -> & Hk & _ & ->).
    eexists. split; [reflexivity|].
    apply Inv_observe_all; [apply user_calls_emitted|].
    apply Inv_open_handler.
    apply Inv_set_current with (k := k'); auto.
    unfold is_closed. rewrite Hk. discriminate.
  - (* close *)
    destruct (state_of socket s) as [st|] eqn:Hst;
      [|exists s; simpl; rewrite Hst; auto].
    destruct (ReadyState_closed_dec st) as [->|Hne];
      [exists s; simpl; rewrite Hst; auto|].
    destruct (step_closes s socket random st H Hst Hne)
      as (older' & k' & users & E' & -> & Hk & _ & ->).
    eexists. split; [reflexivity|].
    apply Inv_observe_all; [apply user_calls_emitted|].
    destruct (Inv_live s older' k' H E') as [Hsc Hz].
    { unfold is_closed. rewrite Hk. now destruct st. }
    apply Inv_close_handler.
    + apply Inv_set_current with (k := k'); auto.
    + exact Hz.
    + split; [|exact Hsc]. simpl.
      rewrite E in E'. apply app_inj_tail in E' as [<- <-].
      rewrite forallb_app, Hold. reflexivity.
  - (* another event of the socket *)
    destruct (state_of socket s) as [st|] eqn:Hst;
      [|exists s; simpl; rewrite Hst; auto].
    destruct (is_lifecycle type) eqn:Ht.
    { exists s. simpl. rewrite Hst, Ht. destruct st; auto. }
    destruct (ReadyState_closed_dec st) as [->|Hne];
      [exists s; simpl; rewrite Hst; auto|].
    destruct (step_emits s socket type st H Hst Hne Ht) as (users & ->).
    eexists. split; [reflexivity|].
    apply Inv_observe_all; [apply user_calls_emitted | exact H].
  - (* a timer *)
    simpl. destruct (take_timer id s) as [[t s1]|] eqn:Htake; [|eauto].
    destruct (timer_task t) eqn:Htask; simpl.
    + destruct (take_connect id s t s1 H Htake Htask) as (H1 & Hst & Hz).
      destruct (inv_factory _ _ H) as [f Hf].
      eapply Inv_connect; eauto.
    + apply take_timer_Some in Htake as (_ & _ & ->).
      pose proof (Inv_clearTimeout config (Some id) s H) as H1.
      rewrite (timeout_task_eq _ older k) by assumption.
      eexists. split; [reflexivity|].
      apply Inv_emitError_timeout.
      apply Inv_on_current' with (k := k) (f := socket_close); auto.
      * now apply Inv_log.
      * intro Hc. now rewrite is_closed_socket_close.
    + apply take_timer_Some in Htake as (_ & _ & ->).
      pose proof (Inv_clearTimeout config (Some id) s H) as H1.
      erewrite error_task_eq by exact Hws.
      eexists. split; [reflexivity|].
      apply Inv_observe_all; [apply error_calls_emitted | exact H1].
  - (* close() *)
    simpl. rewrite (close_eq _ older k) by assumption.
    eexists. split; [reflexivity|].
    apply Inv_on_current' with (k := k) (f := socket_close); auto.
    + now apply Inv_set_shouldRetry.
    + intro Hc. now rewrite is_closed_socket_close.
  - (* addEventListener *)
    simpl. rewrite (addEventListener_eq _ _ _ _ older k) by assumption.
    eexists. split; [reflexivity|].
    apply Inv_on_current' with (k := k)
      (f := socket_addEventListener type (UserListener l) o); auto.
    + apply Inv_set_listeners; auto.
      apply registry_ok_register. exact (inv_registry _ _ H).
    + now apply wired_add.
    + now apply NoDup_attached_add.
    + unfold socket_addEventListener, is_closed. cbv zeta.
      now destruct (existsb _ _).
  - (* removeEventListener *)
    simpl. rewrite (removeEventListener_eq _ _ _ _ older k) by assumption.
    eexists. split; [reflexivity|].
    apply Inv_on_current' with (k := k)
      (f := socket_removeEventListener type (UserListener l) o); auto.
    + apply Inv_set_listeners; auto.
      apply registry_ok_unregister. exact (inv_registry _ _ H).
    + now apply wired_remove.
    + now apply NoDup_attached_remove.
  - (* onerror *)
    simpl. unfold deref_ws. rewrite Hws. simpl.
    rewrite (on_current s older k _ E).
    eexists. split; [reflexivity|].
    apply Inv_on_current' with (k := k) (f := set_onerror h); auto.
Qed.

Lemma run_Inv s events : Inv s -> exists s', run s events = inr s' /\ Inv s'.
Proof.
  revert s. induction events as [|e rest IH]; intros s H; simpl.
  - eauto.
  - destruct (step_Inv s e H) as (s1 & -> & H1). simpl. auto.
Qed.

Lemma start_Inv f :
  constructor config = Some f ->
  exists s0, start config url protocols = inr s0 /\ Inv s0.
Proof.
  intro Hf. unfold start.
  rewrite (connect_eq config url protocols f _ Hf).
  eexists. split; [reflexivity|].
  constructor; simpl; eauto.
  - exists [], (connected_socket f url protocols []).
    repeat split; auto.
    + exists []. split; reflexivity.
    + simpl. repeat constructor; simpl; intuition discriminate.
  - repeat constructor. simpl. intros [].
  - split; repeat constructor.
Qed.

Lemma reachable_Inv s : reachable config url protocols s -> Inv s.
Proof.
  intros (s0 & events & Hstart & _ & Hrun).
  assert (exists f, constructor config = Some f) as [f Hf].
  { unfold start, connect in Hstart.
    destruct (constructor config) as [f|]; [eauto | discriminate]. }
  destruct (start_Inv f Hf) as (s0' & E & H0).
  rewrite Hstart in E. inversion E; subst s0'.
  destruct (run_Inv s0 events H0) as (s' & E' & H').
  rewrite Hrun in E'. inversion E'; subst. exact H'.
Qed.

End Steps.

(** ** Every step is one of the transitions *)

Section Transitions.

Variable config : Config.
Variable url : string.
Variable protocols : list string.

Local Abbreviation Inv := (Inv config).
Local Abbreviation step := (step config url protocols).
Local Abbreviation run := (run config url protocols).
Local Abbreviation transition := (transition config url protocols).

Lemma step_transition s e s' :
  Inv s -> step s e = inr s' -> transition s e s'.
Proof.
  intros H Hstep.
  destruct (Inv_current config s H)
    as (older & k & E & Hws & Hold & Hw & Hnd).
  destruct e as [socket random|socket random|socket type|id| |type l o|type l o|h].
  - destruct (state_of socket s) as [[| | |]|] eqn:Hst;
      try (simpl in Hstep; rewrite Hst in Hstep; inversion Hstep;
           apply t_ignored; fail).
    destruct (step_opens config url protocols s socket random H Hst)
      as (older' & k' & users & E' & -> & Hk & Ha & Hstep').
    rewrite Hstep' in Hstep. inversion Hstep; subst s'.
    now apply t_opens.
  - destruct (state_of socket s) as [st|] eqn:Hst;
      [|simpl in Hstep; rewrite Hst in Hstep; inversion Hstep;
        apply t_ignored].
    destruct (ReadyState_closed_dec st) as [->|Hne];
      [simpl in Hstep; rewrite Hst in Hstep; inversion Hstep;
       apply t_ignored|].
    destruct (step_closes config url protocols s socket random st H Hst Hne)
      as (older' & k' & users & E' & -> & Hk & Ha & Hstep').
    rewrite Hstep' in Hstep. inversion Hstep; subst s'.
    apply t_closes; auto. congruence.
  - destruct (state_of socket s) as [st|] eqn:Hst;
      [|simpl in Hstep; rewrite Hst in Hstep; inversion Hstep;
        apply t_ignored].
    destruct (is_lifecycle type) eqn:Ht.
    { simpl in Hstep. rewrite Hst, Ht in Hstep.
      destruct st; inversion Hstep; apply t_ignored. }
    destruct (ReadyState_closed_dec st) as [->|Hne];
      [simpl in Hstep; rewrite Hst in Hstep; inversion Hstep;
       apply t_ignored|].
    destruct (step_emits config url protocols s socket type st H Hst Hne Ht)
      as (users & Hstep').
    rewrite Hstep' in Hstep. inversion Hstep; subst s'.
    apply t_emits.
  - simpl in Hstep.
    destruct (take_timer id s) as [[t s1]|] eqn:Htake;
      [|inversion Hstep; apply t_ignored].
    destruct (timer_task t) eqn:Htask; simpl in Hstep.
    + destruct (take_connect config id s t s1 H Htake Htask)
        as (H1 & Hst & Hz).
      apply take_timer_Some in Htake as (Hin & Hid & ->).
      eapply t_connect; eauto.
    + apply take_timer_Some in Htake as (Hin & Hid & ->).
      rewrite (timeout_task_eq _ older k) in Hstep by assumption.
      inversion Hstep; subst s'.
      eapply t_timeout; eauto.
    + apply take_timer_Some in Htake as (Hin & Hid & ->).
      erewrite error_task_eq in Hstep by exact Hws.
      inversion Hstep; subst s'.
      eapply t_error; eauto.
  - simpl in Hstep. rewrite (close_eq s older k) in Hstep by assumption.
    inversion Hstep; subst s'. now apply t_close.
  - simpl in Hstep.
    rewrite (addEventListener_eq _ _ _ _ older k) in Hstep by assumption.
    inversion Hstep; subst s'. now apply t_add.
  - simpl in Hstep.
    rewrite (removeEventListener_eq _ _ _ _ older k) in Hstep by assumption.
    inversion Hstep; subst s'. now apply t_remove.
  - simpl in Hstep. unfold deref_ws in Hstep. rewrite Hws in Hstep.
    simpl in Hstep. rewrite (on_current s older k _ E) in Hstep.
    inversion Hstep; subst s'. now apply t_onerror.
Qed.

End Transitions.

(** ** What a transition does to the delay, the retry count and the trace *)

Section Effects.

Variable config : Config.
Variable url : string.
Variable protocols : list string.

Local Abbreviation Inv := (Inv config).
Local Abbreviation step := (step config url protocols).
Local Abbreviation run := (run config url protocols).
Local Abbreviation transition := (transition config url protocols).

Lemma connect_inr s s' :
  connect config url protocols s = inr s' ->
  exists f,
    constructor config = Some f /\
    s' = mkState (Some (List.length (sockets s))) (Some (next_timer s))
           (reconnectDelay s) (retriesCount s) (shouldRetry s) (listeners s)
           (sockets s ++ [connected_socket f url protocols (listeners s)])
           (timers s ++ [mkTimer (next_timer s) (connectionTimeout config)
                           TimeoutTask])
           (S (next_timer s))
           (trace s ++ [Logged LogConnect; Logged LogBypass]).
Proof.
  intro H. destruct (constructor config) as [f|] eqn:Hf.
  - rewrite (connect_eq config url protocols f s Hf) in H.
    inversion H. eauto.
  - unfold connect in H. rewrite Hf in H. discriminate.
Qed.

Lemma error_calls_delays code s : delays_logged (error_calls code s) = [].
Proof.
  unfold error_calls. rewrite delays_logged_app.
  assert (forall entries : list (ListenerRef * ListenerOptions),
             delays_logged
               (map (fun e => ErrorListenerCalled code (fst e)) entries)
             = []) as Hmap.
  { induction entries; simpl; auto. }
  destruct (lookup _ _); rewrite ?Hmap; simpl;
    destruct (ws s) as [n|]; auto;
    destruct (nth_error _ _) as [k|]; auto;
    destruct (onerror k); auto.
Qed.

Lemma error_calls_attempts code s : attempts (error_calls code s) = 0%nat.
Proof.
  unfold error_calls. rewrite attempts_app.
  assert (forall entries : list (ListenerRef * ListenerOptions),
             attempts
               (map (fun e => ErrorListenerCalled code (fst e)) entries)
             = 0%nat) as Hmap.
  { induction entries; simpl; auto. }
  destruct (lookup _ _); rewrite ?Hmap; simpl;
    destruct (ws s) as [n|]; auto;
    destruct (nth_error _ _) as [k|]; auto;
    destruct (onerror k); auto.
Qed.

Lemma transition_effect s e s' :
  transition s e s' ->
  exists l,
    trace s' = trace s ++ l /\
    match e with
    | SocketOpens _ random =>
        s' = s \/
        (reconnectDelay s' = initReconnectionDelay config random /\
         retriesCount s' = 0%nat /\
         delays_logged l = [initReconnectionDelay config random])
    | SocketCloses _ random =>
        s' = s \/
        (retriesCount s' = S (retriesCount s) /\
         if exceeds (S (retriesCount s)) (maxRetries config)
         then reconnectDelay s' = reconnectDelay s /\ delays_logged l = [] /\
              emitted EHOSTDOWN l = 1%nat
         else reconnectDelay s' = next_delay config random s /\
              delays_logged l = [next_delay config random s] /\
              emitted EHOSTDOWN l = 0%nat)
    | _ =>
        reconnectDelay s' = reconnectDelay s /\
        retriesCount s' = retriesCount s /\
        delays_logged l = [] /\
        emitted EHOSTDOWN l = 0%nat
    end.
Proof.
  destruct 1.
  - exists []. rewrite app_nil_r. split; auto.
    destruct e; auto.
  - rewrite open_handler_eq. cbv zeta. setters.
    eexists. split; [now rewrite <- app_assoc|].
    right. rewrite delays_logged_app, user_calls_delays. auto.
  - rewrite close_handler_eq. cbv zeta. setters.
    destruct (exceeds _ _); setters.
    + eexists. split; [now rewrite <- app_assoc|]. right.
      rewrite delays_logged_app, user_calls_delays.
      rewrite emitted_app, user_calls_emitted. auto.
    + eexists. split; [now rewrite <- app_assoc|]. right.
      rewrite delays_logged_app, user_calls_delays.
      rewrite emitted_app, user_calls_emitted. auto.
  - setters. eexists. split; [reflexivity|].
    rewrite user_calls_delays, user_calls_emitted. auto.
  - apply connect_inr in H3 as (f & Hf & ->). simpl.
    eexists. split; [reflexivity|]. auto.
  - simpl. eexists. split; [now rewrite <- app_assoc|]. auto.
  - setters. eexists. split; [reflexivity|].
    rewrite error_calls_delays, error_calls_emitted. auto.
  - exists []. rewrite app_nil_r. simpl. auto.
  - exists []. rewrite app_nil_r. simpl. auto.
  - exists []. rewrite app_nil_r. simpl. auto.
  - exists []. rewrite app_nil_r. simpl. auto.
Qed.

End Effects.

(** ** Backoff along a run *)

Section Backoff.

Variable config : Config.
Variable url : string.
Variable protocols : list string.

Local Abbreviation Inv := (Inv config).
Local Abbreviation step := (step config url protocols).
Local Abbreviation run := (run config url protocols).
Local Abbreviation transition := (transition config url protocols).
Local Abbreviation m := (minReconnectionDelay config).
Local Abbreviation g := (reconnectionDelayGrowFactor config).
Local Abbreviation cap := (maxReconnectionDelay config).

Lemma run_trace s events s' :
  Inv s -> run s events = inr s' -> exists l, trace s' = trace s ++ l.
Proof.
  revert s. induction events as [|e rest IH]; simpl; intros s H Hrun.
  - inversion Hrun. exists []. now rewrite app_nil_r.
  - destruct (step_Inv config url protocols s e H) as (s1 & Hstep & H1).
    rewrite Hstep in Hrun. simpl in Hrun.
    destruct (transition_effect config url protocols s e s1
                (step_transition config url protocols s e s1 H Hstep))
      as (l1 & E1 & _).
    destruct (IH s1 H1 Hrun) as (l2 & E2).
    exists (l1 ++ l2). now rewrite E2, E1, app_assoc.
Qed.

Lemma since_step s s1 s' l1 l2 :
  trace s1 = trace s ++ l1 -> trace s' = trace s1 ++ l2 ->
  since s s' = l1 ++ l2 /\ since s1 s' = l2.
Proof.
  intros E1 E2. split.
  - apply since_app. now rewrite E2, E1, app_assoc.
  - now apply since_app.
Qed.



Hypothesis min_not_negative : 0 <= m.
Hypothesis factor_positive : 0 < g.
Hypothesis cap_positive : 0 < cap.











End Backoff.

(** * The statements of the specification *)

(** ** The first delay *)

(** C7, amended.  For every [minReconnectionDelay = m >= 0] and every
    draw [random] in [0, 1), the delay the 'close' handler computes while
    [reconnectDelay] is the sentinel [0] (the retry budget not being
    exceeded) is [m + random * m], and it lies between [m] and [2m], both
    ends included.  The same bounds hold when the product and the sum are
    rounded, as they are in doubles, by a rounding that keeps the order
    and is exact on [0], [m] and [2m]; there [2m] itself can be reached. *)
Theorem first_delay_in_range (round : Q -> Q) config random s :
  (forall x y, x <= y -> round x <= round y) ->
  round 0 == 0 ->
  round (minReconnectionDelay config) == minReconnectionDelay config ->
  round (2 * minReconnectionDelay config) == 2 * minReconnectionDelay config ->
  0 <= minReconnectionDelay config ->
  0 <= random -> random < 1 ->
  reconnectDelay s == 0 ->
  exceeds (S (retriesCount s)) (maxRetries config) = false ->
  reconnectDelay (close_handler config random s)
  = minReconnectionDelay config + random * minReconnectionDelay config /\
  minReconnectionDelay config
  <= reconnectDelay (close_handler config random s) /\
  reconnectDelay (close_handler config random s)
  <= 2 * minReconnectionDelay config /\
  minReconnectionDelay config
  <= initReconnectionDelay_rounded round config random /\
  initReconnectionDelay_rounded round config random
  <= 2 * minReconnectionDelay config.
Proof.
  intros Hmono Hz Hm H2m Hpos H0 H1 Hs Hx.
  rewrite close_handler_eq. cbv zeta. rewrite Hx. simpl.
  unfold next_delay. apply is_unset_true in Hs. rewrite Hs.
  split; [reflexivity|].
  destruct (init_within config random Hpos H0 H1) as [Hlo Hhi].
  split; [exact Hlo|]. split; [exact Hhi|].
  now apply init_rounded_within.
Qed.

(** With [minReconnectionDelay: 1] and a draw of [0.9], rounding to the
    nearest integer gives [1 + 1 = 2]: the upper end is reached. *)
Lemma first_delay_in_range_witness :
  let config := set_config browser_table (only_min 1) in
  reconnectDelay (close_handler config (9 # 10) initial_state)
  = 1 + (9 # 10) * 1 /\
  1 <= reconnectDelay (close_handler config (9 # 10) initial_state) /\
  reconnectDelay (close_handler config (9 # 10) initial_state) <= 2 * 1 /\
  1 <= initReconnectionDelay_rounded to_nearest_integer config (9 # 10) /\
  initReconnectionDelay_rounded to_nearest_integer config (9 # 10) <= 2 * 1.
Proof.
  apply (first_delay_in_range to_nearest_integer
           (set_config browser_table (only_min 1)) (9 # 10) initial_state).
  - exact to_nearest_integer_monotone.
  - reflexivity.
  - reflexivity.
  - reflexivity.
  - discriminate.
  - discriminate.
  - reflexivity.
  - reflexivity.
  - reflexivity.
Defined.

(** In doubles the upper end is reached with the default
    [minReconnectionDelay: 1500]: for the draw [1 - 2^-52], the largest
    but one below [1], the product rounds to [1500] and the delay is
    [3000]. *)
Lemma binary64_first_delay_reaches_twice_min :
  (0x1.ffffffffffffep-1 <? 1)%float = true /\
  (initReconnectionDelay_binary64 1500 0x1.ffffffffffffep-1 =? 3000)%float
  = true.
Proof. split; vm_compute; reflexivity. Qed.

(** With [minReconnectionDelay: 0] the first delay is [0], and the interval
    [0, 0) is empty. *)
Lemma first_delay_with_zero_min :
  exists config s0 s1,
    ReconnectingWebsocket true browser_table sample_url [] (only_min 0)
    = (config, inr s0) /\
    reconnectDelay s0 == 0 /\
    step config sample_url [] s0 (SocketCloses 0%nat (1 # 2)) = inr s1 /\
    ~ (minReconnectionDelay config <= reconnectDelay s1 /\
       reconnectDelay s1 < 2 * minReconnectionDelay config).
Proof.
  do 3 eexists. split; [vm_compute; reflexivity|].
  split; [reflexivity|]. split; [vm_compute; reflexivity|].
  vm_compute. intros [_ H]. discriminate.
Qed.

(** ** The default table *)

(** C5 fails on the code: the constructor writes the caller's options into
    the shared table.  After [new ReconnectingWebsocket(url, [],
    {minReconnectionDelay: 100})], an instance constructed with [{}] finds
    [minReconnectionDelay] at [100], and computes its first delay from it. *)
Theorem defaults_are_overwritten :
  let table1 :=
    fst (ReconnectingWebsocket true browser_table sample_url [] (only_min 100)) in
  let second :=
    ReconnectingWebsocket true table1 sample_url [] empty_options in
  minReconnectionDelay browser_table = 1500 /\
  minReconnectionDelay (fst second) = 100 /\
  exists s0,
    snd second = inr s0 /\
    reconnectDelay (close_handler (fst second) 0 s0) = 100 + 0 * 100.
Proof.
  cbv zeta. split; [reflexivity|]. split; [reflexivity|].
  eexists. split; vm_compute; reflexivity.
Qed.

(** ** Exceptions *)

Lemma run_never_throws config url protocols s events :
  Inv config s -> exists s', run config url protocols s events = inr s'.
Proof.
  intro H. destruct (run_Inv config url protocols s events H) as (s' & E & _).
  eauto.
Qed.










(** A later call that stores [null] under [constructor] makes the retry
    of a running instance throw. *)
Lemma run_shared_throws_without_constructor :
  snd (run_shared browser_table sample_url []
         (constructed browser_table empty_options)
         [Happens (SocketCloses 0%nat 0);
          Constructs true sample_url []
            (Ordinary (mkOptions (Some None) None None None None None None));
          Happens (TimerFires 2%nat)])
  = inl (TypeError "config.constructor is not a constructor").
Proof. vm_compute. reflexivity. Qed.

(** ** close() *)

(** C4 fails on the code.  When [close()] is called while a retry is
    waiting on its timer, the timer is not cancelled and [connect] does not
    look at [shouldRetry]: the attempt is made, and a new socket is left
    connecting. *)
Theorem close_does_not_cancel_retry :
  exists s,
    run browser_table sample_url []
        (constructed browser_table empty_options)
        [SocketCloses 0%nat (1 # 2); Close; TimerFires 2%nat] = inr s /\
    shouldRetry s = false /\
    attempts (trace s) = 2%nat /\
    ws s = Some 1%nat /\
    state_of 1%nat s = Some CONNECTING.
Proof.
  eexists. split; [vm_compute; reflexivity|]. repeat split; reflexivity.
Qed.

(** ** The retry budget *)

Section Budget.

Variable config : Config.
Variable url : string.
Variable protocols : list string.

Local Abbreviation Inv := (Inv config).
Local Abbreviation step := (step config url protocols).
Local Abbreviation run := (run config url protocols).
Local Abbreviation transition := (transition config url protocols).

Lemma closed_last older k :
  forallb is_closed (older ++ [k]) = true -> readyState k = CLOSED.
Proof.
  rewrite forallb_app. simpl. rewrite andb_true_r, andb_true_iff.
  intros [_ H]. unfold is_closed in H. now destruct (readyState k).
Qed.

Lemma closed_update older k k' :
  (is_closed k = true -> is_closed k' = true) ->
  forallb is_closed (older ++ [k]) = true ->
  forallb is_closed (older ++ [k']) = true.
Proof.
  intro H. rewrite !forallb_app. simpl. rewrite !andb_true_r, !andb_true_iff.
  intros [? ?]. auto.
Qed.

Lemma pending_connect ts t :
  In t ts -> timer_task t = ConnectTask ->
  (1 <= List.length (filter is_connect_task ts))%nat.
Proof.
  intros Hin Htask.
  assert (In t (filter is_connect_task ts)) as Hf.
  { apply filter_In. split; auto. unfold is_connect_task. now rewrite Htask. }
  destruct (filter is_connect_task ts); [destruct Hf | simpl; lia].
Qed.

(** A stalled instance stays stalled: it makes no attempt and emits no
    further [EHOSTDOWN]. *)
Lemma transition_stalled s e s' :
  transition s e s' -> stalled s ->
  stalled s' /\
  attempts (trace s') = attempts (trace s) /\
  emitted EHOSTDOWN (trace s') = emitted EHOSTDOWN (trace s).
Proof.
  intros Ht [Hall Hsc]. unfold stalled, scheduled_connects in *.
  destruct Ht.
  - auto.
  - rewrite H in Hall. apply closed_last in Hall. congruence.
  - rewrite H in Hall. apply closed_last in Hall. congruence.
  - simpl. rewrite attempts_app, emitted_app, user_calls_attempts,
      user_calls_emitted. auto.
  - pose proof (pending_connect _ _ H H1). lia.
  - simpl. rewrite H2 in Hall.
    rewrite !attempts_app, !emitted_app. simpl.
    rewrite filter_app, length_app. simpl.
    pose proof (filter_length_le is_connect_task
                  (fun t0 => negb (Nat.eqb (timer_id t0) id)) (timers s)).
    change (attempts [Logged LogTimeout]) with 0%nat.
    change (attempts [EmitError ETIMEDOUT]) with 0%nat.
    change (emitted EHOSTDOWN [Logged LogTimeout]) with 0%nat.
    change (emitted EHOSTDOWN [EmitError ETIMEDOUT]) with 0%nat.
    repeat split; try lia.
    apply (closed_update older k); auto.
    intro. now rewrite is_closed_socket_close.
  - simpl.
    rewrite attempts_app, emitted_app, error_calls_attempts,
      error_calls_emitted.
    pose proof (filter_length_le is_connect_task
                  (fun t0 => negb (Nat.eqb (timer_id t0) id)) (timers s)).
    repeat split; try lia. exact Hall.
  - simpl. rewrite H in Hall. repeat split; auto.
    apply (closed_update older k); auto.
    intro. now rewrite is_closed_socket_close.
  - simpl. rewrite H in Hall. repeat split; auto.
    apply (closed_update older k); auto.
    unfold socket_addEventListener, is_closed. cbv zeta.
    now destruct (existsb _ _).
  - simpl. rewrite H in Hall. repeat split; auto.
    apply (closed_update older k); auto.
  - simpl. rewrite H in Hall. repeat split; auto.
    apply (closed_update older k); auto.
Qed.

Lemma run_stalled s events s' :
  Inv s -> stalled s -> run s events = inr s' ->
  stalled s' /\
  attempts (trace s') = attempts (trace s) /\
  emitted EHOSTDOWN (trace s') = emitted EHOSTDOWN (trace s).
Proof.
  revert s. induction events as [|e rest IH]; simpl; intros s H Hst Hrun.
  - inversion Hrun; subst. auto.
  - destruct (step_Inv config url protocols s e H) as (s1 & Hstep & H1).
    rewrite Hstep in Hrun. simpl in Hrun.
    destruct (transition_stalled s e s1
                (step_transition config url protocols s e s1 H Hstep) Hst)
      as (Hst1 & Ha & He).
    destruct (IH s1 H1 Hst1 Hrun) as (Hst' & Ha' & He').
    repeat split; try apply Hst'; congruence.
Qed.

End Budget.

Lemma constructed_reachable table options f :
  constructor (set_config table options) = Some f ->
  reachable (set_config table options) sample_url []
    (constructed table options).
Proof.
  intro Hf. exists (constructed table options), [].
  unfold constructed, ReconnectingWebsocket. simpl negb. cbv iota.
  rewrite Hf. cbn [snd].
  destruct (start_Inv (set_config table options) sample_url [] f Hf)
    as (s0 & -> & _).
  repeat split. constructor.
Qed.

(** ** The connection timeout *)

Lemma find_by_id ts t :
  NoDup (map timer_id ts) -> In t ts ->
  find (fun x => Nat.eqb (timer_id x) (timer_id t)) ts = Some t.
Proof.
  induction ts as [|x rest IH]; simpl; intros Hn Hin; [destruct Hin|].
  inversion Hn as [|? ? Hx Hrest]; subst.
  destruct Hin as [->|Hin].
  - now rewrite Nat.eqb_refl.
  - destruct (Nat.eqb (timer_id x) (timer_id t)) eqn:E; auto.
    apply Nat.eqb_eq in E. exfalso. apply Hx. rewrite E.
    now apply in_map.
Qed.

Lemma In_other_timers t id ts :
  In t ts -> Nat.eqb id (timer_id t) = false ->
  In t (filter (fun x => negb (Nat.eqb (timer_id x) id)) ts).
Proof.
  intros Hin Hne. apply filter_In. split; auto.
  rewrite Nat.eqb_sym, Hne. reflexivity.
Qed.

Section Timeout.

Variable config : Config.
Variable url : string.
Variable protocols : list string.

Local Abbreviation Inv := (Inv config).
Local Abbreviation step := (step config url protocols).
Local Abbreviation run := (run config url protocols).
Local Abbreviation transition := (transition config url protocols).

(** Nothing but its own firing and an 'open' takes a timer away. *)
Lemma transition_spares s e s' t :
  transition s e s' -> spares (timer_id t) e = true ->
  In t (timers s) -> In t (timers s').
Proof.
  intros Ht Hsp Hin. destruct Ht; simpl in Hsp; try discriminate; auto.
  - rewrite close_handler_eq. cbv zeta. simpl.
    destruct (exceeds _ _); simpl.
    + apply in_or_app. auto.
    + destruct (shouldRetry s); auto. apply in_or_app. auto.
  - apply connect_inr in H3 as (f & _ & ->). simpl.
    apply in_or_app. left. apply In_other_timers; auto.
    now apply negb_true_iff.
  - simpl. apply in_or_app. left. apply In_other_timers; auto.
    now apply negb_true_iff.
  - simpl. apply In_other_timers; auto. now apply negb_true_iff.
Qed.

Lemma run_spares s events s' t :
  Inv s -> forallb (spares (timer_id t)) events = true ->
  run s events = inr s' -> In t (timers s) -> In t (timers s').
Proof.
  revert s. induction events as [|e rest IH]; simpl; intros s H Hsp Hrun Hin.
  - inversion Hrun; subst. exact Hin.
  - apply andb_true_iff in Hsp as [He Hrest].
    destruct (step_Inv config url protocols s e H) as (s1 & Hstep & H1).
    rewrite Hstep in Hrun. simpl in Hrun.
    apply (IH s1 H1 Hrest Hrun).
    apply (transition_spares s e s1 t); auto.
    now apply step_transition.
Qed.

(** An event that does not cancel a timer leaves it pending. *)
Lemma transition_outlives s e s' t :
  transition s e s' -> cancels (timer_id t) s e = false ->
  In t (timers s) -> In t (timers s').
Proof.
  intros Ht Hc Hin. destruct Ht; simpl in Hc; auto.
  - unfold state_of in Hc. rewrite H, nth_error_last in Hc. simpl in Hc.
    rewrite H0 in Hc.
    rewrite open_handler_eq. cbv zeta. simpl.
    change (connectingTimeout
              (set_sockets (older ++ [set_readyState OPEN k]) s))
      with (connectingTimeout s).
    destruct (connectingTimeout s) as [handle|]; simpl.
    + apply In_other_timers; auto.
    + exact Hin.
  - rewrite close_handler_eq. cbv zeta. simpl.
    destruct (exceeds _ _); simpl.
    + apply in_or_app. auto.
    + destruct (shouldRetry s); auto. apply in_or_app. auto.
  - apply connect_inr in H3 as (f & _ & ->). simpl.
    apply in_or_app. left. apply In_other_timers; auto.
  - simpl. apply in_or_app. left. apply In_other_timers; auto.
  - simpl. apply In_other_timers; auto.
Qed.

Lemma run_outlives s events t :
  Inv s -> outlives config url protocols (timer_id t) s events = true ->
  In t (timers s) ->
  exists s', run s events = inr s' /\ Inv s' /\ In t (timers s').
Proof.
  revert s. induction events as [|e rest IH]; simpl; intros s H Ho Hin.
  - eauto.
  - apply andb_true_iff in Ho as [Hc Ho]. apply negb_true_iff in Hc.
    destruct (step_Inv config url protocols s e H) as (s1 & Hstep & H1).
    rewrite Hstep in *. simpl.
    apply (IH s1 H1 Ho).
    apply (transition_outlives s e s1 t); auto.
    now apply step_transition.
Qed.

Lemma transition_gone s e s' id :
  transition s e s' ->
  (id < next_timer s)%nat /\
  (forall x, In x (timers s) -> timer_id x <> id) ->
  (id < next_timer s')%nat /\
  (forall x, In x (timers s') -> timer_id x <> id).
Proof.
  intros Ht [Hlt Hno].
  assert (Hfilter : forall h x,
             In x (timers (clearTimeout h s)) -> timer_id x <> id).
  { intros h x Hx. apply Hno. destruct h as [i|]; [|exact Hx].
    destruct s; simpl in Hx. now apply filter_In in Hx as [Hx _]. }
  destruct Ht; auto.
  - rewrite open_handler_eq. cbv zeta. simpl. split; [exact Hlt|].
    intros x Hx. apply Hno.
    change (connectingTimeout
              (set_sockets (older ++ [set_readyState OPEN k]) s))
      with (connectingTimeout s) in Hx.
    destruct (connectingTimeout s) as [i|]; simpl in Hx; auto.
    now apply filter_In in Hx as [Hx _].
  - rewrite close_handler_eq. cbv zeta.
    destruct (exceeds _ _); simpl.
    + split; [lia|]. intros x Hx. apply in_app_or in Hx as [Hx|[<-|[]]].
      * now apply Hno.
      * simpl. lia.
    + destruct (shouldRetry s); simpl; [|now split].
      split; [lia|]. intros x Hx. apply in_app_or in Hx as [Hx|[<-|[]]].
      * now apply Hno.
      * simpl. lia.
  - apply connect_inr in H3 as (f & _ & ->). cbn [next_timer timers].
    replace (next_timer (clearTimeout (Some id0) s)) with (next_timer s)
      by now destruct s.
    split; [lia|]. intros x Hx. apply in_app_or in Hx as [Hx|[<-|[]]].
    + now apply (Hfilter (Some id0)).
    + simpl. lia.
  - simpl. split; [lia|]. intros x Hx. apply in_app_or in Hx as [Hx|[<-|[]]].
    + now apply (Hfilter (Some id0)).
    + simpl. lia.
  - simpl. split; [exact Hlt|]. intros x Hx. now apply (Hfilter (Some id0)).
Qed.

Lemma run_gone s events s' id :
  Inv s -> run s events = inr s' ->
  (id < next_timer s)%nat /\
  (forall x, In x (timers s) -> timer_id x <> id) ->
  forall x, In x (timers s') -> timer_id x <> id.
Proof.
  revert s. induction events as [|e rest IH]; simpl; intros s H Hrun Hg.
  - injection Hrun as <-. apply Hg.
  - destruct (step_Inv config url protocols s e H) as (s1 & Hstep & H1).
    rewrite Hstep in Hrun. simpl in Hrun.
    apply (IH s1 H1 Hrun).
    apply (transition_gone s e s1 id); auto.
    now apply step_transition.
Qed.

(** Each of the two events does take the timer away. *)
Lemma cancels_removes s e s' t :
  Inv s -> In t (timers s) -> cancels (timer_id t) s e = true ->
  step s e = inr s' ->
  (timer_id t < next_timer s')%nat /\
  (forall x, In x (timers s') -> timer_id x <> timer_id t).
Proof.
  intros H Hin Hc Hstep.
  assert (Hlt : (timer_id t < next_timer s)%nat).
  { pose proof (proj2 (inv_timers _ _ H)) as Hall.
    rewrite Forall_forall in Hall. now apply Hall. }
  destruct (Inv_current config s H) as (older & k & E & Hws & _).
  destruct e as [socket random| | |id| | | |]; simpl in Hc; try discriminate.
  - destruct (state_of socket s) as [[]|] eqn:Est; try discriminate.
    destruct (connectingTimeout s) as [handle|] eqn:Eh; [|discriminate].
    apply Nat.eqb_eq in Hc. subst handle.
    destruct (step_opens config url protocols s socket random H Est)
      as (older' & k' & users & E' & -> & _ & _ & Hstep').
    rewrite Hstep' in Hstep. injection Hstep as <-.
    rewrite open_handler_eq. cbv zeta. simpl.
    change (connectingTimeout
              (set_sockets (older' ++ [set_readyState OPEN k']) s))
      with (connectingTimeout s).
    rewrite Eh. simpl. split; [exact Hlt|].
    intros x Hx. apply filter_In in Hx as [_ Hx].
    apply negb_true_iff in Hx. now apply Nat.eqb_neq.
  - apply Nat.eqb_eq in Hc. subst id.
    simpl in Hstep. unfold take_timer in Hstep.
    rewrite (find_by_id (timers s) t (proj1 (inv_timers _ _ H)) Hin)
      in Hstep.
    assert (Hfin : forall (ts l : list Timer) (n m : TimerId),
               (timer_id t < n)%nat -> (n <= m)%nat ->
               Forall (fun x => timer_id x = n) l ->
               (timer_id t < m)%nat /\
               forall x,
                 In x (filter
                         (fun x => negb (Nat.eqb (timer_id x) (timer_id t)))
                         ts ++ l) ->
                 timer_id x <> timer_id t).
    { intros ts l n m Hn Hm Hl. split; [lia|].
      intros x Hx. apply in_app_or in Hx as [Hx|Hx].
      - apply filter_In in Hx as [_ Hx]. apply negb_true_iff in Hx.
        now apply Nat.eqb_neq.
      - rewrite Forall_forall in Hl. rewrite (Hl x Hx). lia. }
    destruct (timer_task t); simpl in Hstep.
    + destruct (inv_factory _ _ H) as [f Hf].
      rewrite (connect_eq config url protocols f _ Hf) in Hstep.
      injection Hstep as <-. destruct s; simpl in *.
      apply (Hfin _ _ next_timer0); auto; repeat constructor.
    + rewrite (timeout_task_eq _ older k) in Hstep
        by (destruct s; assumption).
      injection Hstep as <-. destruct s; simpl in *.
      apply (Hfin _ _ next_timer0); auto; repeat constructor.
    + rewrite (error_task_eq code _ (List.length older)) in Hstep
        by (destruct s; exact Hws).
      injection Hstep as <-. destruct s; simpl in *.
      rewrite <- (app_nil_r (filter _ timers0)).
      apply (Hfin _ _ next_timer0); auto.
Qed.

Lemma run_cancelled s events s' t :
  Inv s -> In t (timers s) ->
  outlives config url protocols (timer_id t) s events = false ->
  run s events = inr s' -> ~ In t (timers s').
Proof.
  revert s. induction events as [|e rest IH]; simpl; intros s H Hin Ho Hrun.
  - discriminate.
  - destruct (step_Inv config url protocols s e H) as (s1 & Hstep & H1).
    rewrite Hstep in Hrun, Ho. simpl in Hrun.
    destruct (cancels (timer_id t) s e) eqn:Hc; simpl in Ho.
    + intro Hin'.
      apply (run_gone s1 rest s' (timer_id t) H1 Hrun
               (cancels_removes s e s1 t H Hin Hc Hstep) t Hin').
      reflexivity.
    + apply (IH s1 H1); auto.
      apply (transition_outlives s e s1 t); auto.
      now apply step_transition.
Qed.

(** C10.  A timeout timer is taken away by two events only: its own
    firing, and an 'open' handled while [connectingTimeout] holds its
    handle.  It stays pending through every other event, in particular
    through the 'close' of the socket it was started for, the attempts
    that follow, and the 'open' of a later attempt's socket.  When it
    fires it calls [close()] on the socket [ws] names at that moment and
    emits [ETIMEDOUT]. *)
Theorem timeout_outlives_its_socket s t events :
  reachable config url protocols s ->
  In t (timers s) -> timer_task t = TimeoutTask ->
  exists s1,
    run s events = inr s1 /\
    timer_delay t = connectionTimeout config /\
    (outlives config url protocols (timer_id t) s events = false ->
     ~ In t (timers s1)) /\
    (outlives config url protocols (timer_id t) s events = true ->
     In t (timers s1) /\
     exists older k s2,
       sockets s1 = older ++ [k] /\
       ws s1 = Some (List.length older) /\
       step s1 (TimerFires (timer_id t)) = inr s2 /\
       sockets s2 = older ++ [socket_close k] /\
       emitted ETIMEDOUT (since s1 s2) = 1%nat /\
       In (mkTimer (next_timer s1) 0 (ErrorTask ETIMEDOUT)) (timers s2) /\
       ~ In t (timers s2)).
Proof.
  intros Hreach Hin Htask.
  pose proof (reachable_Inv config url protocols s Hreach) as H.
  destruct (run_Inv config url protocols s events H) as (s1 & Hrun & H1).
  exists s1. split; [exact Hrun|]. split.
  { pose proof (inv_timeouts _ _ H) as Hto.
    rewrite Forall_forall in Hto. now apply Hto. }
  split.
  { intro Ho. exact (run_cancelled s events s1 t H Hin Ho Hrun). }
  intro Ho.
  destruct (run_outlives s events t H Ho Hin) as (s1' & Hrun' & _ & Hin1).
  rewrite Hrun in Hrun'. injection Hrun' as <-.
  split; [exact Hin1|].
  destruct (Inv_current config s1 H1)
    as (older & k & E & Hws & Hold & Hw & Hnd).
  exists older, k. eexists. split; [exact E|]. split; [exact Hws|].
  assert (Htake : take_timer (timer_id t) s1
                  = Some (t, clearTimeout (Some (timer_id t)) s1)).
  { unfold take_timer. rewrite find_by_id; auto.
    exact (proj1 (inv_timers _ _ H1)). }
  split.
  { simpl. rewrite Htake, Htask. simpl.
    apply (timeout_task_eq _ older k); assumption. }
  split; [reflexivity|]. split; [|split].
  - erewrite since_app by (simpl; rewrite <- app_assoc; reflexivity).
    reflexivity.
  - simpl. apply in_or_app. right. left. reflexivity.
  - simpl. intro Hx. apply in_app_or in Hx as [Hx|[Hx|[]]].
    + apply filter_In in Hx as [_ Hx]. rewrite Nat.eqb_refl in Hx.
      discriminate.
    + rewrite <- Hx in Htask. discriminate.
Qed.

End Timeout.

(** The timer of the first attempt, whose socket closes before it opens:
    it outlives the retry and the 'open' of the retry's socket, and then
    closes that open socket.  Had the first socket opened, the timer would
    be gone. *)
Lemma timeout_outlives_its_socket_witness :
  let s := constructed browser_table empty_options in
  let t := mkTimer 1%nat 4000 TimeoutTask in
  (exists s1 s2,
      run browser_table sample_url [] s
          [SocketCloses 0%nat (1 # 2); TimerFires 2%nat;
           SocketOpens 1%nat (1 # 2)] = inr s1 /\
      In t (timers s1) /\
      state_of 1%nat s1 = Some OPEN /\
      step browser_table sample_url [] s1 (TimerFires 1%nat) = inr s2 /\
      state_of 1%nat s2 = Some CLOSING /\
      emitted ETIMEDOUT (since s1 s2) = 1%nat)
  /\
  (exists s1,
      run browser_table sample_url [] s [SocketOpens 0%nat (1 # 2)] = inr s1 /\
      ~ In t (timers s1)).
Proof.
  split.
  - destruct (timeout_outlives_its_socket browser_table sample_url []
                (constructed browser_table empty_options)
                (mkTimer 1%nat 4000 TimeoutTask)
                [SocketCloses 0%nat (1 # 2); TimerFires 2%nat;
                 SocketOpens 1%nat (1 # 2)])
      as (s1 & E1 & _ & _ & E2).
    + apply (constructed_reachable browser_table empty_options WebSocket).
      reflexivity.
    + simpl. left. reflexivity.
    + reflexivity.
    + destruct E2 as (Hin & older & k & s2 & _ & _ & E3 & _ & E4 & _);
        [vm_compute; reflexivity|].
      exists s1, s2. split; [exact E1|]. split; [exact Hin|].
      vm_compute in E1. injection E1 as <-.
      split; [reflexivity|]. split; [exact E3|].
      vm_compute in E3. injection E3 as <-.
      split; reflexivity.
  - destruct (timeout_outlives_its_socket browser_table sample_url []
                (constructed browser_table empty_options)
                (mkTimer 1%nat 4000 TimeoutTask)
                [SocketOpens 0%nat (1 # 2)])
      as (s1 & E1 & _ & E2 & _).
    + apply (constructed_reachable browser_table empty_options WebSocket).
      reflexivity.
    + simpl. left. reflexivity.
    + reflexivity.
    + exists s1. split; [exact E1|]. apply E2. vm_compute. reflexivity.
Defined.

(** ** The backoff sequence *)



(** The factor has to be positive for the recurrence: with
    [reconnectionDelayGrowFactor: 0] the second delay is the sentinel [0],
    and the third is drawn afresh. *)
Lemma backoff_restarts_with_factor_zero :
  exists config s0 s',
    ReconnectingWebsocket true browser_table sample_url [] flat_options
    = (config, inr s0) /\
    run config sample_url [] s0 five_failures = inr s' /\
    Forall2 Qeq (delays_logged (since s0 s')) [150; 0; 100; 0; 100] /\
    ~ grows config (delays_logged (since s0 s')).
Proof.
  do 3 eexists. split; [vm_compute; reflexivity|].
  split; [vm_compute; reflexivity|].
  split.
  { set (d := delays_logged _). vm_compute in d. subst d.
    repeat (constructor; [vm_compute; reflexivity|]). constructor. }
  vm_compute. intros (_ & H & _). discriminate.
Qed.


(** A factor below one makes the delays decrease: with
    [reconnectionDelayGrowFactor: 0.5] they are [175] then [87.5]. *)
Lemma backoff_shrinks_below_factor_one :
  exists config s0 s',
    ReconnectingWebsocket true browser_table sample_url [] shrinking_options
    = (config, inr s0) /\
    run config sample_url [] s0 two_failures = inr s' /\
    Forall2 Qeq (delays_logged (since s0 s')) [175; 175 # 2] /\
    ~ nondecreasing (delays_logged (since s0 s')).
Proof.
  do 3 eexists. split; [vm_compute; reflexivity|].
  split; [vm_compute; reflexivity|].
  split.
  { set (d := delays_logged _). vm_compute in d. subst d.
    repeat (constructor; [vm_compute; reflexivity|]). constructor. }
  vm_compute. intros [H _]. apply H. reflexivity.
Qed.

(** ** The delay after an 'open' *)

Lemma live_update older k k' socket st :
  option_map readyState (nth_error (older ++ [k]) socket) = Some st ->
  st <> CLOSED ->
  (readyState k <> CLOSED -> readyState k' <> CLOSED) ->
  exists st',
    option_map readyState (nth_error (older ++ [k']) socket) = Some st' /\
    st' <> CLOSED.
Proof.
  intros Hst Hne Hk.
  destruct (lt_eq_lt_dec socket (List.length older)) as [[Hlt|Heq]|Hgt].
  - rewrite nth_error_older in * by assumption. eauto.
  - subst socket. rewrite nth_error_last in *. simpl in *.
    inversion Hst; subst. eauto.
  - rewrite nth_error_beyond in Hst by assumption. discriminate.
Qed.

Lemma live_grown l x socket st :
  option_map readyState (nth_error l socket) = Some st ->
  option_map readyState (nth_error (l ++ [x]) socket) = Some st.
Proof.
  intro H. rewrite nth_error_app1; auto.
  apply nth_error_Some. intro E. rewrite E in H. discriminate.
Qed.

Section AfterOpen.

Variable config : Config.
Variable url : string.
Variable protocols : list string.

Local Abbreviation Inv := (Inv config).
Local Abbreviation step := (step config url protocols).
Local Abbreviation run := (run config url protocols).
Local Abbreviation transition := (transition config url protocols).

(** Nothing but its 'close' event closes a socket. *)
Lemma transition_live s e s' socket st :
  transition s e s' ->
  (forall k random, e <> SocketCloses k random) ->
  state_of socket s = Some st -> st <> CLOSED ->
  exists st', state_of socket s' = Some st' /\ st' <> CLOSED.
Proof.
  unfold state_of. intros Ht He Hst Hne. destruct Ht.
  - eauto.
  - rewrite open_handler_eq. cbv zeta. simpl. rewrite H in Hst.
    apply (live_update older k _ socket st Hst Hne). simpl. discriminate.
  - exfalso. eapply He. reflexivity.
  - simpl. eauto.
  - apply connect_inr in H3 as (f & _ & ->). simpl.
    exists st. split; auto. now apply live_grown.
  - simpl. rewrite H2 in Hst.
    apply (live_update older k _ socket st Hst Hne). simpl.
    destruct (readyState k); congruence.
  - simpl. eauto.
  - simpl. rewrite H in Hst.
    apply (live_update older k _ socket st Hst Hne). simpl.
    destruct (readyState k); congruence.
  - simpl. rewrite H in Hst.
    apply (live_update older k _ socket st Hst Hne).
    unfold socket_addEventListener. cbv zeta. now destruct (existsb _ _).
  - simpl. rewrite H in Hst.
    apply (live_update older k _ socket st Hst Hne). auto.
  - simpl. rewrite H in Hst.
    apply (live_update older k _ socket st Hst Hne). auto.
Qed.

(** Between the events of the sockets, the delay and the retry count
    stay as they are and a socket that can fire still can. *)
Lemma quiet_run s events s' socket st :
  Inv s ->
  forallb (fun e => negb (is_socket_lifecycle e)) events = true ->
  run s events = inr s' ->
  state_of socket s = Some st -> st <> CLOSED ->
  Inv s' /\
  reconnectDelay s' = reconnectDelay s /\
  retriesCount s' = retriesCount s /\
  exists st', state_of socket s' = Some st' /\ st' <> CLOSED.
Proof.
  revert s st. induction events as [|e rest IH]; simpl;
    intros s st H Hq Hrun Hst Hne.
  - inversion Hrun; subst.
    split; [assumption|]. split; [reflexivity|]. split; [reflexivity|].
    eauto.
  - apply andb_true_iff in Hq as [He Hrest].
    destruct (step_Inv config url protocols s e H) as (s1 & Hstep & H1).
    rewrite Hstep in Hrun. simpl in Hrun.
    pose proof (step_transition config url protocols s e s1 H Hstep) as Ht.
    destruct (transition_live s e s1 socket st Ht) as (st1 & Hst1 & Hne1);
      auto.
    { intros k random ->. discriminate. }
    destruct (transition_effect config url protocols s e s1 Ht)
      as (l & _ & Heff).
    destruct (IH s1 st1 H1 Hrest Hrun Hst1 Hne1) as (H' & Hd & Hr & Hlive).
    assert (reconnectDelay s1 = reconnectDelay s /\
            retriesCount s1 = retriesCount s) as [Ed Er].
    { destruct e; simpl in He; try discriminate; tauto. }
    split; [assumption|]. split; [congruence|]. split; [congruence|].
    exact Hlive.
Qed.

(** C1, amended.  After any successful 'open', [reconnectDelay] is
    drawn anew: it is [m + random * m], between [m] and [2m] (both ends
    included) for [m = minReconnectionDelay > 0], whatever the backoff
    chain before.  The first 'close' after that 'open' then grows it once:
    the delay used for that failure, and the one the retry waits for, is
    [min ((m + random * m) * growFactor) maxReconnectionDelay] (when
    [maxRetries >= 1]). *)
Theorem delay_after_open s socket random between random' :
  0 < minReconnectionDelay config ->
  reachable config url protocols s ->
  state_of socket s = Some CONNECTING ->
  0 <= random -> random < 1 ->
  forallb (fun e => negb (is_socket_lifecycle e)) between = true ->
  exceeds 1 (maxRetries config) = false ->
  exists s1 s2 s3,
    step s (SocketOpens socket random) = inr s1 /\
    run s1 between = inr s2 /\
    step s2 (SocketCloses socket random') = inr s3 /\
    reconnectDelay s1
    = minReconnectionDelay config + random * minReconnectionDelay config /\
    minReconnectionDelay config <= reconnectDelay s1 /\
    reconnectDelay s1 <= 2 * minReconnectionDelay config /\
    reconnectDelay s3
    == Qmin ((minReconnectionDelay config
              + random * minReconnectionDelay config)
             * reconnectionDelayGrowFactor config)
            (maxReconnectionDelay config) /\
    delays_logged (since s2 s3) = [reconnectDelay s3] /\
    (shouldRetry s2 = true ->
     In (mkTimer (next_timer s2) (reconnectDelay s3) ConnectTask)
        (timers s3)).
Proof.
  intros Hm Hreach Hst H0 H1 Hq Hx.
  pose proof (reachable_Inv config url protocols s Hreach) as H.
  destruct (step_Inv config url protocols s (SocketOpens socket random) H)
    as (s1 & Hstep1 & Hi1).
  destruct (run_Inv config url protocols s1 between Hi1)
    as (s2 & Hrun & Hi2).
  destruct (step_Inv config url protocols s2 (SocketCloses socket random') Hi2)
    as (s3 & Hstep3 & Hi3).
  exists s1, s2, s3. do 3 (split; [assumption|]).
  (* the 'open' *)
  destruct (step_opens config url protocols s socket random H Hst)
    as (older & k & users & E & -> & Hk & Ha & Hstep1').
  rewrite Hstep1' in Hstep1. injection Hstep1 as Hs1.
  assert (Hd1 : reconnectDelay s1 = initReconnectionDelay config random).
  { rewrite <- Hs1, open_handler_eq. reflexivity. }
  assert (Hr1 : retriesCount s1 = 0%nat).
  { rewrite <- Hs1, open_handler_eq. reflexivity. }
  assert (Hst1 : state_of (List.length older) s1 = Some OPEN).
  { rewrite <- Hs1, open_handler_eq. unfold state_of. simpl.
    now rewrite nth_error_last. }
  destruct (init_within config random (Qlt_le_weak _ _ Hm) H0 H1)
    as [Hlo Hhi].
  split; [exact Hd1|]. rewrite Hd1. do 2 (split; [assumption|]).
  (* the events in between *)
  destruct (quiet_run s1 between s2 _ OPEN Hi1 Hq Hrun Hst1)
    as (_ & Hd2 & Hr2 & st2 & Hst2 & Hne2); [discriminate|].
  (* the 'close' *)
  destruct (step_closes config url protocols s2 _ random' st2 Hi2 Hst2 Hne2)
    as (older2 & k2 & users2 & E2 & _ & Hk2 & _ & Hstep3').
  rewrite Hstep3' in Hstep3. injection Hstep3 as Hs3.
  assert (Hnext : next_delay config random'
                    (set_sockets (older2 ++ [set_readyState CLOSED k2]) s2)
                  = updateReconnectionDelay config
                      (initReconnectionDelay config random)).
  { unfold next_delay.
    change (reconnectDelay (set_sockets _ s2)) with (reconnectDelay s2).
    rewrite Hd2, Hd1.
    assert (is_unset (initReconnectionDelay config random) = false) as ->;
      [|reflexivity].
    apply is_unset_false. lra. }
  rewrite close_handler_eq in Hs3. cbv zeta in Hs3.
  change (retriesCount (set_sockets _ s2)) with (retriesCount s2) in Hs3.
  rewrite Hr2, Hr1, Hx, Hnext in Hs3.
  assert (Hd3 : reconnectDelay s3
                = updateReconnectionDelay config
                    (initReconnectionDelay config random))
    by (rewrite <- Hs3; reflexivity).
  rewrite Hd3. split; [apply update_is_min|]. split.
  - erewrite since_app
      by (rewrite <- Hs3; simpl; rewrite <- app_assoc; reflexivity).
    rewrite delays_logged_app, user_calls_delays. reflexivity.
  - intro Hsr. rewrite <- Hs3. simpl.
    change (shouldRetry (set_sockets (older2 ++ [set_readyState CLOSED k2]) s2))
      with (shouldRetry s2).
    rewrite Hsr. apply in_or_app. right. left.
    now destruct s2.
Qed.

End AfterOpen.

Lemma delay_after_open_witness :
  let s := constructed browser_table empty_options in
  exists s1 s2 s3,
    step browser_table sample_url [] s (SocketOpens 0%nat (9 # 10)) = inr s1 /\
    run browser_table sample_url [] s1
        [SocketEmits 0%nat "message"; TimerFires 1%nat] = inr s2 /\
    step browser_table sample_url [] s2 (SocketCloses 0%nat (1 # 2)) = inr s3 /\
    reconnectDelay s1 = 1500 + (9 # 10) * 1500 /\
    1500 <= reconnectDelay s1 /\
    reconnectDelay s1 <= 2 * 1500 /\
    reconnectDelay s3 == Qmin ((1500 + (9 # 10) * 1500) * (13 # 10)) 10000 /\
    delays_logged (since s2 s3) = [reconnectDelay s3] /\
    (shouldRetry s2 = true ->
     In (mkTimer (next_timer s2) (reconnectDelay s3) ConnectTask)
        (timers s3)).
Proof.
  apply (delay_after_open browser_table sample_url []
           (constructed browser_table empty_options) 0%nat (9 # 10)
           [SocketEmits 0%nat "message"; TimerFires 1%nat] (1 # 2)).
  - reflexivity.
  - apply (constructed_reachable browser_table empty_options WebSocket).
    reflexivity.
  - reflexivity.
  - discriminate.
  - reflexivity.
  - reflexivity.
  - reflexivity.
Defined.

(** With the default options, an 'open' that draws [0.9] followed by a
    'close': the delay used for the retry is [3705], outside
    [1500, 3000). *)
Lemma open_then_close_outside_range :
  exists config s0 s',
    ReconnectingWebsocket true browser_table sample_url [] empty_options
    = (config, inr s0) /\
    run config sample_url [] s0
        [SocketOpens 0%nat (9 # 10); SocketCloses 0%nat (1 # 2)] = inr s' /\
    reconnectDelay s' == 3705 /\
    In (mkTimer 2%nat (reconnectDelay s') ConnectTask) (timers s') /\
    ~ (minReconnectionDelay config <= reconnectDelay s' /\
       reconnectDelay s' < 2 * minReconnectionDelay config).
Proof.
  do 3 eexists. split; [vm_compute; reflexivity|].
  split; [vm_compute; reflexivity|].
  split; [vm_compute; reflexivity|].
  split; [vm_compute; left; reflexivity|].
  vm_compute. intros [_ H]. discriminate.
Qed.

(** ** Listeners *)

Lemma socket_add_twice type cb options k :
  socket_addEventListener type cb options
    (socket_addEventListener type cb options k)
  = socket_addEventListener type cb options k.
Proof.
  unfold socket_addEventListener at 2. cbv zeta.
  destruct (existsb _ (attached k)) eqn:E.
  - unfold socket_addEventListener. cbv zeta. now rewrite E.
  - unfold socket_addEventListener. cbv zeta.
    cbn [attached set_attached].
    rewrite existsb_app. cbn [existsb].
    assert (same_registration type cb (capture_of options)
              (type, cb, capture_of options) = true) as ->
        by now apply same_registration_eq.
    rewrite E. reflexivity.
Qed.

Lemma update_nth_twice {A : Type} (f : A -> A) n (l : list A) :
  (forall x, f (f x) = f x) ->
  update_nth n f (update_nth n f l) = update_nth n f l.
Proof.
  intro H. revert n. induction l as [|x l IH]; intros [|n]; simpl; auto.
  - now rewrite H.
  - now rewrite IH.
Qed.

(** Calling [addEventListener] twice with the same arguments is calling it
    once. *)
Lemma addEventListener_twice type listener options s :
  bind (addEventListener type listener options s)
       (addEventListener type listener options)
  = addEventListener type listener options s.
Proof.
  unfold addEventListener, deref_ws. cbv zeta.
  destruct s as [w ct rd rc sr ls ss ts nt tr]. simpl.
  destruct w as [n|]; simpl; [|reflexivity].
  unfold on_socket. simpl.
  rewrite register_twice, update_nth_twice; auto.
  intro x. apply socket_add_twice.
Qed.

Lemma registrations_store_other type type' listener entries registry :
  type' <> type ->
  registrations type listener (store type' entries registry)
  = registrations type listener registry.
Proof.
  intro H. unfold registrations. now rewrite lookup_store_other.
Qed.

Lemma count_filter_other listener listener' entries :
  listener' <> listener ->
  List.length
    (filter (is_listener listener)
       (filter (fun e => negb (is_listener listener' e)) entries))
  = List.length (filter (is_listener listener) entries).
Proof.
  intro H. induction entries as [|e rest IH]; simpl; auto.
  destruct (is_listener listener' e) eqn:E1;
    destruct (is_listener listener e) eqn:E2; simpl; rewrite ?E2; simpl; auto.
  unfold is_listener in E1, E2.
  apply Nat.eqb_eq in E1. apply Nat.eqb_eq in E2. congruence.
Qed.

(** Registering or removing another pair leaves the count of this one. *)
Lemma registrations_register_other type listener type' listener' options registry :
  is_registration type listener (type', listener', options) = false ->
  registrations type listener (register type' listener' options registry)
  = registrations type listener registry.
Proof.
  unfold is_registration. simpl. intro H. unfold register.
  destruct (String.eqb type' type) eqn:Et.
  - apply String.eqb_eq in Et. subst type'. simpl in H.
    apply Nat.eqb_neq in H.
    unfold registrations.
    destruct (lookup type registry) as [entries|] eqn:E.
    + destruct (existsb (is_listener listener') entries); simpl.
      * now rewrite E.
      * rewrite lookup_store_same, filter_app, length_app. simpl.
        unfold is_listener at 2. simpl.
        apply Nat.eqb_neq in H. rewrite H. simpl. lia.
    + rewrite lookup_store_same. simpl. unfold is_listener. simpl.
      apply Nat.eqb_neq in H. now rewrite H.
  - apply String.eqb_neq in Et.
    destruct (lookup type' registry) as [entries|].
    + destruct (existsb _ _); simpl; auto.
      now apply registrations_store_other.
    + now apply registrations_store_other.
Qed.

Lemma registrations_unregister_other type listener type' listener' registry :
  String.eqb type' type && Nat.eqb listener' listener = false ->
  registrations type listener (unregister type' listener' registry)
  = registrations type listener registry.
Proof.
  intro H. unfold unregister.
  destruct (lookup type' registry) as [entries|] eqn:E; auto.
  destruct (String.eqb type' type) eqn:Et.
  - apply String.eqb_eq in Et. subst type'. simpl in H.
    apply Nat.eqb_neq in H.
    unfold registrations. rewrite lookup_store_same, E.
    now apply count_filter_other.
  - apply String.eqb_neq in Et. now apply registrations_store_other.
Qed.

(** The registry, as [connect] walks it, holds a pair as often as
    [registrations] counts it. *)
Lemma reassigned_count type listener registry :
  NoDup (map fst registry) ->
  List.length (filter (is_registration type listener) (reassigned registry))
  = registrations type listener registry.
Proof.
  unfold registrations.
  induction registry as [|[t entries] rest IH]; simpl; intro Hn; auto.
  inversion Hn as [|? ? Hx Hrest]; subst.
  rewrite filter_app, length_app, (IH Hrest).
  destruct (String.eqb t type) eqn:Et.
  - apply String.eqb_eq in Et. subst t.
    assert (lookup type rest = None) as -> by now apply lookup_None.
    rewrite Nat.add_0_r. clear.
    induction entries as [|[l o] es IHe]; simpl; auto.
    unfold is_registration at 1, is_listener at 1. simpl.
    rewrite String.eqb_refl. simpl.
    destruct (Nat.eqb l listener); simpl; now rewrite IHe.
  - assert (List.length
              (filter (is_registration type listener)
                 (map (fun '(l, o) => (t, l, o)) entries)) = 0%nat) as ->;
      [|reflexivity].
    clear - Et. induction entries as [|[l o] es IHe]; simpl; auto.
    unfold is_registration at 1. simpl. now rewrite Et.
Qed.

Lemma reassigned_keys_NoDup registry :
  registry_ok registry ->
  NoDup (map (fun c => (fst (fst c), snd (fst c))) (reassigned registry)).
Proof.
  intros [Hk He].
  induction registry as [|[t entries] rest IH]; simpl; [constructor|].
  inversion Hk as [|? ? Hx Hrest]; subst.
  inversion He as [|? ? Hent Herest]; subst. simpl in Hent.
  rewrite map_app. apply NoDup_app.
  - clear - Hent. induction entries as [|[l o] es IHe]; simpl; [constructor|].
    inversion Hent as [|? ? Hl Hes]; subst. constructor; auto.
    intro Hin. apply Hl. apply in_map_iff in Hin as ([[t' l'] o'] & E & Hin).
    simpl in E. inversion E; subst.
    apply in_map_iff in Hin as ([l2 o2] & E2 & Hin2). inversion E2; subst.
    apply in_map_iff. exists (l, o'). auto.
  - now apply IH.
  - intros [t' l'] Hin1 Hin2. apply Hx.
    apply in_map_iff in Hin1 as ([[t1 l1] o1] & E1 & Hin1). simpl in E1.
    inversion E1; subst.
    apply in_map_iff in Hin1 as ([l2 o2] & E2 & _). inversion E2; subst.
    apply in_map_iff in Hin2 as ([[t3 l3] o3] & E3 & Hin3). simpl in E3.
    inversion E3; subst.
    unfold reassigned in Hin3. apply in_flat_map in Hin3 as ([t4 es4] & Hin4 & Hin5).
    apply in_map_iff in Hin5 as ([l5 o5] & E5 & _). inversion E5; subst.
    apply in_map_iff. exists (t', es4). auto.
Qed.

(** Distinct pairs, none of them attached yet, are all attached, in
    order. *)
Lemma attach_all_fresh calls k :
  NoDup (map (fun c => (fst (fst c), snd (fst c))) calls) ->
  forallb (fun e => negb (is_user e)) (attached k) = true ->
  attached (attach_all calls k) = attached k ++ map as_attached calls.
Proof.
  intros Hn Hk.
  assert (Hgen : forall base,
             (forall c, In c calls -> ~ In (as_attached c) base) ->
             forall k0, attached k0 = base ->
             attached (attach_all calls k0) = base ++ map as_attached calls).
  { clear Hk. induction calls as [|[[t l] o] rest IH]; simpl; intros base Hb k0 E.
    - now rewrite app_nil_r.
    - inversion Hn as [|? ? Hx Hrest]; subst. simpl in Hx.
      assert (Hnew : attached (socket_addEventListener t (UserListener l) o k0)
                     = attached k0 ++ [(t, UserListener l, capture_of o)]).
      { unfold socket_addEventListener. cbv zeta.
        destruct (existsb _ _) eqn:Ex; [|reflexivity].
        apply existsb_exists in Ex as (e & Hin & He).
        apply same_registration_eq in He. subst e.
        exfalso. apply (Hb (t, l, o)); auto. }
      rewrite (IH Hrest (attached k0 ++ [(t, UserListener l, capture_of o)])).
      + now rewrite <- app_assoc.
      + intros [[t' l'] o'] Hin Hin'. apply in_app_or in Hin' as [Hin'|[E'|[]]].
        * apply (Hb (t', l', o')); auto.
        * simpl in E'. inversion E'; subst. apply Hx.
          apply in_map_iff. exists (t', l', o'). auto.
      + exact Hnew. }
  apply Hgen; auto.
  intros [[t l] o] _ Hin. rewrite forallb_forall in Hk.
  apply Hk in Hin. discriminate.
Qed.

Lemma connected_socket_attached f url protocols registry :
  registry_ok registry ->
  attached (connected_socket f url protocols registry)
  = own_handlers ++ map as_attached (reassigned registry).
Proof.
  intro H. unfold connected_socket.
  rewrite attach_all_fresh.
  - reflexivity.
  - now apply reassigned_keys_NoDup.
  - reflexivity.
Qed.

(** A socket calls a listener as often as it is attached for the type. *)
Lemma deliveries_user_calls socket type listener calls :
  deliveries socket type listener
    (user_calls socket type (map as_attached calls))
  = List.length (filter (is_registration type listener) calls).
Proof.
  unfold deliveries, user_calls.
  induction calls as [|[[t l] o] rest IH]; simpl; auto.
  rewrite filter_app, length_app, IH.
  unfold is_registration at 2. simpl.
  destruct (String.eqb t type) eqn:Et; simpl; auto.
  rewrite Nat.eqb_refl, String.eqb_refl. simpl.
  destruct (Nat.eqb l listener); reflexivity.
Qed.

Lemma as_attached_users calls :
  forallb is_user (map as_attached calls) = true.
Proof.
  induction calls as [|[[t l] o] rest IH]; simpl; auto.
Qed.

Section Listeners.

Variable config : Config.
Variable url : string.
Variable protocols : list string.

Local Abbreviation Inv := (Inv config).
Local Abbreviation step := (step config url protocols).
Local Abbreviation run := (run config url protocols).
Local Abbreviation transition := (transition config url protocols).

(** An event of the socket made last reaches a listener of the caller as
    often as the listener is attached. *)
Lemma dispatch_deliveries s older k calls type listener random :
  sockets s = older ++ [k] ->
  attached k = own_handlers ++ map as_attached calls ->
  deliveries (List.length older) type listener
    (since s (dispatch config (List.length older) type random s))
  = List.length (filter (is_registration type listener) calls).
Proof.
  intros E Ha.
  pose proof (as_attached_users calls) as Hu.
  destruct (String.eqb type "open") eqn:Eo.
  { apply String.eqb_eq in Eo. subst type.
    rewrite (dispatch_open config s older k _ random E Ha Hu).
    rewrite open_handler_eq. cbv zeta.
    erewrite since_app by (simpl; rewrite <- app_assoc; reflexivity).
    rewrite deliveries_app, deliveries_user_calls. reflexivity. }
  destruct (String.eqb type "close") eqn:Ec.
  { apply String.eqb_eq in Ec. subst type.
    rewrite (dispatch_close config s older k _ random E Ha Hu).
    rewrite close_handler_eq. cbv zeta.
    destruct (exceeds _ _).
    - erewrite since_app by (simpl; rewrite <- app_assoc; reflexivity).
      rewrite deliveries_app, deliveries_user_calls. reflexivity.
    - erewrite since_app by (simpl; rewrite <- app_assoc; reflexivity).
      rewrite deliveries_app, deliveries_user_calls. reflexivity. }
  rewrite (dispatch_other config s older k _ type random E Ha Hu).
  - erewrite since_app by (simpl; reflexivity).
    apply deliveries_user_calls.
  - unfold is_lifecycle. now rewrite Eo, Ec.
Qed.



End Listeners.

(** * Further properties of the code *)

(** ** Induction over the states of an instance *)

Lemma reachable_induction config url protocols (P : State -> Prop) :
  (forall s0, start config url protocols = inr s0 -> P s0) ->
  (forall s e s',
      Inv config s -> P s -> draw_ok e ->
      transition config url protocols s e s' -> P s') ->
  forall s, reachable config url protocols s -> P s.
Proof.
  intros Hbase Hstep s (s0 & events & Hstart & Hdraw & Hrun).
  assert (exists f, constructor config = Some f) as [f Hf].
  { unfold start, connect in Hstart.
    destruct (constructor config) as [f|]; [eauto | discriminate]. }
  destruct (start_Inv config url protocols f Hf) as (s0' & E & H0).
  rewrite Hstart in E. injection E as <-.
  pose proof (Hbase s0 Hstart) as HP.
  clear Hstart Hbase. revert s0 H0 HP Hrun.
  induction Hdraw as [|e rest He Hrest IH]; simpl; intros s0 H0 HP Hrun.
  - injection Hrun as <-. exact HP.
  - destruct (step_Inv config url protocols s0 e H0) as (s1 & Hs & H1).
    rewrite Hs in Hrun. simpl in Hrun.
    apply (IH s1 H1); auto.
    apply (Hstep s0 e s1); auto.
    now apply step_transition.
Qed.

Lemma start_state config url protocols s0 :
  start config url protocols = inr s0 ->
  exists f,
    constructor config = Some f /\
    s0 = mkState (Some 0%nat) (Some 1%nat) 0 0%nat true []
           [connected_socket f url protocols []]
           [mkTimer 1%nat (connectionTimeout config) TimeoutTask] 2%nat
           [Logged LogInit; Logged LogConnect; Logged LogBypass].
Proof.
  unfold start. intro H. apply connect_inr in H as (f & Hf & ->).
  exists f. split; [exact Hf | reflexivity].
Qed.

Lemma run_app config url protocols s events events' :
  run config url protocols s (events ++ events')
  = bind (run config url protocols s events)
         (fun s' => run config url protocols s' events').
Proof.
  revert s. induction events as [|e rest IH]; simpl; intro s; auto.
  destruct (step config url protocols s e); simpl; auto.
Qed.

Lemma run_reachable config url protocols s events s' :
  reachable config url protocols s ->
  Forall draw_ok events ->
  run config url protocols s events = inr s' ->
  reachable config url protocols s'.
Proof.
  intros (s0 & before & Hstart & Hdraw & Hrun) Hdraw' Hrun'.
  exists s0, (before ++ events). split; [exact Hstart|]. split.
  - apply Forall_app. auto.
  - rewrite run_app, Hrun. exact Hrun'.
Qed.

(** The states of the sample runs. *)
Lemma after_reachable table options f events :
  constructor (set_config table options) = Some f ->
  Forall draw_ok events ->
  (exists s', run (set_config table options) sample_url []
                (constructed table options) events = inr s') ->
  reachable (set_config table options) sample_url []
    (after (set_config table options) (constructed table options) events).
Proof.
  intros Hf Hdraw [s' Hrun].
  apply (run_reachable _ _ _ (constructed table options) events).
  - now apply (constructed_reachable table options f).
  - exact Hdraw.
  - unfold after. now rewrite Hrun.
Qed.

Ltac draws :=
  repeat (constructor;
          [first [exact I | split; [discriminate | reflexivity]]|]);
  constructor.

(** ** One socket at a time *)

(** X1.  At any time at most one socket can still fire an event: it is the
    one [ws] names, the last one made, and while there is one no retry is
    waiting on a timer.  At most one retry is ever waiting. *)
Theorem one_live_socket config url protocols s :
  reachable config url protocols s ->
  (scheduled_connects s <= 1)%nat /\
  forall socket st,
    state_of socket s = Some st -> st <> CLOSED ->
    ws s = Some socket /\
    S socket = List.length (sockets s) /\
    scheduled_connects s = 0%nat.
Proof.
  intro Hreach.
  pose proof (reachable_Inv config url protocols s Hreach) as H.
  split.
  - destruct (inv_connects _ _ H) as [E|[E _]]; lia.
  - intros socket st Hst Hne.
    destruct (live_current config s socket st H Hst Hne)
      as (older & k & users & E & -> & Hk & Hws & _).
    split; [exact Hws|]. split.
    + rewrite E, length_app. simpl. lia.
    + apply (Inv_live config s older k H E).
      unfold is_closed. rewrite Hk. now destruct st.
Qed.

Lemma one_live_socket_witness :
  let s := after browser_table (constructed browser_table empty_options)
             [SocketCloses 0%nat (1 # 2); TimerFires 2%nat] in
  (scheduled_connects s <= 1)%nat /\
  forall socket st,
    state_of socket s = Some st -> st <> CLOSED ->
    ws s = Some socket /\
    S socket = List.length (sockets s) /\
    scheduled_connects s = 0%nat.
Proof.
  apply (one_live_socket browser_table sample_url []).
  apply (after_reachable browser_table empty_options WebSocket).
  - reflexivity.
  - draws.
  - eexists. vm_compute. reflexivity.
Defined.

(** ** Where the sockets come from *)

Lemma made_as_update f url protocols older k k' :
  made_by k' = made_by k -> sock_url k' = sock_url k ->
  sock_protocols k' = sock_protocols k ->
  Forall (made_as f url protocols) (older ++ [k]) ->
  Forall (made_as f url protocols) (older ++ [k']).
Proof.
  intros E1 E2 E3 H. apply Forall_app in H as [Ho Hk].
  apply Forall_app. split; auto.
  inversion Hk as [|? ? Hm _]; subst.
  destruct Hm as (M1 & M2 & M3).
  repeat constructor; congruence.
Qed.

Lemma socket_add_origin type cb options k :
  made_by (socket_addEventListener type cb options k) = made_by k /\
  sock_url (socket_addEventListener type cb options k) = sock_url k /\
  sock_protocols (socket_addEventListener type cb options k)
  = sock_protocols k /\
  onerror (socket_addEventListener type cb options k) = onerror k /\
  readyState (socket_addEventListener type cb options k) = readyState k.
Proof.
  unfold socket_addEventListener. cbv zeta.
  destruct (existsb _ _); repeat split; reflexivity.
Qed.

Lemma attach_all_origin calls k :
  made_by (attach_all calls k) = made_by k /\
  sock_url (attach_all calls k) = sock_url k /\
  sock_protocols (attach_all calls k) = sock_protocols k /\
  onerror (attach_all calls k) = onerror k /\
  readyState (attach_all calls k) = readyState k.
Proof.
  revert k. induction calls as [|[[t l] o] rest IH]; simpl; intro k.
  - repeat split; reflexivity.
  - destruct (IH (socket_addEventListener t (UserListener l) o k))
      as (-> & -> & -> & -> & ->).
    apply socket_add_origin.
Qed.

Lemma connected_socket_origin f url protocols registry :
  made_as f url protocols (connected_socket f url protocols registry) /\
  onerror (connected_socket f url protocols registry) = None /\
  readyState (connected_socket f url protocols registry) = CONNECTING.
Proof.
  unfold connected_socket, made_as.
  destruct (attach_all_origin (reassigned registry)
              (socket_addEventListener "close" CloseHandler NoOptions
                 (socket_addEventListener "open" OpenHandler NoOptions
                    (new_socket f url protocols))))
    as (-> & -> & -> & -> & ->).
  repeat split; reflexivity.
Qed.

Lemma start_made_as config url protocols f s0 :
  constructor config = Some f ->
  start config url protocols = inr s0 ->
  Forall (made_as f url protocols) (sockets s0).
Proof.
  intros Hf Hstart. apply start_state in Hstart as (f' & Hf' & ->).
  rewrite Hf in Hf'. injection Hf' as <-. simpl.
  repeat constructor; apply connected_socket_origin.
Qed.

Lemma transition_made_as config url protocols f s e s' :
  constructor config = Some f ->
  transition config url protocols s e s' ->
  Forall (made_as f url protocols) (sockets s) ->
  Forall (made_as f url protocols) (sockets s').
Proof.
  intros Hf Ht IH. destruct Ht; auto.
  - rewrite open_handler_eq. simpl. rewrite H in IH.
    now apply (made_as_update f url protocols older k).
  - rewrite close_handler_eq. cbv zeta.
    assert (Hs : forall (b : bool) (x y : State),
               sockets x = sockets y -> sockets (if b then x else y) = sockets y)
      by (intros [] ? ? ?; auto).
    simpl. rewrite Hs by reflexivity. simpl. rewrite H in IH.
    now apply (made_as_update f url protocols older k).
  - apply connect_inr in H3 as (f' & Hf' & ->).
    rewrite Hf in Hf'. injection Hf' as <-. simpl.
    apply Forall_app. split; auto.
    repeat constructor; apply connected_socket_origin.
  - simpl. rewrite H2 in IH.
    now apply (made_as_update f url protocols older k).
  - simpl. rewrite H in IH.
    now apply (made_as_update f url protocols older k).
  - simpl. rewrite H in IH.
    apply (made_as_update f url protocols older k); auto;
      apply socket_add_origin.
  - simpl. rewrite H in IH.
    now apply (made_as_update f url protocols older k).
  - simpl. rewrite H in IH.
    now apply (made_as_update f url protocols older k).
Qed.

(** X2.  Every socket of an instance was made by the configured
    constructor, for the [url] and [protocols] the instance was given. *)
Theorem sockets_made_as_configured config url protocols s :
  reachable config url protocols s ->
  exists f,
    constructor config = Some f /\
    Forall (made_as f url protocols) (sockets s).
Proof.
  intro Hreach.
  destruct (inv_factory _ _ (reachable_Inv config url protocols s Hreach))
    as [f Hf].
  exists f. split; [exact Hf|].
  revert s Hreach. apply reachable_induction.
  - intros s0 Hstart. now apply (start_made_as config url protocols f).
  - intros s e s' _ IH _ Ht.
    now apply (transition_made_as config url protocols f s e s').
Qed.

Lemma sockets_made_as_configured_witness :
  let s := after browser_table (constructed browser_table empty_options)
             [SocketCloses 0%nat (1 # 2); TimerFires 2%nat] in
  exists f,
    constructor browser_table = Some f /\
    Forall (made_as f sample_url []) (sockets s).
Proof.
  apply (sockets_made_as_configured browser_table sample_url []).
  apply (after_reachable browser_table empty_options WebSocket).
  - reflexivity.
  - draws.
  - eexists. vm_compute. reflexivity.
Defined.

(** ** The retry count *)

Lemma count_close_user_calls socket type users n :
  fold_left count_close (user_calls socket type users) n = n.
Proof.
  unfold user_calls. revert n.
  induction users as [|[[t c] b] rest IH]; simpl; intro n; auto.
  rewrite fold_left_app, IH.
  destruct (String.eqb t type); auto. destruct c; reflexivity.
Qed.

Lemma count_close_error_calls code s n :
  fold_left count_close (error_calls code s) n = n.
Proof.
  unfold error_calls. rewrite fold_left_app.
  assert (forall (entries : list (ListenerRef * ListenerOptions)) m,
             fold_left count_close
               (map (fun e => ErrorListenerCalled code (fst e)) entries) m
             = m) as Hmap.
  { induction entries; simpl; auto. }
  destruct (lookup _ _); rewrite ?Hmap; simpl;
    destruct (ws s) as [k|]; auto;
    destruct (nth_error _ _) as [x|]; auto;
    destruct (onerror x); auto.
Qed.

(** X3.  [retriesCount] is the number of 'close' events the instance has
    handled since the last 'open' it handled (since construction when
    there was none): set to [0] by 'open', incremented once by each
    'close', touched by nothing else. *)
Theorem retries_count_counts_closes config url protocols s :
  reachable config url protocols s ->
  retriesCount s = closes_since_open (trace s).
Proof.
  revert s.
  apply (reachable_induction config url protocols
           (fun s => retriesCount s = closes_since_open (trace s))).
  - intros s0 Hstart. apply start_state in Hstart as (f & _ & ->).
    reflexivity.
  - intros s e s' _ IH _ Ht. unfold closes_since_open in *.
    destruct Ht; auto.
    + rewrite open_handler_eq. simpl.
      rewrite !fold_left_app, count_close_user_calls. reflexivity.
    + rewrite close_handler_eq. cbv zeta. simpl.
      destruct (exceeds _ _); simpl;
        rewrite !fold_left_app, count_close_user_calls; simpl;
        now rewrite IH.
    + simpl. now rewrite fold_left_app, count_close_user_calls.
    + apply connect_inr in H3 as (f & _ & ->). simpl.
      rewrite fold_left_app. simpl. exact IH.
    + simpl. rewrite !fold_left_app. simpl. exact IH.
    + simpl. now rewrite fold_left_app, count_close_error_calls.
Qed.

Lemma retries_count_counts_closes_witness :
  let s := after browser_table (constructed browser_table empty_options)
             [SocketCloses 0%nat (1 # 2); TimerFires 2%nat;
              SocketOpens 1%nat 0; SocketCloses 1%nat 0] in
  retriesCount s = closes_since_open (trace s).
Proof.
  apply (retries_count_counts_closes browser_table sample_url []).
  apply (after_reachable browser_table empty_options WebSocket).
  - reflexivity.
  - draws.
  - eexists. vm_compute. reflexivity.
Defined.

(** ** An unbounded retry budget *)

Lemma transition_no_hostdown config url protocols s e s' :
  transition config url protocols s e s' ->
  (forall n, exceeds n (maxRetries config) = false) ->
  emitted EHOSTDOWN (trace s') = emitted EHOSTDOWN (trace s).
Proof.
  intros Ht Hx. destruct Ht; auto.
  - rewrite open_handler_eq. simpl.
    rewrite !emitted_app, user_calls_emitted. unfold emitted at 2. simpl. lia.
  - rewrite close_handler_eq. cbv zeta. rewrite Hx. simpl.
    rewrite !emitted_app, user_calls_emitted. unfold emitted at 2. simpl. lia.
  - simpl. rewrite emitted_app, user_calls_emitted. lia.
  - apply connect_inr in H3 as (f & _ & ->). simpl.
    rewrite emitted_app. unfold emitted at 2. simpl. lia.
  - simpl. rewrite !emitted_app. unfold emitted at 2 3. simpl. lia.
  - simpl. rewrite emitted_app, error_calls_emitted. lia.
Qed.

(** X4.  With [maxRetries: Infinity], the default, the instance never
    gives up: [EHOSTDOWN] is never emitted, and as long as [close()] has
    not been called every 'close' event schedules one [connect], after
    the delay it has just computed. *)
Theorem unbounded_budget_never_gives_up config url protocols s :
  maxRetries config = Infinity ->
  reachable config url protocols s ->
  emitted EHOSTDOWN (trace s) = 0%nat /\
  forall socket st random,
    state_of socket s = Some st -> st <> CLOSED ->
    shouldRetry s = true ->
    exists s',
      step config url protocols s (SocketCloses socket random) = inr s' /\
      In (mkTimer (next_timer s) (next_delay config random s) ConnectTask)
         (timers s') /\
      scheduled_connects s' = 1%nat /\
      reconnectDelay s' = next_delay config random s.
Proof.
  intros Hinf Hreach.
  assert (Hx : forall n, exceeds n (maxRetries config) = false)
    by (intro n; rewrite Hinf; reflexivity).
  split.
  - revert s Hreach.
    apply (reachable_induction config url protocols
             (fun s => emitted EHOSTDOWN (trace s) = 0%nat)).
    + intros s0 Hstart. apply start_state in Hstart as (f & _ & ->).
      reflexivity.
    + intros s e s' _ IH _ Ht.
      now rewrite (transition_no_hostdown config url protocols s e s' Ht Hx).
  - intros socket st random Hst Hne Hretry.
    pose proof (reachable_Inv config url protocols s Hreach) as H.
    destruct (step_closes config url protocols s socket random st H Hst Hne)
      as (older & k & users & E & -> & Hk & Ha & ->).
    destruct (Inv_live config s older k H E) as [Hsc _].
    { unfold is_closed. rewrite Hk. now destruct st. }
    eexists. split; [reflexivity|].
    rewrite close_handler_eq. cbv zeta. rewrite Hx.
    unfold scheduled_connects in *. simpl. rewrite Hretry.
    split; [|split].
    + apply in_or_app. right. left. reflexivity.
    + rewrite filter_app, length_app, Hsc. reflexivity.
    + reflexivity.
Qed.

Lemma unbounded_budget_never_gives_up_witness :
  let s := after browser_table (constructed browser_table empty_options)
             [SocketCloses 0%nat (1 # 2); TimerFires 2%nat] in
  emitted EHOSTDOWN (trace s) = 0%nat /\
  forall socket st random,
    state_of socket s = Some st -> st <> CLOSED ->
    shouldRetry s = true ->
    exists s',
      step browser_table sample_url [] s (SocketCloses socket random)
      = inr s' /\
      In (mkTimer (next_timer s) (next_delay browser_table random s)
            ConnectTask)
         (timers s') /\
      scheduled_connects s' = 1%nat /\
      reconnectDelay s' = next_delay browser_table random s.
Proof.
  apply (unbounded_budget_never_gives_up browser_table sample_url []).
  - reflexivity.
  - apply (after_reachable browser_table empty_options WebSocket).
    + reflexivity.
    + draws.
    + eexists. vm_compute. reflexivity.
Defined.

(** ** After close() *)

(** Once [shouldRetry] is false it stays false, and the attempts made plus
    the retries still waiting never grow. *)
Lemma transition_latched config url protocols s e s' :
  transition config url protocols s e s' ->
  shouldRetry s = false ->
  shouldRetry s' = false /\
  (attempts (trace s') + scheduled_connects s'
   <= attempts (trace s) + scheduled_connects s)%nat.
Proof.
  intros Ht Hl. unfold scheduled_connects. destruct Ht; auto.
  - rewrite open_handler_eq. simpl. split; [exact Hl|].
    rewrite !attempts_app, user_calls_attempts. unfold attempts at 2. simpl.
    pose proof (scheduled_connects_clearTimeout (connectingTimeout s)
                  (set_sockets (older ++ [set_readyState OPEN k]) s)) as Hle.
    unfold scheduled_connects in Hle.
    change (timers (set_sockets (older ++ [set_readyState OPEN k]) s))
      with (timers s) in Hle.
    lia.
  - rewrite close_handler_eq. cbv zeta. simpl. rewrite Hl.
    destruct (exceeds _ _); simpl; (split; [reflexivity|]);
      rewrite !attempts_app, user_calls_attempts; unfold attempts at 2;
      simpl; rewrite ?filter_app, ?length_app; simpl; lia.
  - simpl. split; [exact Hl|].
    rewrite attempts_app, user_calls_attempts. lia.
  - destruct H2 as [_ Hz]. unfold scheduled_connects in Hz. simpl in Hz.
    apply connect_inr in H3 as (f & _ & ->). simpl. split; [exact Hl|].
    rewrite attempts_app, filter_app, length_app, Hz.
    unfold attempts at 2. simpl.
    pose proof (pending_connect _ _ H H1). lia.
  - simpl. split; [exact Hl|].
    rewrite !attempts_app, filter_app, length_app.
    unfold attempts at 2 3. simpl.
    pose proof (filter_length_le is_connect_task
                  (fun t0 => negb (Nat.eqb (timer_id t0) id)) (timers s)).
    lia.
  - simpl. split; [exact Hl|].
    rewrite attempts_app, error_calls_attempts.
    pose proof (filter_length_le is_connect_task
                  (fun t0 => negb (Nat.eqb (timer_id t0) id)) (timers s)).
    lia.
Qed.

Lemma run_latched config url protocols s events s' :
  Inv config s -> shouldRetry s = false ->
  run config url protocols s events = inr s' ->
  shouldRetry s' = false /\
  (attempts (trace s') + scheduled_connects s'
   <= attempts (trace s) + scheduled_connects s)%nat.
Proof.
  revert s. induction events as [|e rest IH]; simpl; intros s H Hl Hrun.
  - injection Hrun as <-. auto.
  - destruct (step_Inv config url protocols s e H) as (s1 & Hstep & H1).
    rewrite Hstep in Hrun. simpl in Hrun.
    destruct (transition_latched config url protocols s e s1
                (step_transition config url protocols s e s1 H Hstep) Hl)
      as [Hl1 Hle1].
    destruct (IH s1 H1 Hl1 Hrun) as [Hl' Hle'].
    split; [exact Hl'|]. lia.
Qed.

(** X5.  [close()] is a one-way latch: afterwards [shouldRetry] is false
    for good, and [connect] is entered at most as many times as retries
    were waiting when [close()] was called, that is at most once; when
    none was waiting, never again. *)
Theorem close_allows_only_the_waiting_retry config url protocols s events :
  reachable config url protocols s ->
  exists s1 s2,
    close s = inr s1 /\
    run config url protocols s1 events = inr s2 /\
    shouldRetry s2 = false /\
    (attempts (trace s2) <= attempts (trace s) + scheduled_connects s)%nat /\
    (attempts (trace s2) <= attempts (trace s) + 1)%nat.
Proof.
  intro Hreach.
  pose proof (reachable_Inv config url protocols s Hreach) as H.
  destruct (step_Inv config url protocols s Close H) as (s1 & Hstep & H1).
  destruct (run_Inv config url protocols s1 events H1) as (s2 & Hrun & _).
  exists s1, s2. split; [exact Hstep|]. split; [exact Hrun|].
  destruct (Inv_current config s H) as (older & k & E & Hws & _).
  simpl in Hstep. rewrite (close_eq s older k E Hws) in Hstep.
  injection Hstep as Hs1.
  assert (Hl1 : shouldRetry s1 = false) by (rewrite <- Hs1; reflexivity).
  assert (Ha1 : attempts (trace s1) = attempts (trace s))
    by (rewrite <- Hs1; reflexivity).
  assert (Hc1 : scheduled_connects s1 = scheduled_connects s)
    by (rewrite <- Hs1; reflexivity).
  destruct (run_latched config url protocols s1 events s2 H1 Hl1 Hrun)
    as [Hl2 Hle].
  split; [exact Hl2|].
  assert (scheduled_connects s <= 1)%nat
    by (destruct (inv_connects _ _ H) as [Ez|[Eo _]]; lia).
  split; lia.
Qed.

Lemma close_allows_only_the_waiting_retry_witness :
  let s := constructed browser_table empty_options in
  exists s1 s2,
    close s = inr s1 /\
    run browser_table sample_url [] s1
        [SocketCloses 0%nat 0; TimerFires 1%nat] = inr s2 /\
    shouldRetry s2 = false /\
    (attempts (trace s2) <= attempts (trace s) + scheduled_connects s)%nat /\
    (attempts (trace s2) <= attempts (trace s) + 1)%nat.
Proof.
  apply (close_allows_only_the_waiting_retry browser_table sample_url []).
  apply (constructed_reachable browser_table empty_options WebSocket).
  reflexivity.
Defined.

(** ** Removing a listener *)

Lemma count_after_removal listener (entries : list (ListenerRef * ListenerOptions)) :
  List.length
    (filter (is_listener listener)
       (filter (fun e => negb (is_listener listener e)) entries)) = 0%nat.
Proof.
  induction entries as [|e rest IH]; simpl; auto.
  destruct (is_listener listener e) eqn:E; simpl; auto.
  now rewrite E.
Qed.

Lemma registrations_unregister type listener registry :
  registrations type listener (unregister type listener registry) = 0%nat.
Proof.
  unfold registrations, unregister.
  destruct (lookup type registry) as [entries|] eqn:E.
  - rewrite lookup_store_same. apply count_after_removal.
  - now rewrite E.
Qed.

Lemma store_same type entries registry :
  lookup type registry = Some entries -> store type entries registry = registry.
Proof.
  induction registry as [|[t old] rest IH]; simpl; [discriminate|].
  destruct (String.eqb t type) eqn:E.
  - intro H. now injection H as ->.
  - intro H. now rewrite IH.
Qed.

Lemma store_absent type entries registry :
  lookup type registry = None ->
  store type entries registry = registry ++ [(type, entries)].
Proof.
  induction registry as [|[t old] rest IH]; simpl; auto.
  destruct (String.eqb t type); [discriminate|].
  intro H. now rewrite IH.
Qed.

Lemma store_store type entries entries' registry :
  store type entries' (store type entries registry)
  = store type entries' registry.
Proof.
  induction registry as [|[t old] rest IH]; simpl.
  - now rewrite String.eqb_refl.
  - destruct (String.eqb t type) eqn:E; simpl; rewrite E; auto.
    now rewrite IH.
Qed.

Lemma filter_none_counted listener (entries : list (ListenerRef * ListenerOptions)) :
  List.length (filter (is_listener listener) entries) = 0%nat ->
  filter (fun e => negb (is_listener listener e)) entries = entries /\
  existsb (is_listener listener) entries = false.
Proof.
  induction entries as [|e rest IH]; simpl; auto.
  destruct (is_listener listener e); simpl; [discriminate|].
  intro H. destruct (IH H) as [-> ->]. auto.
Qed.

Lemma filter_not_attached type cb capture l :
  ~ In (type, cb, capture) l ->
  filter (fun e => negb (same_registration type cb capture e)) l = l.
Proof.
  induction l as [|e rest IH]; simpl; auto.
  intro H. destruct (same_registration type cb capture e) eqn:E; simpl.
  - apply same_registration_eq in E. subst e. exfalso. auto.
  - rewrite IH; auto.
Qed.

Lemma set_attached_same k : set_attached (attached k) k = k.
Proof. now destruct k. Qed.

(** A pair the registry does not hold can be removed from it at no
    effect. *)
Lemma unregister_absent type listener registry :
  registrations type listener registry = 0%nat ->
  unregister type listener registry = registry.
Proof.
  unfold registrations, unregister.
  destruct (lookup type registry) as [entries|] eqn:E; auto.
  intro H. destruct (filter_none_counted listener entries H) as [-> _].
  now apply store_same.
Qed.

Lemma socket_remove_absent type cb options k :
  ~ In (type, cb, capture_of options) (attached k) ->
  socket_removeEventListener type cb options k = k.
Proof.
  intro H. unfold socket_removeEventListener. cbv zeta.
  rewrite filter_not_attached by assumption. apply set_attached_same.
Qed.

Lemma socket_remove_gone type cb options k :
  ~ In (type, cb, capture_of options)
       (attached (socket_removeEventListener type cb options k)).
Proof.
  simpl. intro H. apply filter_In in H as [_ H].
  assert (same_registration type cb (capture_of options)
            (type, cb, capture_of options) = true)
    by now apply same_registration_eq.
  rewrite H0 in H. discriminate.
Qed.

Lemma transition_unregistered config url protocols s e s' type listener :
  transition config url protocols s e s' ->
  is_addition type listener e = false ->
  registrations type listener (listeners s) = 0%nat ->
  registrations type listener (listeners s') = 0%nat.
Proof.
  intros Ht He Hr. destruct Ht; auto.
  - now rewrite open_handler_eq.
  - rewrite close_handler_eq. cbv zeta. now destruct (exceeds _ _).
  - apply connect_inr in H3 as (f & _ & ->). exact Hr.
  - simpl. simpl in He. now rewrite registrations_register_other.
  - simpl.
    destruct (String.eqb type0 type && Nat.eqb listener0 listener) eqn:E.
    + apply andb_true_iff in E as [Et El].
      apply String.eqb_eq in Et. apply Nat.eqb_eq in El. subst.
      apply registrations_unregister.
    + now rewrite registrations_unregister_other.
Qed.

Lemma run_unregistered config url protocols s events s' type listener :
  Inv config s ->
  forallb (fun e => negb (is_addition type listener e)) events = true ->
  run config url protocols s events = inr s' ->
  registrations type listener (listeners s) = 0%nat ->
  Inv config s' /\ registrations type listener (listeners s') = 0%nat.
Proof.
  revert s. induction events as [|e rest IH]; simpl; intros s H Hq Hrun Hr.
  - injection Hrun as <-. auto.
  - apply andb_true_iff in Hq as [He Hrest].
    destruct (step_Inv config url protocols s e H) as (s1 & Hstep & H1).
    rewrite Hstep in Hrun. simpl in Hrun.
    apply (IH s1 H1 Hrest Hrun).
    apply (transition_unregistered config url protocols s e s1); auto.
    + now apply step_transition.
    + now apply negb_true_iff.
Qed.

(** The socket a retry makes calls a listener as often as the registry
    holds it. *)
Lemma reconnect_deliveries config url protocols s id s' type listener random :
  Inv config s ->
  step config url protocols s (TimerFires id) = inr s' ->
  attempts (trace s') = S (attempts (trace s)) ->
  deliveries (List.length (sockets s)) type listener
    (since s' (dispatch config (List.length (sockets s)) type random s'))
  = registrations type listener (listeners s).
Proof.
  intros H Hstep Hatt.
  pose proof (step_transition config url protocols s _ s' H Hstep) as Ht.
  inversion Ht as
      [e Ee Es | | | | id' t s'' Hin Hid Htask Hst Hconn
       | id' t older' k' Hin Hid Htask E' Hws'
       | id' t code Hin Hid Htask | | | | ]; subst.
  - lia.
  - apply connect_inr in Hconn as (f & _ & ->).
    pose proof (connected_socket_attached f url protocols (listeners s)
                  (inv_registry _ _ H)) as Ha.
    erewrite (dispatch_deliveries _ _ (sockets s)) by (reflexivity || exact Ha).
    rewrite reassigned_count; auto.
    exact (proj1 (inv_registry _ _ H)).
  - exfalso. revert Hatt. simpl. rewrite !attempts_app.
    unfold attempts at 2 3. simpl. lia.
  - exfalso. revert Hatt. simpl.
    rewrite attempts_app, error_calls_attempts. lia.
Qed.

(** X6.  [removeEventListener] takes every entry of the (type, listener)
    pair out of the registry, whatever [options] it is given, and the
    registration with the capture flag of [options] off the live socket.
    The pair stays out until it is registered again: no socket made by a
    later retry calls the listener. *)
Theorem removal_is_permanent config url protocols s type listener options :
  reachable config url protocols s ->
  exists s1,
    removeEventListener type listener options s = inr s1 /\
    registrations type listener (listeners s1) = 0%nat /\
    (exists older k,
        sockets s1 = older ++ [k] /\ ws s1 = Some (List.length older) /\
        ~ In (type, UserListener listener, capture_of options) (attached k)) /\
    forall events s2,
      forallb (fun e => negb (is_addition type listener e)) events = true ->
      run config url protocols s1 events = inr s2 ->
      registrations type listener (listeners s2) = 0%nat /\
      forall id s3 random,
        step config url protocols s2 (TimerFires id) = inr s3 ->
        attempts (trace s3) = S (attempts (trace s2)) ->
        deliveries (List.length (sockets s2)) type listener
          (since s3
             (dispatch config (List.length (sockets s2)) type random s3))
        = 0%nat.
Proof.
  intro Hreach.
  pose proof (reachable_Inv config url protocols s Hreach) as H.
  destruct (step_Inv config url protocols s
              (RemoveEventListener type listener options) H)
    as (s1 & Hstep & H1).
  simpl in Hstep. exists s1. split; [exact Hstep|].
  destruct (Inv_current config s H) as (older & k & E & Hws & _).
  rewrite (removeEventListener_eq _ _ _ s older k E Hws) in Hstep.
  injection Hstep as Hs1.
  assert (Hr1 : registrations type listener (listeners s1) = 0%nat).
  { rewrite <- Hs1. simpl. apply registrations_unregister. }
  split; [exact Hr1|]. split.
  { exists older,
      (socket_removeEventListener type (UserListener listener) options k).
    rewrite <- Hs1. simpl. rewrite Hws.
    repeat split; auto. apply socket_remove_gone. }
  intros events s2 Hq Hrun.
  destruct (run_unregistered config url protocols s1 events s2 type listener
              H1 Hq Hrun Hr1) as [H2 Hr2].
  split; [exact Hr2|].
  intros id s3 random Hstep3 Hatt.
  rewrite (reconnect_deliveries config url protocols s2 id s3 type listener
             random H2 Hstep3 Hatt).
  exact Hr2.
Qed.

Lemma removal_is_permanent_witness :
  let s := after browser_table (constructed browser_table empty_options)
             [AddEventListener "message" 7%nat NoOptions] in
  exists s1,
    removeEventListener "message" 7%nat NoOptions s = inr s1 /\
    registrations "message" 7%nat (listeners s1) = 0%nat.
Proof.
  destruct (removal_is_permanent browser_table sample_url []
              (after browser_table (constructed browser_table empty_options)
                 [AddEventListener "message" 7%nat NoOptions])
              "message" 7%nat NoOptions) as (s1 & E1 & E2 & _).
  - apply (after_reachable browser_table empty_options WebSocket).
    + reflexivity.
    + draws.
    + eexists. vm_compute. reflexivity.
  - exists s1. auto.
Defined.

(** X7.  Removing a pair that is neither in the registry nor attached to
    the live socket changes nothing at all. *)
Theorem removing_an_absent_listener config url protocols s type listener options :
  reachable config url protocols s ->
  registrations type listener (listeners s) = 0%nat ->
  (forall socket k,
      ws s = Some socket -> nth_error (sockets s) socket = Some k ->
      ~ In (type, UserListener listener, capture_of options) (attached k)) ->
  removeEventListener type listener options s = inr s.
Proof.
  intros Hreach Hr Hna.
  pose proof (reachable_Inv config url protocols s Hreach) as H.
  destruct (Inv_current config s H) as (older & k & E & Hws & _).
  rewrite (removeEventListener_eq _ _ _ s older k E Hws).
  rewrite unregister_absent by assumption.
  rewrite socket_remove_absent.
  - rewrite <- E. now destruct s.
  - apply (Hna (List.length older)); auto.
    rewrite E. apply nth_error_last.
Qed.

Lemma removing_an_absent_listener_witness :
  removeEventListener "message" 7%nat NoOptions
    (constructed browser_table empty_options)
  = inr (constructed browser_table empty_options).
Proof.
  apply (removing_an_absent_listener browser_table sample_url []).
  - apply (constructed_reachable browser_table empty_options WebSocket).
    reflexivity.
  - reflexivity.
  - intros socket k Hws Hk. vm_compute in Hws. injection Hws as <-.
    vm_compute in Hk. injection Hk as <-.
    simpl. intros [E|[E|[]]]; discriminate.
Defined.

(** ** Adding and removing again *)

Lemma not_attached_existsb type cb capture l :
  ~ In (type, cb, capture) l ->
  existsb (same_registration type cb capture) l = false.
Proof.
  intro H. destruct (existsb _ l) eqn:E; auto.
  apply existsb_exists in E as (e & He & Hs).
  apply same_registration_eq in Hs. subst e. contradiction.
Qed.

Lemma socket_add_remove type cb options k :
  ~ In (type, cb, capture_of options) (attached k) ->
  socket_removeEventListener type cb options
    (socket_addEventListener type cb options k) = k.
Proof.
  intro H. unfold socket_addEventListener. cbv zeta.
  rewrite not_attached_existsb by assumption.
  unfold socket_removeEventListener. cbv zeta. simpl attached.
  assert (E : same_registration type cb (capture_of options)
                (type, cb, capture_of options) = true)
    by now apply same_registration_eq.
  rewrite filter_app, filter_not_attached by assumption.
  unfold filter. rewrite E. cbn [negb]. rewrite app_nil_r. now destruct k.
Qed.

Lemma unregister_register type listener options registry :
  registrations type listener registry = 0%nat ->
  unregister type listener (register type listener options registry)
  = match lookup type registry with
    | Some _ => registry
    | None => registry ++ [(type, [])]
    end.
Proof.
  unfold registrations, register.
  destruct (lookup type registry) as [entries|] eqn:E; intro H.
  - destruct (filter_none_counted listener entries H) as [Hf He].
    rewrite He. simpl. unfold unregister. rewrite lookup_store_same.
    rewrite filter_app, Hf. simpl. unfold is_listener at 1. simpl.
    rewrite Nat.eqb_refl. simpl. rewrite app_nil_r, store_store.
    now apply store_same.
  - unfold unregister. rewrite lookup_store_same. simpl.
    unfold is_listener. simpl. rewrite Nat.eqb_refl. simpl.
    rewrite store_store. now apply store_absent.
Qed.

Lemma reassigned_empty_key type registry :
  reassigned (registry ++ [(type, [])]) = reassigned registry.
Proof.
  unfold reassigned. rewrite flat_map_app. simpl. now rewrite app_nil_r.
Qed.

(** X8.  For a type that is a name, adding a listener that is not
    registered and removing it again, with the same [options], leaves the
    socket and every variable of the instance as they were, but for the
    registry: that keeps an empty array under a type it did not know, as
    its last key.  What [reassignEventListeners] gives a later socket is
    the same. *)
Theorem add_then_remove config url protocols s type listener options :
  reachable config url protocols s ->
  plain_key type = true ->
  registrations type listener (listeners s) = 0%nat ->
  (forall socket k,
      ws s = Some socket -> nth_error (sockets s) socket = Some k ->
      ~ In (type, UserListener listener, capture_of options) (attached k)) ->
  exists s1 s2,
    addEventListener type listener options s = inr s1 /\
    removeEventListener type listener options s1 = inr s2 /\
    s2 = set_listeners (listeners s2) s /\
    listeners s2 = match lookup type (listeners s) with
                   | Some _ => listeners s
                   | None => listeners s ++ [(type, [])]
                   end /\
    reassigned (listeners s2) = reassigned (listeners s).
Proof.
  intros Hreach _ Hr Hna.
  pose proof (reachable_Inv config url protocols s Hreach) as H.
  destruct (Inv_current config s H) as (older & k & E & Hws & _).
  assert (Hk : ~ In (type, UserListener listener, capture_of options)
                    (attached k)).
  { apply (Hna (List.length older)); auto.
    rewrite E. apply nth_error_last. }
  do 2 eexists.
  split; [exact (addEventListener_eq _ _ _ s older k E Hws)|].
  split.
  { apply removeEventListener_eq; [reflexivity | exact Hws]. }
  rewrite socket_add_remove by assumption.
  rewrite <- E.
  assert (Hl : unregister type listener
                 (register type listener options (listeners s))
               = match lookup type (listeners s) with
                 | Some _ => listeners s
                 | None => listeners s ++ [(type, [])]
                 end)
    by now apply unregister_register.
  destruct s; simpl in *. rewrite Hl.
  split; [reflexivity|]. split; [reflexivity|].
  destruct (lookup type listeners0); auto.
  apply reassigned_empty_key.
Qed.

Lemma add_then_remove_witness :
  exists s1 s2,
    addEventListener "message" 7%nat (Capture true)
      (constructed browser_table empty_options) = inr s1 /\
    removeEventListener "message" 7%nat (Capture true) s1 = inr s2 /\
    listeners s2 = [("message", [])] /\
    sockets s2 = sockets (constructed browser_table empty_options).
Proof.
  destruct (add_then_remove browser_table sample_url []
              (constructed browser_table empty_options)
              "message" 7%nat (Capture true))
    as (s1 & s2 & E1 & E2 & E3 & E4 & _).
  - apply (constructed_reachable browser_table empty_options WebSocket).
    reflexivity.
  - reflexivity.
  - reflexivity.
  - intros socket k Hws Hk. vm_compute in Hws. injection Hws as <-.
    vm_compute in Hk. injection Hk as <-.
    simpl. intros [E|[E|[]]]; discriminate.
  - exists s1, s2. repeat split; auto.
    rewrite E3. reflexivity.
Defined.

(** ** The deferred dispatch of errors *)

Lemma since_same s : since s s = [].
Proof. apply since_app. now rewrite app_nil_r. Qed.

Lemma user_calls_error_free socket type users :
  filter is_error_delivery (user_calls socket type users) = [].
Proof.
  unfold user_calls. induction users as [|[[t cb] c] rest IH]; simpl; auto.
  rewrite filter_app, IH, app_nil_r.
  destruct (String.eqb t type); auto. destruct cb; auto.
Qed.

Lemma error_calls_clearTimeout code h s :
  error_calls code (clearTimeout h s) = error_calls code s.
Proof. destruct h; destruct s; reflexivity. Qed.

(** Only the task [emitError] defers calls a listener with an error. *)
Lemma transition_errors config url protocols s e s' :
  transition config url protocols s e s' ->
  filter is_error_delivery (since s s') = [] \/
  exists t code,
    e = TimerFires (timer_id t) /\ In t (timers s) /\
    timer_task t = ErrorTask code /\ since s s' = error_calls code s.
Proof.
  intro Ht. destruct Ht.
  - left. now rewrite since_same.
  - left. rewrite open_handler_eq. cbv zeta.
    erewrite since_app
      by (unfold observe_all; simpl; rewrite <- app_assoc; reflexivity).
    rewrite filter_app, user_calls_error_free. reflexivity.
  - left. rewrite close_handler_eq. cbv zeta.
    destruct (exceeds _ _);
      (erewrite since_app
         by (unfold observe_all; simpl; rewrite <- app_assoc; reflexivity));
      rewrite filter_app, user_calls_error_free; reflexivity.
  - left. erewrite since_app by reflexivity. apply user_calls_error_free.
  - left. apply connect_inr in H3 as (f & _ & ->).
    erewrite since_app by (destruct s; reflexivity). reflexivity.
  - left.
    erewrite since_app
      by (destruct s; setters; rewrite <- app_assoc; reflexivity).
    reflexivity.
  - right. exists t, code. subst id. repeat split; auto.
    erewrite since_app by (destruct s; reflexivity).
    apply error_calls_clearTimeout.
  - left. erewrite since_app by (destruct s; simpl; now rewrite app_nil_r).
    reflexivity.
  - left. erewrite since_app by (destruct s; simpl; now rewrite app_nil_r).
    reflexivity.
  - left. erewrite since_app by (destruct s; simpl; now rewrite app_nil_r).
    reflexivity.
  - left. erewrite since_app by (destruct s; simpl; now rewrite app_nil_r).
    reflexivity.
Qed.

Lemma immediate_clearTimeout h s :
  Forall immediate_error (timers s) ->
  Forall immediate_error (timers (clearTimeout h s)).
Proof.
  intro H. destruct h as [id|]; auto.
  destruct s; simpl in *. apply Forall_forall. intros t Hin.
  apply filter_In in Hin as [Hin _].
  now apply (proj1 (Forall_forall _ _) H).
Qed.

Lemma transition_immediate config url protocols s e s' :
  transition config url protocols s e s' ->
  Forall immediate_error (timers s) -> Forall immediate_error (timers s').
Proof.
  intros Ht H. destruct Ht; auto.
  - rewrite open_handler_eq. cbv zeta. simpl.
    apply (immediate_clearTimeout (connectingTimeout s)
             (set_sockets (older ++ [set_readyState OPEN k]) s)).
    now destruct s.
  - rewrite close_handler_eq. cbv zeta.
    destruct (exceeds _ _); simpl.
    + apply Forall_app. split; [now destruct s|].
      constructor; [|constructor]. unfold immediate_error. simpl.
      reflexivity.
    + destruct (shouldRetry _); [|now destruct s].
      apply Forall_app. split; [now destruct s|].
      constructor; [|constructor]. exact I.
  - apply connect_inr in H4 as (f & _ & ->).
    apply (immediate_clearTimeout (Some id)) in H.
    cbn [timers]. apply Forall_app. split; [exact H|].
    constructor; [|constructor]. exact I.
  - apply (immediate_clearTimeout (Some id)) in H.
    destruct s; simpl in *. apply Forall_app. split; auto.
    constructor; [|constructor]. unfold immediate_error. simpl. reflexivity.
  - apply (immediate_clearTimeout (Some id)) in H. now destruct s.
Qed.

Lemma reachable_immediate config url protocols s :
  reachable config url protocols s -> Forall immediate_error (timers s).
Proof.
  revert s. apply reachable_induction.
  - intros s0 Hs. apply start_state in Hs as (f & _ & ->). simpl.
    constructor; [exact I | constructor].
  - intros s e s' _ HP _ Ht.
    now apply (transition_immediate config url protocols s e s').
Qed.

Lemma error_timers_immediate config url protocols s :
  reachable config url protocols s ->
  forall t code,
    In t (timers s) -> timer_task t = ErrorTask code -> timer_delay t == 0.
Proof.
  intros Hreach t code Hin Htask.
  pose proof (proj1 (Forall_forall _ _)
                (reachable_immediate config url protocols s Hreach) t Hin)
    as Ht.
  unfold immediate_error in Ht. now rewrite Htask in Ht.
Qed.

(** X9.  No handler and no method call hands an error to a listener or to
    [ws.onerror]: whenever one is called with an error, the event is the
    firing of a timer that [emitError] has set, and the calls made are
    those of the deferred task and nothing else. *)
Theorem errors_are_deferred config url protocols s e s' :
  reachable config url protocols s ->
  step config url protocols s e = inr s' ->
  filter is_error_delivery (since s s') <> [] ->
  exists t code,
    e = TimerFires (timer_id t) /\ In t (timers s) /\
    timer_task t = ErrorTask code /\ timer_delay t == 0 /\
    since s s' = error_calls code s.
Proof.
  intros Hreach Hstep Hne.
  pose proof (reachable_Inv config url protocols s Hreach) as H.
  destruct (transition_errors config url protocols s e s'
              (step_transition config url protocols s e s' H Hstep))
    as [Hnone | (t & code & -> & Hin & Htask & Hs)]; [contradiction|].
  exists t, code. repeat split; auto.
  apply (error_timers_immediate config url protocols s Hreach t code Hin Htask).
Qed.

Lemma errors_are_deferred_witness :
  let s := after browser_table (constructed browser_table empty_options)
             [AddEventListener "error" 3%nat NoOptions; TimerFires 1%nat] in
  exists t code,
    TimerFires 2%nat = TimerFires (timer_id t) /\ In t (timers s) /\
    timer_task t = ErrorTask code /\ timer_delay t == 0 /\
    since s (after browser_table s [TimerFires 2%nat]) = error_calls code s.
Proof.
  apply (errors_are_deferred browser_table sample_url []).
  - apply (after_reachable browser_table empty_options WebSocket).
    + reflexivity.
    + draws.
    + eexists. vm_compute. reflexivity.
  - vm_compute. reflexivity.
  - vm_compute. discriminate.
Defined.

Lemma error_calls_counted code listener s :
  error_deliveries code listener (error_calls code s)
  = registrations "error" listener (listeners s).
Proof.
  unfold error_deliveries, error_calls, registrations.
  rewrite filter_app, length_app.
  replace (List.length
             (filter (is_error_call code listener)
                match ws s with
                | Some socket =>
                    match nth_error (sockets s) socket with
                    | Some k =>
                        match onerror k with
                        | Some handler => [OnerrorCalled code handler]
                        | None => []
                        end
                    | None => []
                    end
                | None => []
                end)) with 0%nat.
  - rewrite Nat.add_0_r.
    destruct (lookup "error" (listeners s)) as [entries|]; auto.
    induction entries as [|[l o] rest IH]; simpl; auto.
    unfold is_listener at 1. simpl.
    assert (E : ErrCode_eqb code code = true) by now destruct code.
    rewrite E. simpl. destruct (Nat.eqb l listener); simpl; now rewrite IH.
  - destruct (ws s) as [socket|]; auto.
    destruct (nth_error (sockets s) socket) as [k|]; auto.
    destruct (onerror k); auto.
Qed.

Lemma error_calls_onerror code s older k :
  sockets s = older ++ [k] -> ws s = Some (List.length older) ->
  filter is_onerror_call (error_calls code s)
  = match onerror k with
    | Some handler => [OnerrorCalled code handler]
    | None => []
    end.
Proof.
  intros E Hws. unfold error_calls.
  rewrite Hws, E, nth_error_last, filter_app.
  replace (filter is_onerror_call
             match lookup "error" (listeners s) with
             | Some entries =>
                 map (fun e => ErrorListenerCalled code (fst e)) entries
             | None => []
             end) with (@nil Obs).
  - simpl. now destruct (onerror k).
  - destruct (lookup "error" (listeners s)) as [entries|]; auto.
    induction entries as [|e rest IH]; simpl; auto.
Qed.

(** What the firing of a pending task of [emitError] does. *)
Lemma error_task_fires config url protocols s t code :
  Inv config s -> In t (timers s) -> timer_task t = ErrorTask code ->
  step config url protocols s (TimerFires (timer_id t))
  = inr (observe_all (error_calls code s)
           (clearTimeout (Some (timer_id t)) s)).
Proof.
  intros H Hin Htask.
  destruct (Inv_current config s H) as (older & k & E & Hws & _).
  unfold step, take_timer.
  rewrite (find_by_id (timers s) t (proj1 (inv_timers _ _ H)) Hin).
  rewrite Htask. unfold run_task.
  rewrite (error_task_eq code _ (List.length older))
    by (destruct s; exact Hws).
  now rewrite error_calls_clearTimeout.
Qed.

(** X10.  The task [emitError] defers reads the registry and [ws.onerror]
    when it runs, not when the error was emitted: whatever happens in
    between (short of the timer firing, or an 'open'), it calls each
    listener as often as the registry holds it under 'error' at that
    moment, then the [onerror] of the socket [ws] names at that moment, and
    it runs once. *)
Theorem error_dispatch_reads_the_registry_late config url protocols s t code
  events :
  reachable config url protocols s ->
  In t (timers s) -> timer_task t = ErrorTask code ->
  forallb (spares (timer_id t)) events = true ->
  exists s1 s2 older k,
    run config url protocols s events = inr s1 /\
    step config url protocols s1 (TimerFires (timer_id t)) = inr s2 /\
    sockets s1 = older ++ [k] /\ ws s1 = Some (List.length older) /\
    (forall listener,
        error_deliveries code listener (since s1 s2)
        = registrations "error" listener (listeners s1)) /\
    filter is_onerror_call (since s1 s2)
    = match onerror k with
      | Some handler => [OnerrorCalled code handler]
      | None => []
      end /\
    ~ In t (timers s2) /\
    step config url protocols s2 (TimerFires (timer_id t)) = inr s2.
Proof.
  intros Hreach Hin Htask Hsp.
  pose proof (reachable_Inv config url protocols s Hreach) as H.
  destruct (run_Inv config url protocols s events H) as (s1 & Hrun & H1).
  pose proof (run_spares config url protocols s events s1 t H Hsp Hrun Hin)
    as Hin1.
  destruct (Inv_current config s1 H1) as (older & k & E & Hws & _).
  pose proof (error_task_fires config url protocols s1 t code H1 Hin1 Htask)
    as Hstep.
  eexists s1, _, older, k.
  split; [exact Hrun|]. split; [exact Hstep|].
  split; [exact E|]. split; [exact Hws|].
  assert (Hs : since s1 (observe_all (error_calls code s1)
                           (clearTimeout (Some (timer_id t)) s1))
               = error_calls code s1).
  { apply since_app. now destruct s1. }
  assert (Hgone : forall x,
             In x (timers (observe_all (error_calls code s1)
                             (clearTimeout (Some (timer_id t)) s1))) ->
             Nat.eqb (timer_id x) (timer_id t) = false).
  { intros x Hx. destruct s1; simpl in Hx.
    apply filter_In in Hx as [_ Hx]. now apply negb_true_iff. }
  rewrite Hs. split; [|split; [|split]].
  - intro listener. apply error_calls_counted.
  - exact (error_calls_onerror code s1 older k E Hws).
  - intro Hx. apply Hgone in Hx. rewrite Nat.eqb_refl in Hx. discriminate.
  - unfold step, take_timer.
    destruct (find _ _) as [x|] eqn:Ef; auto.
    apply find_some in Ef as [Hx Hid].
    apply Hgone in Hx. congruence.
Qed.

Lemma error_dispatch_reads_the_registry_late_witness :
  let s := after browser_table (constructed browser_table empty_options)
             [TimerFires 1%nat] in
  exists s1 s2,
    run browser_table sample_url [] s
      [AddEventListener "error" 3%nat NoOptions; SetOnerror (Some 4%nat)]
    = inr s1 /\
    step browser_table sample_url [] s1 (TimerFires 2%nat) = inr s2 /\
    error_deliveries ETIMEDOUT 3%nat (since s1 s2) = 1%nat.
Proof.
  destruct (error_dispatch_reads_the_registry_late browser_table sample_url []
              (after browser_table (constructed browser_table empty_options)
                 [TimerFires 1%nat])
              (mkTimer 2%nat 0 (ErrorTask ETIMEDOUT)) ETIMEDOUT
              [AddEventListener "error" 3%nat NoOptions;
               SetOnerror (Some 4%nat)])
    as (s1 & s2 & older & k & E1 & E2 & _ & _ & E3 & _).
  - apply (after_reachable browser_table empty_options WebSocket).
    + reflexivity.
    + draws.
    + eexists. vm_compute. reflexivity.
  - vm_compute. left. reflexivity.
  - reflexivity.
  - reflexivity.
  - exists s1, s2. split; [exact E1|]. split; [exact E2|].
    rewrite E3. vm_compute in E1. injection E1 as <-. reflexivity.
Defined.

(** ** What a retry does not carry over *)

(** A step of a timer that enters [connect]. *)
Lemma retry_step config url protocols s id s' :
  Inv config s ->
  step config url protocols s (TimerFires id) = inr s' ->
  attempts (trace s') = S (attempts (trace s)) ->
  exists f,
    constructor config = Some f /\
    sockets s' = sockets s ++ [connected_socket f url protocols (listeners s)] /\
    ws s' = Some (List.length (sockets s)) /\
    listeners s' = listeners s /\
    connectingTimeout s' = Some (next_timer s).
Proof.
  intros H Hstep Hatt.
  pose proof (step_transition config url protocols s _ s' H Hstep) as Ht.
  inversion Ht as
      [e Ee Es | | | | id' t s'' Hin Hid Htask Hst Hconn
       | id' t older' k' Hin Hid Htask E' Hws'
       | id' t code Hin Hid Htask | | | | ]; subst.
  - lia.
  - apply connect_inr in Hconn as (f & Hf & ->).
    exists f. now destruct s.
  - exfalso. revert Hatt. simpl. rewrite !attempts_app.
    unfold attempts at 2 3. simpl. lia.
  - exfalso. revert Hatt. simpl.
    rewrite attempts_app, error_calls_attempts. lia.
Qed.

(** X11.  A handler stored through the forwarded [onerror] property lives
    on the socket, not on the instance: the socket a retry makes has none,
    so the errors dispatched from then on reach the registered listeners
    only, until [onerror] is set again. *)
Theorem onerror_is_dropped_by_a_retry config url protocols s id s' :
  reachable config url protocols s ->
  step config url protocols s (TimerFires id) = inr s' ->
  attempts (trace s') = S (attempts (trace s)) ->
  exists older k,
    sockets s' = older ++ [k] /\ ws s' = Some (List.length older) /\
    onerror k = None /\
    forall code, filter is_onerror_call (error_calls code s') = [].
Proof.
  intros Hreach Hstep Hatt.
  pose proof (reachable_Inv config url protocols s Hreach) as H.
  destruct (retry_step config url protocols s id s' H Hstep Hatt)
    as (f & _ & E & Hws & _).
  destruct (connected_socket_origin f url protocols (listeners s))
    as (_ & Ho & _).
  exists (sockets s), (connected_socket f url protocols (listeners s)).
  repeat split; auto.
  intro code.
  rewrite (error_calls_onerror code s' _ _ E Hws). now rewrite Ho.
Qed.

Lemma onerror_is_dropped_by_a_retry_witness :
  let s := after browser_table (constructed browser_table empty_options)
             [SetOnerror (Some 4%nat); SocketCloses 0%nat (1 # 2)] in
  exists older k,
    sockets (after browser_table s [TimerFires 2%nat]) = older ++ [k] /\
    ws (after browser_table s [TimerFires 2%nat]) = Some (List.length older) /\
    onerror k = None /\
    forall code,
      filter is_onerror_call
        (error_calls code (after browser_table s [TimerFires 2%nat])) = [].
Proof.
  apply (onerror_is_dropped_by_a_retry browser_table sample_url []
           (after browser_table (constructed browser_table empty_options)
              [SetOnerror (Some 4%nat); SocketCloses 0%nat (1 # 2)])
           2%nat).
  - apply (after_reachable browser_table empty_options WebSocket).
    + reflexivity.
    + draws.
    + eexists. vm_compute. reflexivity.
  - vm_compute. reflexivity.
  - vm_compute. reflexivity.
Defined.

(** ** The table across constructions *)

Lemma table_after_call called_with_new table url protocols options :
  fst (ReconnectingWebsocket called_with_new table url protocols options)
  = if called_with_new then set_config table options else table.
Proof.
  unfold ReconnectingWebsocket.
  destruct called_with_new; cbn [negb]; auto.
  now destruct (constructor (set_config table options)).
Qed.

Lemma constructions_last table url protocols calls call :
  constructions table url protocols (calls ++ [call])
  = if fst call
    then set_config (constructions table url protocols calls) (snd call)
    else constructions table url protocols calls.
Proof.
  unfold constructions. rewrite fold_left_app. cbn [fold_left].
  apply table_after_call.
Qed.

Lemma latest_last (A : Type) (key : Options -> option A) calls call :
  latest key (calls ++ [call])
  = if fst call
    then match key (snd call) with
         | Some v => Some v
         | None => latest key calls
         end
    else latest key calls.
Proof. unfold latest. now rewrite fold_left_app. Qed.

Lemma assign_latest (A : Type) (current : A) (found own : option A) :
  assign (assign current found) own
  = assign current match own with Some v => Some v | None => found end.
Proof. now destruct own. Qed.

(** X12.  After any sequence of calls of the constructor, each key of the
    shared table holds the value given by the last call made with [new]
    whose options own the key, and the value the table started with when
    there was none.  Calls made without [new] write nothing; calls that
    throw for want of a constructor have written like the others. *)
Theorem table_holds_the_latest_options table url protocols calls :
  let after_calls := constructions table url protocols calls in
  constructor after_calls
  = assign (constructor table) (latest opt_constructor calls) /\
  maxReconnectionDelay after_calls
  = assign (maxReconnectionDelay table) (latest opt_maxReconnectionDelay calls) /\
  minReconnectionDelay after_calls
  = assign (minReconnectionDelay table) (latest opt_minReconnectionDelay calls) /\
  reconnectionDelayGrowFactor after_calls
  = assign (reconnectionDelayGrowFactor table)
      (latest opt_reconnectionDelayGrowFactor calls) /\
  connectionTimeout after_calls
  = assign (connectionTimeout table) (latest opt_connectionTimeout calls) /\
  maxRetries after_calls
  = assign (maxRetries table) (latest opt_maxRetries calls) /\
  debug after_calls = assign (debug table) (latest opt_debug calls).
Proof.
  cbv zeta. induction calls as [|[called_with_new options] calls IH]
                using rev_ind.
  - repeat split.
  - destruct IH as (I1 & I2 & I3 & I4 & I5 & I6 & I7).
    rewrite constructions_last, !latest_last. cbn [fst snd].
    destruct called_with_new; [|repeat split; assumption].
    unfold set_config. cbn [constructor maxReconnectionDelay
      minReconnectionDelay reconnectionDelayGrowFactor connectionTimeout
      maxRetries debug].
    rewrite I1, I2, I3, I4, I5, I6, I7.
    repeat split; apply assign_latest.
Qed.



(** ** A table written while an instance runs *)

(** X14.  The handlers read the table when they run.  Once another call of
    the constructor has written [options] into it, the 'close' handler of
    an instance made before counts against the new [maxRetries] and
    computes its delay from the new bounds. *)
Theorem a_later_construction_changes_the_budget config url protocols s options
  socket st random :
  reachable config url protocols s ->
  state_of socket s = Some st -> st <> CLOSED ->
  let config' := set_config config options in
  exists s',
    step config' url protocols s (SocketCloses socket random) = inr s' /\
    retriesCount s' = S (retriesCount s) /\
    if exceeds (S (retriesCount s)) (maxRetries config')
    then emitted EHOSTDOWN (since s s') = 1%nat /\
         scheduled_connects s' = scheduled_connects s
    else emitted EHOSTDOWN (since s s') = 0%nat /\
         reconnectDelay s' = next_delay config' random s.
Proof.
  intros Hreach Hst Hne config'.
  pose proof (reachable_Inv config url protocols s Hreach) as H.
  destruct (live_current config s socket st H Hst Hne)
    as (older & k & users & E & -> & Hk & Hws & Ha & Hu & Hnd & Hold).
  exists (observe_all (user_calls (List.length older) "close" users)
            (close_handler config' random
               (set_sockets (older ++ [set_readyState CLOSED k]) s))).
  split.
  { simpl. rewrite Hst. rewrite (on_current s older k _ E).
    erewrite dispatch_close by (try reflexivity; eassumption).
    destruct st; congruence. }
  rewrite close_handler_eq. cbv zeta.
  replace (retriesCount (set_sockets (older ++ [set_readyState CLOSED k]) s))
    with (retriesCount s) by now destruct s.
  destruct (exceeds (S (retriesCount s)) (maxRetries config')).
  - split; [reflexivity|].
    erewrite since_app
      by (unfold observe_all; simpl; rewrite <- app_assoc; reflexivity).
    rewrite emitted_app, user_calls_emitted. split; [reflexivity|].
    unfold scheduled_connects. simpl. rewrite filter_app, length_app. simpl.
    destruct s; simpl. lia.
  - split; [reflexivity|].
    erewrite since_app
      by (unfold observe_all; simpl; rewrite <- app_assoc; reflexivity).
    rewrite emitted_app, user_calls_emitted. split; [reflexivity|].
    simpl. unfold next_delay. now destruct s.
Qed.

Lemma a_later_construction_changes_the_budget_witness :
  exists s',
    step (set_config browser_table (only_maxRetries 0)) sample_url []
      (constructed browser_table empty_options) (SocketCloses 0%nat 0)
    = inr s' /\
    emitted EHOSTDOWN (since (constructed browser_table empty_options) s')
    = 1%nat.
Proof.
  destruct (a_later_construction_changes_the_budget browser_table sample_url
              [] (constructed browser_table empty_options)
              (only_maxRetries 0) 0%nat CONNECTING 0)
    as (s' & E1 & _ & E2).
  - apply (constructed_reachable browser_table empty_options WebSocket).
    reflexivity.
  - reflexivity.
  - discriminate.
  - exists s'. split; [exact E1|]. exact (proj1 E2).
Defined.

(** X15.  Once another call of the constructor has stored something other
    than a function under [constructor], the retry an instance made before
    has waiting throws when its timer fires, and the timer is spent. *)
Theorem a_later_construction_can_break_a_retry config url protocols s options
  t :
  reachable config url protocols s ->
  In t (timers s) -> timer_task t = ConnectTask ->
  opt_constructor options = Some None ->
  step (set_config config options) url protocols s (TimerFires (timer_id t))
  = inl (TypeError "config.constructor is not a constructor").
Proof.
  intros Hreach Hin Htask Ho.
  pose proof (reachable_Inv config url protocols s Hreach) as H.
  unfold step, take_timer.
  rewrite (find_by_id (timers s) t (proj1 (inv_timers _ _ H)) Hin).
  rewrite Htask. unfold run_task, connect.
  cbv zeta.
  replace (constructor (set_config config options)) with (@None Factory)
    by (unfold set_config; cbn [constructor]; now rewrite Ho).
  reflexivity.
Qed.

Lemma a_later_construction_can_break_a_retry_witness :
  step (set_config browser_table
          (mkOptions (Some None) None None None None None None))
    sample_url []
    (after browser_table (constructed browser_table empty_options)
       [SocketCloses 0%nat 0])
    (TimerFires 2%nat)
  = inl (TypeError "config.constructor is not a constructor").
Proof.
  apply (a_later_construction_can_break_a_retry browser_table sample_url []
           (after browser_table (constructed browser_table empty_options)
              [SocketCloses 0%nat 0])
           (mkOptions (Some None) None None None None None None)
           (mkTimer 2%nat (initReconnectionDelay browser_table 0) ConnectTask)).
  - apply (after_reachable browser_table empty_options WebSocket).
    + reflexivity.
    + draws.
    + eexists. vm_compute. reflexivity.
  - vm_compute. right. left. reflexivity.
  - reflexivity.
  - reflexivity.
Defined.

(** ** The forwarded properties *)

Lemma forwarder_bypass_same src dst name :
  forwarder name (bypassProperty src dst name) = Some src.
Proof.
  induction dst as [|[n old] rest IH]; simpl.
  - now rewrite String.eqb_refl.
  - destruct (String.eqb n name) eqn:E; simpl; now rewrite E.
Qed.

Lemma forwarder_bypass_other src dst name name' :
  String.eqb name name' = false ->
  forwarder name' (bypassProperty src dst name) = forwarder name' dst.
Proof.
  intro Hne. induction dst as [|[n old] rest IH]; simpl.
  - now rewrite Hne.
  - destruct (String.eqb n name) eqn:E; simpl.
    + apply String.eqb_eq in E. subst n. now rewrite Hne.
    + now rewrite IH.
Qed.

Lemma forwarder_bypass_properties keys src dst name :
  forwarder name (bypass_properties keys src dst)
  = if existsb (String.eqb name) keys && not_listed name
    then Some src
    else forwarder name dst.
Proof.
  unfold bypass_properties. revert dst.
  induction keys as [|key rest IH]; intro dst; simpl; auto.
  rewrite IH.
  destruct (existsb (String.eqb name) rest && not_listed name) eqn:Er.
  - apply andb_true_iff in Er as [-> ->].
    now rewrite orb_true_r.
  - destruct (String.eqb name key) eqn:E; cbn [orb].
    + apply String.eqb_eq in E. subst key.
      destruct (not_listed name); cbn [andb].
      * apply forwarder_bypass_same.
      * reflexivity.
    + rewrite Er.
      destruct (not_listed key); auto.
      apply forwarder_bypass_other.
      rewrite String.eqb_sym. exact E.
Qed.

Lemma forwarder_forwarded_from keys_of f name made :
  Forall (fun k => made_by k = f) made ->
  forall socket dst k,
    forwarder name (forwarded_from keys_of socket (made ++ [k]) dst)
    = if existsb (String.eqb name) (keys_of (made_by k)) && not_listed name
      then Some (socket + List.length made)%nat
      else if existsb (String.eqb name) (keys_of f) && not_listed name
           then match made with
                | [] => forwarder name dst
                | _ => Some (socket + List.length made - 1)%nat
                end
           else forwarder name dst.
Proof.
  induction 1 as [|k0 rest Hk0 Hrest IH]; intros socket dst k.
  - simpl. rewrite forwarder_bypass_properties, Nat.add_0_r.
    destruct (existsb (String.eqb name) (keys_of (made_by k))
              && not_listed name); auto.
    now destruct (existsb (String.eqb name) (keys_of f) && not_listed name).
  - cbn [app forwarded_from]. rewrite IH.
    destruct (existsb (String.eqb name) (keys_of (made_by k))
              && not_listed name).
    + f_equal. simpl. lia.
    + rewrite forwarder_bypass_properties, Hk0.
      destruct (existsb (String.eqb name) (keys_of f) && not_listed name);
        auto.
      destruct rest; f_equal; simpl; lia.
Qed.

(** X16.  The accessors [connect] defines on [this] always act on the
    socket [ws] names: every key of the socket other than
    [addEventListener], [removeEventListener] and [close] is forwarded to
    it, the retry having redefined each one, and those three names are
    never given an accessor, so that the methods of lines 135-156 stay. *)
Theorem forwarders_follow_ws keys_of config url protocols s :
  reachable config url protocols s ->
  exists f,
    constructor config = Some f /\
    forall name,
      forwarder name (forwarded keys_of s)
      = if existsb (String.eqb name) (keys_of f) && not_listed name
        then ws s
        else None.
Proof.
  intro Hreach.
  pose proof (reachable_Inv config url protocols s Hreach) as H.
  destruct (inv_factory _ _ H) as [f Hf].
  assert (Hm : Forall (made_as f url protocols) (sockets s)).
  { revert s Hreach H.
    apply (reachable_induction config url protocols
             (fun s => Inv config s ->
                       Forall (made_as f url protocols) (sockets s))).
    - intros s0 Hstart _. now apply (start_made_as config url protocols f).
    - intros s e s' Hi IH _ Ht _.
      apply (transition_made_as config url protocols f s e s'); auto. }
  destruct (Inv_current config s H) as (older & k & E & Hws & _).
  exists f. split; [exact Hf|]. intro name.
  unfold forwarded. rewrite E in *.
  apply Forall_app in Hm as [Ho Hk].
  assert (Hk' : made_by k = f).
  { apply Forall_inv in Hk. apply Hk. }
  rewrite (forwarder_forwarded_from keys_of f name older).
  - rewrite Hk', Hws. simpl.
    now destruct (existsb (String.eqb name) (keys_of f) && not_listed name).
  - apply Forall_forall. intros x Hx.
    apply (proj1 (Forall_forall _ _) Ho x Hx).
Qed.

Lemma forwarders_follow_ws_witness :
  let s := after browser_table (constructed browser_table empty_options)
             [SocketCloses 0%nat (1 # 2); TimerFires 2%nat] in
  forwarder "onerror" (forwarded browser_keys s) = Some 1%nat /\
  forwarder "close" (forwarded browser_keys s) = None.
Proof.
  destruct (forwarders_follow_ws browser_keys browser_table sample_url []
              (after browser_table (constructed browser_table empty_options)
                 [SocketCloses 0%nat (1 # 2); TimerFires 2%nat]))
    as (f & Hf & Hn).
  - apply (after_reachable browser_table empty_options WebSocket).
    + reflexivity.
    + draws.
    + eexists. vm_compute. reflexivity.
  - cbv zeta. rewrite !Hn. split; reflexivity.
Defined.

(** * The error that ends the retries *)

Lemma filter_nil_weaker {A : Type} (p q : A -> bool) (l : list A) :
  (forall x, q x = true -> p x = true) -> filter p l = [] -> filter q l = [].
Proof.
  intro Hqp. induction l as [|x rest IH]; simpl; auto.
  destruct (p x) eqn:Ep; [discriminate|].
  destruct (q x) eqn:Eq; [apply Hqp in Eq; congruence | exact IH].
Qed.

Lemma filter_all_or_none {A : Type} (p : A -> bool) (b : bool) (l : list A) :
  (forall x, In x l -> p x = b) -> filter p l = if b then l else [].
Proof.
  induction l as [|x rest IH]; intro H.
  - now destruct b.
  - simpl. rewrite (H x (or_introl eq_refl)), IH.
    + now destruct b.
    + intros y Hy. apply H. now right.
Qed.

Lemma filter_filter_nil {A : Type} (p q : A -> bool) (l : list A) :
  filter p l = [] -> filter p (filter q l) = [].
Proof.
  induction l as [|x rest IH]; simpl; auto.
  destruct (p x) eqn:Ep; [discriminate|]. intro H.
  destruct (q x); simpl; rewrite ?Ep; auto.
Qed.

Lemma filter_filter_same {A : Type} (p q : A -> bool) (l : list A) :
  (forall x, In x l -> p x = true -> q x = true) ->
  filter p (filter q l) = filter p l.
Proof.
  induction l as [|x rest IH]; intro H; simpl; auto.
  assert (Hrest : forall y, In y rest -> p y = true -> q y = true)
    by (intros y Hy; apply H; now right).
  destruct (q x) eqn:Eq; simpl.
  - destruct (p x); rewrite IH; auto.
  - destruct (p x) eqn:Ep.
    + rewrite (H x (or_introl eq_refl) Ep) in Eq. discriminate.
    + auto.
Qed.

Lemma ErrCode_eqb_refl code : ErrCode_eqb code code = true.
Proof. now destruct code. Qed.

Lemma dispatched_app code l l' :
  dispatched code (l ++ l') = dispatched code l ++ dispatched code l'.
Proof. apply filter_app. Qed.

Lemma dispatched_error_free code l :
  filter is_error_delivery l = [] -> dispatched code l = [].
Proof.
  apply filter_nil_weaker. intros [] H; simpl in *; auto; discriminate.
Qed.

Lemma dispatched_error_calls code code' s :
  dispatched code (error_calls code' s)
  = if ErrCode_eqb code' code then error_calls code' s else [].
Proof.
  apply filter_all_or_none. intros o Ho. unfold error_calls in Ho.
  apply in_app_or in Ho as [Ho|Ho].
  - destruct (lookup "error" (listeners s)) as [entries|]; [|destruct Ho].
    apply in_map_iff in Ho as (e & <- & _). reflexivity.
  - destruct (ws s) as [socket|]; [|destruct Ho].
    destruct (nth_error (sockets s) socket) as [k|]; [|destruct Ho].
    destruct (onerror k); [|destruct Ho].
    destruct Ho as [<-|[]]. reflexivity.
Qed.

Lemma error_deliveries_dispatched code listener tr :
  error_deliveries code listener (dispatched code tr)
  = error_deliveries code listener tr.
Proof.
  unfold error_deliveries, dispatched. f_equal.
  apply filter_filter_same. intros [] _ H; simpl in *; try discriminate.
  now apply andb_true_iff in H as [-> _].
Qed.

Lemma since_trans s s1 s2 l1 l2 :
  trace s1 = trace s ++ l1 -> trace s2 = trace s1 ++ l2 ->
  since s s2 = since s s1 ++ since s1 s2.
Proof.
  intros E1 E2. destruct (since_step s s1 s2 l1 l2 E1 E2) as [-> ->].
  now rewrite (since_app s s1 l1 E1).
Qed.

Lemma step_trace config url protocols s e s' :
  Inv config s -> step config url protocols s e = inr s' ->
  exists l, trace s' = trace s ++ l.
Proof.
  intros H Hstep.
  destruct (transition_effect config url protocols s e s'
              (step_transition config url protocols s e s' H Hstep))
    as (l & E & _).
  eauto.
Qed.

Lemma pending_errors_clearTimeout code h s :
  pending_errors code s = [] -> pending_errors code (clearTimeout h s) = [].
Proof.
  unfold pending_errors. destruct h as [id|]; auto.
  destruct s; simpl. apply filter_filter_nil.
Qed.

(** A dispatch of [EHOSTDOWN] waits only after [EHOSTDOWN] was emitted. *)
Lemma transition_hostdown_pending config url protocols s e s' :
  transition config url protocols s e s' ->
  pending_errors EHOSTDOWN s = [] ->
  pending_errors EHOSTDOWN s' = [] \/
  (1 <= emitted EHOSTDOWN (trace s'))%nat.
Proof.
  intros Ht Hp. destruct Ht; auto.
  - left. rewrite open_handler_eq. cbv zeta. unfold pending_errors. simpl.
    apply (pending_errors_clearTimeout EHOSTDOWN (connectingTimeout s)
             (set_sockets (older ++ [set_readyState OPEN k]) s)).
    now destruct s.
  - rewrite close_handler_eq. cbv zeta.
    destruct (exceeds _ _).
    + right. simpl. rewrite !emitted_app. unfold emitted at 2. simpl. lia.
    + left. unfold pending_errors in *. simpl.
      destruct (shouldRetry _); [|now destruct s].
      rewrite filter_app. simpl.
      replace (filter (is_error_task EHOSTDOWN)
                 (timers (set_sockets (older ++ [set_readyState CLOSED k]) s)))
        with (filter (is_error_task EHOSTDOWN) (timers s))
        by now destruct s.
      now rewrite Hp.
  - left. apply connect_inr in H3 as (f & _ & ->).
    apply (pending_errors_clearTimeout EHOSTDOWN (Some id)) in Hp.
    unfold pending_errors in *. cbn [timers]. rewrite filter_app, Hp.
    reflexivity.
  - left. apply (pending_errors_clearTimeout EHOSTDOWN (Some id)) in Hp.
    unfold pending_errors in *. destruct s; simpl in *.
    rewrite filter_app, Hp. reflexivity.
  - left. apply (pending_errors_clearTimeout EHOSTDOWN (Some id)) in Hp.
    unfold pending_errors in *. now destruct s.
Qed.

Lemma no_hostdown_pending config url protocols s :
  reachable config url protocols s ->
  emitted EHOSTDOWN (trace s) = 0%nat ->
  pending_errors EHOSTDOWN s = [].
Proof.
  intros Hreach Hz.
  assert (HP : pending_errors EHOSTDOWN s = [] \/
               (1 <= emitted EHOSTDOWN (trace s))%nat).
  { revert s Hreach Hz.
    apply (reachable_induction config url protocols
             (fun s => emitted EHOSTDOWN (trace s) = 0%nat ->
                       pending_errors EHOSTDOWN s = [] \/
                       (1 <= emitted EHOSTDOWN (trace s))%nat)).
    - intros s0 Hs _. apply start_state in Hs as (f & _ & ->). now left.
    - intros s e s' Hi IH _ Ht Hz'.
      destruct (transition_effect config url protocols s e s' Ht)
        as (l & E & _).
      rewrite E, emitted_app in Hz'.
      destruct IH as [Hp|Hone]; [lia | | lia].
      now apply (transition_hostdown_pending config url protocols s e s'). }
  destruct HP as [?|?]; [assumption | lia].
Qed.

(** In a stalled instance, an event other than the firing of a pending
    [EHOSTDOWN] dispatch leaves those dispatches as they are and hands
    [EHOSTDOWN] to nobody. *)
Lemma stalled_quiet config url protocols s e s' :
  transition config url protocols s e s' -> stalled s ->
  (forall t, In t (timers s) -> is_error_task EHOSTDOWN t = true ->
             e <> TimerFires (timer_id t)) ->
  pending_errors EHOSTDOWN s' = pending_errors EHOSTDOWN s /\
  dispatched EHOSTDOWN (since s s') = [].
Proof.
  intros Ht [Hall Hsc] Hother.
  assert (Hkeep : forall id,
             (forall t, In t (timers s) -> is_error_task EHOSTDOWN t = true ->
                        TimerFires id <> TimerFires (timer_id t)) ->
             filter (is_error_task EHOSTDOWN)
               (filter (fun t => negb (Nat.eqb (timer_id t) id)) (timers s))
             = filter (is_error_task EHOSTDOWN) (timers s)).
  { intros id Hid. apply filter_filter_same. intros t Hin Hp.
    apply negb_true_iff. apply Nat.eqb_neq. intro E.
    apply (Hid t Hin Hp). now rewrite E. }
  destruct Ht.
  - split; [reflexivity|]. now rewrite since_same.
  - rewrite H in Hall. apply closed_last in Hall. congruence.
  - rewrite H in Hall. apply closed_last in Hall. congruence.
  - split; [reflexivity|].
    erewrite since_app by reflexivity.
    apply dispatched_error_free, user_calls_error_free.
  - unfold scheduled_connects in Hsc.
    pose proof (pending_connect _ _ H H1). lia.
  - split.
    + unfold pending_errors. destruct s; simpl in *.
      rewrite filter_app, Hkeep by assumption. simpl. now rewrite app_nil_r.
    + erewrite since_app
        by (destruct s; setters; rewrite <- app_assoc; reflexivity).
      reflexivity.
  - assert (Ec : ErrCode_eqb code EHOSTDOWN = false).
    { destruct (ErrCode_eqb code EHOSTDOWN) eqn:Ec; auto.
      exfalso. apply (Hother t H); [|now rewrite H0].
      unfold is_error_task. now rewrite H1. }
    split.
    + unfold pending_errors. destruct s; simpl in *. now apply Hkeep.
    + erewrite since_app by (destruct s; reflexivity).
      rewrite error_calls_clearTimeout, dispatched_error_calls. now rewrite Ec.
  - split; [now destruct s|].
    erewrite since_app by (destruct s; simpl; now rewrite app_nil_r).
    reflexivity.
  - split; [now destruct s|].
    erewrite since_app by (destruct s; simpl; now rewrite app_nil_r).
    reflexivity.
  - split; [now destruct s|].
    erewrite since_app by (destruct s; simpl; now rewrite app_nil_r).
    reflexivity.
  - split; [now destruct s|].
    erewrite since_app by (destruct s; simpl; now rewrite app_nil_r).
    reflexivity.
Qed.

(** Once no dispatch of [EHOSTDOWN] waits in a stalled instance, none
    ever runs. *)
Lemma run_after_dispatch config url protocols s events s' :
  Inv config s -> stalled s -> pending_errors EHOSTDOWN s = [] ->
  run config url protocols s events = inr s' ->
  pending_errors EHOSTDOWN s' = [] /\
  dispatched EHOSTDOWN (since s s') = [].
Proof.
  revert s. induction events as [|e rest IH]; simpl; intros s H Hst Hp Hrun.
  - injection Hrun as <-. split; [exact Hp | now rewrite since_same].
  - destruct (step_Inv config url protocols s e H) as (s1 & Hstep & H1).
    rewrite Hstep in Hrun. simpl in Hrun.
    pose proof (step_transition config url protocols s e s1 H Hstep) as Ht.
    destruct (transition_stalled config url protocols s e s1 Ht Hst)
      as (Hst1 & _).
    destruct (stalled_quiet config url protocols s e s1 Ht Hst) as [Hp1 Hd1].
    { intros t Hin Hpt. exfalso.
      assert (Hx : In t (pending_errors EHOSTDOWN s))
        by (apply filter_In; auto).
      rewrite Hp in Hx. destruct Hx. }
    rewrite Hp in Hp1.
    destruct (IH s1 H1 Hst1 Hp1 Hrun) as [Hp' Hd'].
    split; [exact Hp'|].
    destruct (step_trace config url protocols s e s1 H Hstep) as (l1 & E1).
    destruct (run_trace config url protocols s1 rest s' H1 Hrun) as (l2 & E2).
    rewrite (since_trans s s1 s' l1 l2 E1 E2), dispatched_app, Hd1, Hd'.
    reflexivity.
Qed.

Lemma hostdown_task_fires config url protocols s task :
  Inv config s -> timer_task task = ErrorTask EHOSTDOWN ->
  pending_errors EHOSTDOWN s = [task] ->
  exists s',
    step config url protocols s (TimerFires (timer_id task)) = inr s' /\
    dispatched EHOSTDOWN (since s s') = error_calls EHOSTDOWN s /\
    pending_errors EHOSTDOWN s' = [] /\
    timers s' = filter (fun t => negb (Nat.eqb (timer_id t) (timer_id task)))
                  (timers s).
Proof.
  intros H Htask Hp.
  assert (Hin : In task (timers s)).
  { assert (Hx : In task (pending_errors EHOSTDOWN s))
      by (rewrite Hp; now left).
    now apply filter_In in Hx. }
  eexists. split; [exact (error_task_fires config url protocols s task
                            EHOSTDOWN H Hin Htask)|].
  split; [|split].
  - erewrite since_app by (destruct s; reflexivity).
    rewrite dispatched_error_calls. reflexivity.
  - unfold pending_errors in *. destruct s; simpl in *.
    assert (E : forall (p q : Timer -> bool) (l : list Timer),
               filter p (filter q l) = filter q (filter p l)).
    { intros p q l. induction l as [|x rest IH]; simpl; auto.
      destruct (p x) eqn:Ep, (q x) eqn:Eq; simpl; rewrite ?Ep, ?Eq, IH; auto. }
    rewrite E, Hp. simpl. now rewrite Nat.eqb_refl.
  - now destruct s.
Qed.

(** The one dispatch of [EHOSTDOWN] of a stalled instance: until its
    timer fires nobody has been handed the error; the firing hands it to
    the listeners registered then; nothing does afterwards. *)
Lemma run_with_dispatch config url protocols s task events s' :
  Inv config s -> stalled s ->
  timer_task task = ErrorTask EHOSTDOWN ->
  pending_errors EHOSTDOWN s = [task] ->
  run config url protocols s events = inr s' ->
  (pending_errors EHOSTDOWN s' = [task] /\
   dispatched EHOSTDOWN (since s s') = []) \/
  (pending_errors EHOSTDOWN s' = [] /\
   exists before later sa,
     events = before ++ TimerFires (timer_id task) :: later /\
     run config url protocols s before = inr sa /\
     dispatched EHOSTDOWN (since s s') = error_calls EHOSTDOWN sa).
Proof.
  intros H Hst Htask. revert s H Hst.
  induction events as [|e rest IH]; simpl; intros s H Hst Hp Hrun.
  - injection Hrun as <-. left. split; [exact Hp | now rewrite since_same].
  - destruct (step_Inv config url protocols s e H) as (s1 & Hstep & H1).
    rewrite Hstep in Hrun. simpl in Hrun.
    pose proof (step_transition config url protocols s e s1 H Hstep) as Ht.
    destruct (transition_stalled config url protocols s e s1 Ht Hst)
      as (Hst1 & _).
    destruct (step_trace config url protocols s e s1 H Hstep) as (l1 & E1).
    destruct (run_trace config url protocols s1 rest s' H1 Hrun) as (l2 & E2).
    rewrite (since_trans s s1 s' l1 l2 E1 E2), dispatched_app.
    assert (Hdec : e = TimerFires (timer_id task) \/
                   e <> TimerFires (timer_id task)).
    { destruct e; try (right; discriminate).
      destruct (Nat.eq_dec id (timer_id task)) as [->|Hne]; [now left|].
      right. intro E. injection E as E. contradiction. }
    destruct Hdec as [->|Hne].
    + destruct (hostdown_task_fires config url protocols s task H Htask Hp)
        as (s1' & Hstep' & Hd & Hp1 & _).
      rewrite Hstep in Hstep'. injection Hstep' as <-.
      destruct (run_after_dispatch config url protocols s1 rest s'
                  H1 Hst1 Hp1 Hrun) as [Hp' Hd'].
      right. split; [exact Hp'|].
      exists [], rest, s. split; [reflexivity|]. split; [reflexivity|].
      now rewrite Hd, Hd', app_nil_r.
    + destruct (stalled_quiet config url protocols s e s1 Ht Hst)
        as [Hp1 Hd1].
      { intros t Hin Hpt E.
        assert (Hx : In t (pending_errors EHOSTDOWN s))
          by (apply filter_In; auto).
        rewrite Hp in Hx. destruct Hx as [<-|[]]. contradiction. }
      rewrite Hp in Hp1. rewrite Hd1. cbn [app].
      destruct (IH s1 H1 Hst1 Hp1 Hrun)
        as [[Hp' Hd']|(Hp' & before & later & sa & -> & Hb & Hd')].
      * left. auto.
      * right. split; [exact Hp'|].
        exists (e :: before), later, sa.
        split; [reflexivity|]. split; [|exact Hd'].
        simpl. now rewrite Hstep.
Qed.

(** C3.  When a 'close' event takes [retriesCount] beyond [maxRetries],
    [EHOSTDOWN] is emitted by that event and, whatever happens
    afterwards, exactly once in the whole run: the event defers one
    dispatch (a timer of delay [0]) and calls nobody itself; until that
    timer fires nobody has been handed the error; its firing hands it to
    every listener registered for 'error' at that moment, as often as
    registered, and to [ws.onerror]; after that nobody is handed it
    again.  No further [connect] is entered, and none is waiting on a
    timer. *)
Theorem retries_exhausted config url protocols s socket st random events :
  reachable config url protocols s ->
  state_of socket s = Some st -> st <> CLOSED ->
  exceeds (S (retriesCount s)) (maxRetries config) = true ->
  exists s1 s2,
    step config url protocols s (SocketCloses socket random) = inr s1 /\
    run config url protocols s1 events = inr s2 /\
    emitted EHOSTDOWN (trace s) = 0%nat /\
    emitted EHOSTDOWN (trace s1) = 1%nat /\
    emitted EHOSTDOWN (trace s2) = 1%nat /\
    attempts (trace s2) = attempts (trace s) /\
    scheduled_connects s2 = 0%nat /\
    pending_errors EHOSTDOWN s = [] /\
    pending_errors EHOSTDOWN s1
    = [mkTimer (next_timer s) 0 (ErrorTask EHOSTDOWN)] /\
    filter is_error_delivery (since s s1) = [] /\
    ((pending_errors EHOSTDOWN s2
      = [mkTimer (next_timer s) 0 (ErrorTask EHOSTDOWN)] /\
      dispatched EHOSTDOWN (since s1 s2) = [] /\
      exists s3,
        step config url protocols s2 (TimerFires (next_timer s)) = inr s3 /\
        dispatched EHOSTDOWN (since s2 s3) = error_calls EHOSTDOWN s2 /\
        (forall listener,
            error_deliveries EHOSTDOWN listener (since s2 s3)
            = registrations "error" listener (listeners s2)) /\
        pending_errors EHOSTDOWN s3 = [])
     \/
     (pending_errors EHOSTDOWN s2 = [] /\
      exists before later sa,
        events = before ++ TimerFires (next_timer s) :: later /\
        run config url protocols s1 before = inr sa /\
        dispatched EHOSTDOWN (since s1 s2) = error_calls EHOSTDOWN sa /\
        forall listener,
          error_deliveries EHOSTDOWN listener (since s1 s2)
          = registrations "error" listener (listeners sa))).
Proof.
  intros Hreach Hst Hne Hx.
  pose proof (reachable_Inv config url protocols s Hreach) as H.
  destruct (step_Inv config url protocols s (SocketCloses socket random) H)
    as (s1 & Hstep & H1).
  destruct (run_Inv config url protocols s1 events H1) as (s2 & Hrun & H2).
  exists s1, s2. split; [exact Hstep|]. split; [exact Hrun|].
  destruct (step_closes config url protocols s socket random st H Hst Hne)
    as (older & k & users & E & -> & Hk & Ha & Hstep').
  rewrite Hstep' in Hstep. injection Hstep as Hs1.
  destruct (Inv_live config s older k H E) as [Hsc Hz].
  { unfold is_closed. rewrite Hk. now destruct st. }
  destruct (Inv_current config s H)
    as (older' & k' & E' & _ & Hold & _ & _).
  rewrite E in E'. apply app_inj_tail in E' as [<- <-].
  pose proof (no_hostdown_pending config url protocols s Hreach Hz) as Hp0.
  assert (Hst1 : stalled s1).
  { rewrite <- Hs1. rewrite close_handler_eq. cbv zeta.
    change (retriesCount (set_sockets _ s)) with (retriesCount s).
    rewrite Hx. split.
    - simpl. rewrite forallb_app, Hold. reflexivity.
    - unfold scheduled_connects in *. simpl.
      rewrite filter_app, length_app, Hsc. reflexivity. }
  assert (Htr : emitted EHOSTDOWN (trace s1) = 1%nat /\
                attempts (trace s1) = attempts (trace s)).
  { rewrite <- Hs1. rewrite close_handler_eq. cbv zeta.
    change (retriesCount (set_sockets _ s)) with (retriesCount s).
    rewrite Hx. simpl.
    rewrite !emitted_app, !attempts_app, Hz, user_calls_emitted,
      user_calls_attempts. unfold attempts. simpl. split; lia. }
  destruct Htr as [He1 Ha1].
  destruct (run_stalled config url protocols s1 events s2 H1 Hst1 Hrun)
    as ([_ Hsc2] & Ha2 & He2).
  assert (Hp1 : pending_errors EHOSTDOWN s1
                = [mkTimer (next_timer s) 0 (ErrorTask EHOSTDOWN)]).
  { rewrite <- Hs1. rewrite close_handler_eq. cbv zeta.
    change (retriesCount (set_sockets _ s)) with (retriesCount s).
    rewrite Hx. unfold pending_errors in *. simpl.
    rewrite filter_app.
    replace (filter (is_error_task EHOSTDOWN)
               (timers (set_sockets (older ++ [set_readyState CLOSED k]) s)))
      with (filter (is_error_task EHOSTDOWN) (timers s))
      by now destruct s.
    rewrite Hp0. now destruct s. }
  assert (Hq1 : filter is_error_delivery (since s s1) = []).
  { rewrite <- Hs1. rewrite close_handler_eq. cbv zeta.
    change (retriesCount (set_sockets _ s)) with (retriesCount s).
    rewrite Hx.
    erewrite since_app
      by (unfold observe_all; simpl; rewrite <- app_assoc; reflexivity).
    rewrite filter_app, user_calls_error_free. reflexivity. }
  do 5 (split; [congruence|]).
  split; [exact Hp0|]. split; [exact Hp1|]. split; [exact Hq1|].
  destruct (run_with_dispatch config url protocols s1
              (mkTimer (next_timer s) 0 (ErrorTask EHOSTDOWN)) events s2
              H1 Hst1 eq_refl Hp1 Hrun)
    as [[Hp2 Hd2]|(Hp2 & before & later & sa & Hev & Hb & Hd2)].
  - left. split; [exact Hp2|]. split; [exact Hd2|].
    destruct (hostdown_task_fires config url protocols s2
                (mkTimer (next_timer s) 0 (ErrorTask EHOSTDOWN))
                H2 eq_refl Hp2)
      as (s3 & Hstep3 & Hd3 & Hp3 & _).
    exists s3. split; [exact Hstep3|]. split; [exact Hd3|].
    split; [|exact Hp3].
    intro listener.
    rewrite <- error_deliveries_dispatched, Hd3. apply error_calls_counted.
  - right. split; [exact Hp2|].
    exists before, later, sa. split; [exact Hev|]. split; [exact Hb|].
    split; [exact Hd2|].
    intro listener.
    rewrite <- error_deliveries_dispatched, Hd2. apply error_calls_counted.
Qed.

(** With [maxRetries: 0] and a listener registered for 'error': the first
    'close' exhausts the budget; the listener is called once, when the
    deferred dispatch runs. *)
Lemma retries_exhausted_witness :
  let config := set_config browser_table (only_maxRetries 0) in
  let s := after config (constructed browser_table (only_maxRetries 0))
             [AddEventListener "error" 3%nat NoOptions] in
  exists s1 s2,
    step config sample_url [] s (SocketCloses 0%nat 0) = inr s1 /\
    run config sample_url [] s1
        [TimerFires 2%nat; TimerFires 1%nat; TimerFires 2%nat; Close]
    = inr s2 /\
    emitted EHOSTDOWN (trace s2) = 1%nat /\
    attempts (trace s2) = attempts (trace s) /\
    scheduled_connects s2 = 0%nat /\
    pending_errors EHOSTDOWN s1 = [mkTimer 2%nat 0 (ErrorTask EHOSTDOWN)] /\
    dispatched EHOSTDOWN (since s1 s2) = [ErrorListenerCalled EHOSTDOWN 3%nat].
Proof.
  destruct (retries_exhausted
              (set_config browser_table (only_maxRetries 0)) sample_url []
              (after (set_config browser_table (only_maxRetries 0))
                 (constructed browser_table (only_maxRetries 0))
                 [AddEventListener "error" 3%nat NoOptions])
              0%nat CONNECTING 0
              [TimerFires 2%nat; TimerFires 1%nat; TimerFires 2%nat; Close])
    as (s1 & s2 & E1 & E2 & _ & _ & E3 & E4 & E5 & _ & E6 & _).
  - apply (after_reachable browser_table (only_maxRetries 0) WebSocket).
    + reflexivity.
    + draws.
    + eexists. vm_compute. reflexivity.
  - reflexivity.
  - discriminate.
  - reflexivity.
  - exists s1, s2. do 6 (split; [assumption|]).
    vm_compute in E1. injection E1 as <-.
    vm_compute in E2. injection E2 as <-.
    reflexivity.
Defined.

(** * The last 'close' after close() *)

(** C9, amended.  After [close()], the 'close' event of the socket being
    shut down still runs the handler: [retriesCount] is incremented.
    When that takes it beyond [maxRetries], [EHOSTDOWN] is emitted (one
    dispatch is deferred, which hands the error to the listeners when its
    timer fires) and the handler returns before it touches
    [reconnectDelay].  Otherwise [reconnectDelay] is updated as on any
    failure: drawn afresh when it is the sentinel, multiplied by the
    factor and capped when not.  In neither case is a [connect]
    scheduled. *)
Theorem close_event_after_close config url protocols s socket st random :
  reachable config url protocols s ->
  state_of socket s = Some st -> st <> CLOSED ->
  exists s1 s2,
    close s = inr s1 /\
    shouldRetry s1 = false /\
    step config url protocols s1 (SocketCloses socket random) = inr s2 /\
    retriesCount s2 = S (retriesCount s) /\
    shouldRetry s2 = false /\
    scheduled_connects s2 = 0%nat /\
    attempts (trace s2) = attempts (trace s) /\
    if exceeds (S (retriesCount s)) (maxRetries config)
    then emitted EHOSTDOWN (since s s2) = 1%nat /\
         timers s2
         = timers s ++ [mkTimer (next_timer s) 0 (ErrorTask EHOSTDOWN)] /\
         reconnectDelay s2 = reconnectDelay s /\
         delays_logged (since s s2) = [] /\
         exists s3,
           step config url protocols s2 (TimerFires (next_timer s)) = inr s3 /\
           forall listener,
             error_deliveries EHOSTDOWN listener (since s2 s3)
             = registrations "error" listener (listeners s2)
    else emitted EHOSTDOWN (since s s2) = 0%nat /\
         timers s2 = timers s /\
         delays_logged (since s s2) = [reconnectDelay s2] /\
         (reconnectDelay s == 0 ->
          reconnectDelay s2
          = minReconnectionDelay config
            + random * minReconnectionDelay config) /\
         (~ reconnectDelay s == 0 ->
          reconnectDelay s2
          == Qmin (reconnectDelay s * reconnectionDelayGrowFactor config)
                  (maxReconnectionDelay config)).
Proof.
  intros Hreach Hst Hne.
  pose proof (reachable_Inv config url protocols s Hreach) as H.
  destruct (live_current config s socket st H Hst Hne)
    as (older & k & users & E & -> & Hk & Hws & Ha & Hu & Hnd & Hold).
  destruct (Inv_live config s older k H E) as [Hsc Hz].
  { unfold is_closed. rewrite Hk. now destruct st. }
  pose proof (close_eq s older k E Hws) as Hclose.
  destruct (step_Inv config url protocols s Close H) as (s1 & Hstep1 & H1).
  simpl in Hstep1. rewrite Hclose in Hstep1. injection Hstep1 as Hs1.
  exists s1.
  assert (Hst1 : state_of (List.length older) s1
                 = Some (readyState (socket_close k))).
  { rewrite <- Hs1. unfold state_of. simpl. now rewrite nth_error_last. }
  assert (Hne1 : readyState (socket_close k) <> CLOSED).
  { simpl. rewrite Hk. destruct st; congruence. }
  destruct (step_closes config url protocols s1 _ random _ H1 Hst1 Hne1)
    as (older1 & k1 & users1 & E1 & Hlen & Hk1 & Ha1 & Hstep2).
  assert (E1' : sockets s1 = older ++ [socket_close k])
    by (rewrite <- Hs1; reflexivity).
  rewrite E1' in E1. apply app_inj_tail in E1 as [<- <-].
  destruct (step_Inv config url protocols s1
              (SocketCloses (List.length older) random) H1)
    as (s2 & Hstep2' & H2).
  exists s2. split; [rewrite Hclose, Hs1; reflexivity|].
  split; [rewrite <- Hs1; reflexivity|].
  split; [exact Hstep2'|].
  rewrite Hstep2 in Hstep2'. injection Hstep2' as Hs2.
  rewrite close_handler_eq in Hs2. cbv zeta in Hs2. rewrite <- Hs1 in Hs2.
  unfold next_delay in Hs2. simpl in Hs2.
  unfold scheduled_connects in *.
  destruct (exceeds (S (retriesCount s)) (maxRetries config)) eqn:Hx.
  - assert (Ht2 : timers s2
                  = timers s
                    ++ [mkTimer (next_timer s) 0 (ErrorTask EHOSTDOWN)])
      by (rewrite <- Hs2; reflexivity).
    split; [rewrite <- Hs2; reflexivity|].
    split; [rewrite <- Hs2; reflexivity|].
    split; [rewrite Ht2, filter_app, length_app, Hsc; reflexivity|].
    split.
    { rewrite <- Hs2. simpl. rewrite !attempts_app, user_calls_attempts.
      unfold attempts at 2. simpl. lia. }
    split.
    { erewrite since_app
        by (rewrite <- Hs2; simpl; rewrite <- app_assoc; reflexivity).
      rewrite emitted_app, user_calls_emitted. reflexivity. }
    split; [exact Ht2|].
    split; [rewrite <- Hs2; reflexivity|].
    split.
    { erewrite since_app
        by (rewrite <- Hs2; simpl; rewrite <- app_assoc; reflexivity).
      rewrite delays_logged_app, user_calls_delays. reflexivity. }
    assert (Hin : In (mkTimer (next_timer s) 0 (ErrorTask EHOSTDOWN))
                     (timers s2))
      by (rewrite Ht2; apply in_or_app; right; now left).
    eexists. split.
    { exact (error_task_fires config url protocols s2 _ EHOSTDOWN H2 Hin
               eq_refl). }
    intro listener.
    erewrite since_app by (destruct s2; reflexivity).
    apply error_calls_counted.
  - assert (Hd2 : reconnectDelay s2
                  = if is_unset (reconnectDelay s)
                    then initReconnectionDelay config random
                    else updateReconnectionDelay config (reconnectDelay s))
      by (rewrite <- Hs2; reflexivity).
    split; [rewrite <- Hs2; reflexivity|].
    split; [rewrite <- Hs2; reflexivity|].
    split; [rewrite <- Hs2; simpl; exact Hsc|].
    split.
    { rewrite <- Hs2. simpl. rewrite !attempts_app, user_calls_attempts.
      unfold attempts at 2. simpl. lia. }
    split.
    { erewrite since_app
        by (rewrite <- Hs2; simpl; rewrite <- app_assoc; reflexivity).
      rewrite emitted_app, user_calls_emitted. reflexivity. }
    split; [rewrite <- Hs2; reflexivity|].
    split.
    { rewrite Hd2.
      erewrite since_app
        by (rewrite <- Hs2; simpl; rewrite <- app_assoc; reflexivity).
      rewrite delays_logged_app, user_calls_delays. reflexivity. }
    rewrite Hd2. split.
    + intro Hzero. apply is_unset_true in Hzero. now rewrite Hzero.
    + intro Hnz. apply is_unset_false in Hnz. rewrite Hnz.
      apply update_is_min.
Qed.

(** Both branches: with the default unbounded budget the delay is drawn
    ([1500 + 0.5 * 1500]); with [maxRetries: 0] the handler returns early. *)
Lemma close_event_after_close_witness :
  (let s := constructed browser_table empty_options in
   exists s1 s2,
     close s = inr s1 /\
     step browser_table sample_url [] s1 (SocketCloses 0%nat (1 # 2))
     = inr s2 /\
     retriesCount s2 = 1%nat /\
     timers s2 = timers s /\
     reconnectDelay s2 = 1500 + (1 # 2) * 1500)
  /\
  (let config := set_config browser_table (only_maxRetries 0) in
   let s := constructed browser_table (only_maxRetries 0) in
   exists s1 s2,
     close s = inr s1 /\
     step config sample_url [] s1 (SocketCloses 0%nat (1 # 2)) = inr s2 /\
     retriesCount s2 = 1%nat /\
     emitted EHOSTDOWN (since s s2) = 1%nat /\
     reconnectDelay s2 = reconnectDelay s).
Proof.
  split.
  - destruct (close_event_after_close browser_table sample_url []
                (constructed browser_table empty_options)
                0%nat CONNECTING (1 # 2))
      as (s1 & s2 & E1 & _ & E2 & E3 & _ & _ & _ & E4).
    + apply (constructed_reachable browser_table empty_options WebSocket).
      reflexivity.
    + reflexivity.
    + discriminate.
    + exists s1, s2. do 3 (split; [assumption|]).
      change (exceeds 1 (maxRetries browser_table)) with false in E4.
      destruct E4 as (_ & E5 & _ & E6 & _).
      split; [exact E5|]. apply E6. reflexivity.
  - destruct (close_event_after_close
                (set_config browser_table (only_maxRetries 0)) sample_url []
                (constructed browser_table (only_maxRetries 0))
                0%nat CONNECTING (1 # 2))
      as (s1 & s2 & E1 & _ & E2 & E3 & _ & _ & _ & E4).
    + apply (constructed_reachable browser_table (only_maxRetries 0)
               WebSocket).
      reflexivity.
    + reflexivity.
    + discriminate.
    + exists s1, s2. do 3 (split; [assumption|]).
      change (exceeds 1 (maxRetries
                           (set_config browser_table (only_maxRetries 0))))
        with true in E4.
      destruct E4 as (E5 & _ & E6 & _).
      split; assumption.
Defined.

(** With [maxRetries: 1]: the first socket closes (delay [2250]), the
    retry's socket is being connected when [close()] is called; its
    'close' event exceeds the budget and leaves [reconnectDelay] at
    [2250], where an update would have made it [2925]. *)
Lemma close_event_leaves_delay_when_exhausted :
  exists config s0 s',
    ReconnectingWebsocket true browser_table sample_url [] (only_maxRetries 1)
    = (config, inr s0) /\
    run config sample_url [] s0
        [SocketCloses 0%nat (1 # 2); TimerFires 2%nat; Close;
         SocketCloses 1%nat (1 # 2)] = inr s' /\
    retriesCount s' = 2%nat /\
    emitted EHOSTDOWN (trace s') = 1%nat /\
    reconnectDelay s' == 2250 /\
    ~ reconnectDelay s'
      == Qmin (2250 * reconnectionDelayGrowFactor config)
              (maxReconnectionDelay config).
Proof.
  do 3 eexists. split; [vm_compute; reflexivity|].
  split; [vm_compute; reflexivity|].
  split; [reflexivity|]. split; [reflexivity|].
  split; [vm_compute; reflexivity|].
  vm_compute. discriminate.
Qed.

(** * Registering a listener twice *)


















